(** * Solis inverter service: polling, session and subscription engine

    A shallow embedding of [custom_components/solis/service.py] and the
    properties of its update cycle, discovery cycle and subscriber
    contract.

    The Python code is effectful: it mutates the service object and the
    subscriber objects, reads two clocks, calls the portal API and
    registers callbacks with the host scheduler.  It is embedded in a
    small state-and-exception monad [M] that also records every call that
    leaves the service (API calls, subscriber calls, scheduler calls) in
    a trace.  [await] points are sequential steps: one cycle runs from
    start to end without another cycle in between.  Logging calls are
    left out.  Line numbers are those of service.py. *)

From Stdlib Require Import ZArith String List Lia.
From stdpp Require Import base option list gmap strings.

Local Open Scope Z_scope.

(** ** Python values *)

(** The values a snapshot carries ([str | int | float], and [None] or
    [bool] as any Python object may be).  A float is kept as its IEEE 754
    binary64 bit pattern; the service never computes with it. *)
Inductive value : Type :=
| VNone
| VBool (b : bool)
| VInt (n : Z)
| VFloat (bits : Z)
| VStr (s : string).

(** [v == n] for an int literal [n] that is 1 or 2, as Python evaluates
    it: [True == 1], [1.0 == 1] and [2.0 == 2] hold. *)
Definition float_bits_of_small_int (n : Z) : option Z :=
  if n =? 1 then Some 0x3FF0000000000000
  else if n =? 2 then Some 0x4000000000000000
  else None.

Definition py_eq_int (v : value) (n : Z) : bool :=
  match v with
  | VInt k => k =? n
  | VBool b => (if b then 1 else 0) =? n
  | VFloat bits =>
      match float_bits_of_small_int n with
      | Some pat => bits =? pat
      | None => false
      end
  | VNone | VStr _ => false
  end.

(** ** datetime and timedelta *)

(** A [datetime] is the number of microseconds since 0001-01-01T00:00:00
    on its own clock (local for [datetime.now()], UTC for
    [dt_util.utcnow()]); a [timedelta] is a number of microseconds.  The
    year-9999 upper limit of Python's datetime is not modelled. *)
Definition datetime : Type := Z.

Definition timedelta (hours minutes seconds : Z) : Z :=
  ((hours * 60 + minutes) * 60 + seconds) * 1000000.

Definition dt_hour (d : datetime) : Z := (d / 3600000000) mod 24.

Definition dt_minute (d : datetime) : Z := (d / 60000000) mod 60.

(** ** Constants of the module *)

Definition SCHEDULE_OK : Z := 2.

Definition SCHEDULE_NOK : Z := 1.

Definition HRS_BETWEEN_LOGIN : Z := timedelta 2 0 0.

Definition RETRY_DELAY_SECONDS : Z := 60.

Definition ONLINE : string := "Online"%string.

Definition OFFLINE : string := "Offline"%string.

(** ** Snapshots *)

(** Modelled from the spec: [GinlongData] (ginlong_base.py is not part of
    the sources).  A snapshot is a mapping from attribute name to value,
    the device serial being one of the attributes; [keys()] lists the
    names in the mapping's order and [getattr] looks a name up, raising
    [AttributeError] when there is none. *)
Definition GinlongData : Type := list (string * value).

Definition keys (data : GinlongData) : list string := map fst data.

Fixpoint data_lookup (data : GinlongData) (name : string) : option value :=
  match data with
  | [] => None
  | (k, v) :: rest => if String.eqb k name then Some v else data_lookup rest name
  end.

(** ** Configuration objects *)

(** [isinstance] sorts the configuration into one of three cases. *)
Inductive PortalConfig (GCfg SCfg : Type) : Type :=
| IsGinlongConfig (c : GCfg)
| IsSoliscloudConfig (c : SCfg)
| OtherConfig.

Arguments IsGinlongConfig {GCfg SCfg} c.

Arguments IsSoliscloudConfig {GCfg SCfg} c.

Arguments OtherConfig {GCfg SCfg}.

(** ** Interfaces *)

(** The portal API the service consumes ([BaseAPI]); [A] is the state of
    the API object. *)
Class BaseAPI (A : Type) : Type := {
  is_online : A → bool;
  login : A → bool * A;
  logout : A → A;
  inverters : A → option (list string);
  fetch_inverter_data : string → A → option GinlongData * A
}.

(** The abstract method of [ServiceSubscriber].  Subscriber objects are
    named by a number; [E] is whatever state the concrete subscribers
    keep besides [_measured]. *)
Class ServiceSubscriber (E : Type) : Type :=
  do_update : nat → value → option datetime → E → bool * E.

(** The constructors of the two API classes (ginlong_api.py and
    soliscloud_api.py are not part of the sources). *)
Class ApiClasses (GCfg SCfg A : Type) : Type := {
  GinlongAPI : GCfg → A;
  SoliscloudAPI : SCfg → A
}.

(** The attribute names of ginlong_const.py (not part of the sources). *)
Class GinlongConst : Type := {
  INVERTER_ENERGY_TODAY : string;
  INVERTER_SERIAL : string;
  INVERTER_STATE : string
}.

(** The two clocks of the host: what the n-th clock reading of a run
    returns, for [datetime.now()] and for [dt_util.utcnow()]. *)
Class HostClock : Type := {
  local_clock : nat → datetime;
  utc_clock : nat → datetime
}.

(** ** Observable calls *)

(** The calls that leave the service, in the order they are made: the
    API's [login], [logout] and [fetch_inverter_data] with what they
    gave back, a subscriber's [data_updated] and the [do_update] it
    makes, [async_track_point_in_utc_time] with the method to call and
    the instant, and the discovery callback with its two arguments. *)
Inductive callback_target : Type := AsyncUpdate | AsyncDiscover.

Inductive event : Type :=
| ApiLogin (ok : bool)
| ApiLogout
| ApiFetch (serial : string) (data : option GinlongData)
| DataUpdated (sub : nat) (v : value) (last_updated : option datetime)
| DoUpdate (sub : nat) (v : value) (last_updated : option datetime) (applied : bool)
| TrackPointInUtcTime (target : callback_target) (nxt : datetime)
| DiscoveryCallback (cb : nat) (capabilities : gmap string (list string))
    (cookie : list (string * value)).

Definition is_do_update (e : event) : bool :=
  match e with DoUpdate _ _ _ _ => true | _ => false end.

Definition is_track (e : event) : bool :=
  match e with TrackPointInUtcTime _ _ => true | _ => false end.

Definition is_api_login (e : event) : bool :=
  match e with ApiLogin _ => true | _ => false end.

Definition is_discovery_callback (e : event) : bool :=
  match e with DiscoveryCallback _ _ _ => true | _ => false end.

Definition is_api_fetch (e : event) : bool :=
  match e with ApiFetch _ _ => true | _ => false end.

(** ** Exceptions *)

Inductive exn : Type :=
| AttributeError (name : string)
| KeyError (key : string).

Inductive outcome (A : Type) : Type :=
| Returns (a : A)
| Raises (e : exn).

Arguments Returns {A} a.

Arguments Raises {A} e.

(** ** Reading a trace *)

Definition count_events (p : event → bool) (tr : list event) : nat :=
  length (List.filter p tr).

(** The [data_updated] calls of a trace: subscriber, value, timestamp. *)
Fixpoint notified (tr : list event) : list (nat * value * option datetime) :=
  match tr with
  | [] => []
  | DataUpdated sub v t :: rest => (sub, v, t) :: notified rest
  | _ :: rest => notified rest
  end.

Definition notify_with (t : option datetime) (e : event) : Prop :=
  match e with
  | DataUpdated _ _ t' | DoUpdate _ _ t' _ => t' = t
  | _ => False
  end.

Definition unscheduled (e : event) : Prop :=
  is_track e = false ∧ is_discovery_callback e = false.

Definition failed_fetch (tr : list event) : Prop :=
  ∃ serial, ApiFetch serial None ∈ tr.

(** The last fetch of a trace: the device and what came back. *)
Definition last_fetch_from (acc : option (string * option GinlongData))
    (tr : list event) : option (string * option GinlongData) :=
  fold_left (λ acc e, match e with ApiFetch serial d => Some (serial, d) | _ => acc end)
    tr acc.

Definition last_fetch (tr : list event) : option (string * option GinlongData) :=
  last_fetch_from None tr.

Definition status_of (f : option (string * option GinlongData)) : Z :=
  match f with
  | Some (_, Some _) => SCHEDULE_OK
  | _ => SCHEDULE_NOK
  end.

(** Between one fetch and the next, all [data_updated] calls carry one
    timestamp; [cur] is the timestamp seen since the last fetch. *)
Fixpoint one_timestamp_per_fetch (cur : option (option datetime)) (tr : list event)
    : Prop :=
  match tr with
  | [] => True
  | ApiFetch _ _ :: rest => one_timestamp_per_fetch None rest
  | DataUpdated _ _ t :: rest =>
      match cur with
      | None => one_timestamp_per_fetch (Some t) rest
      | Some t0 => t = t0 ∧ one_timestamp_per_fetch cur rest
      end
  | _ :: rest => one_timestamp_per_fetch cur rest
  end.

Section Service.

Context {Api : Type} {portal : BaseAPI Api}.
Context {Env : Type} {sensors : ServiceSubscriber Env}.
Context {GCfg SCfg HomeAssistant : Type} {api_classes : ApiClasses GCfg SCfg Api}.
Context {const : GinlongConst} {clock : HostClock}.

(** ** State *)

(** The fields of an [InverterService] object.  [_api] is [None] when
    the attribute was never assigned. *)
Record InverterService : Type := {
  _last_updated : option datetime;
  _logintime : option datetime;
  _subscriptions : gmap string (gmap string nat);
  _hass : HomeAssistant;
  _discovery_callback : option nat;
  _discovery_cookie : option (list (string * value));
  _api : option Api
}.

(** The service object, the [_measured] field of every subscriber object
    (no entry: [None]), the subscribers' own state and the number of
    clock readings taken so far. *)
Record World : Type := {
  service : InverterService;
  subscribers : gmap nat datetime;
  sub_env : Env;
  ticks : nat
}.

Definition with_service (f : InverterService → InverterService) (w : World) : World :=
  {| service := f (service w); subscribers := subscribers w;
     sub_env := sub_env w; ticks := ticks w |}.

Definition with_last_updated (t : option datetime) (s : InverterService) :=
  {| _last_updated := t; _logintime := _logintime s;
     _subscriptions := _subscriptions s; _hass := _hass s;
     _discovery_callback := _discovery_callback s;
     _discovery_cookie := _discovery_cookie s; _api := _api s |}.

Definition with_logintime (t : option datetime) (s : InverterService) :=
  {| _last_updated := _last_updated s; _logintime := t;
     _subscriptions := _subscriptions s; _hass := _hass s;
     _discovery_callback := _discovery_callback s;
     _discovery_cookie := _discovery_cookie s; _api := _api s |}.

Definition with_subscriptions (m : gmap string (gmap string nat)) (s : InverterService) :=
  {| _last_updated := _last_updated s; _logintime := _logintime s;
     _subscriptions := m; _hass := _hass s;
     _discovery_callback := _discovery_callback s;
     _discovery_cookie := _discovery_cookie s; _api := _api s |}.

Definition with_discovery (cb : option nat) (cookie : option (list (string * value)))
    (s : InverterService) :=
  {| _last_updated := _last_updated s; _logintime := _logintime s;
     _subscriptions := _subscriptions s; _hass := _hass s;
     _discovery_callback := cb; _discovery_cookie := cookie; _api := _api s |}.

Definition with_api (a : Api) (s : InverterService) :=
  {| _last_updated := _last_updated s; _logintime := _logintime s;
     _subscriptions := _subscriptions s; _hass := _hass s;
     _discovery_callback := _discovery_callback s;
     _discovery_cookie := _discovery_cookie s; _api := Some a |}.

(** ** The monad *)

Definition M (A : Type) : Type := World → outcome A * World * list event.

#[export] Instance M_ret : MRet M := λ A a w, (Returns a, w, []).

#[export] Instance M_bind : MBind M := λ A B f m w,
  match m w with
  | (Returns a, w1, t1) =>
      match f a w1 with
      | (r, w2, t2) => (r, w2, t1 ++ t2)
      end
  | (Raises e, w1, t1) => (Raises e, w1, t1)
  end.

Definition raise {A : Type} (e : exn) : M A := λ w, (Raises e, w, []).

Definition emit (e : event) : M unit := λ w, (Returns (), w, [e]).

Definition self : M InverterService := λ w, (Returns (service w), w, []).

Definition update_self (f : InverterService → InverterService) : M unit :=
  λ w, (Returns (), with_service f w, []).

(** [try: m  except KeyError: handler] *)
Definition try_except_KeyError {A : Type} (m : M A) (handler : M A) : M A := λ w,
  match m w with
  | (Raises (KeyError _), w1, t1) =>
      match handler w1 with
      | (r, w2, t2) => (r, w2, t1 ++ t2)
      end
  | r => r
  end.

(** [for x in l: body x] *)
Fixpoint for_each {A : Type} (l : list A) (body : A → M unit) : M unit :=
  match l with
  | [] => mret ()
  | x :: rest => body x;; for_each rest body
  end.

(** [for x in l: acc = body acc x] *)
Fixpoint for_fold {A B : Type} (l : list A) (acc : B) (body : B → A → M B) : M B :=
  match l with
  | [] => mret acc
  | x :: rest => acc' ← body acc x; for_fold rest acc' body
  end.

(** [d[k]] on a dict. *)
Definition getitem {V : Type} (d : gmap string V) (k : string) : M V :=
  match d !! k with
  | Some v => mret v
  | None => raise (KeyError k)
  end.

(** [getattr(data, name)] on a snapshot. *)
Definition getattr (data : GinlongData) (name : string) : M value :=
  match data_lookup data name with
  | Some v => mret v
  | None => raise (AttributeError name)
  end.

(** [datetime.now()] and [dt_util.utcnow()]. *)
Definition tick (w : World) : World :=
  {| service := service w; subscribers := subscribers w;
     sub_env := sub_env w; ticks := S (ticks w) |}.

Definition datetime_now : M datetime := λ w, (Returns (local_clock (ticks w)), tick w, []).

Definition utcnow : M datetime := λ w, (Returns (utc_clock (ticks w)), tick w, []).

(** ** ServiceSubscriber (lines 47 to 66) *)

(** [_measured] is read and written by the base class only; [do_update]
    is the subclass's and works on the subscribers' own state. *)
Definition measured (sub : nat) : M (option datetime) :=
  λ w, (Returns (subscribers w !! sub), w, []).

Definition set_measured (sub : nat) (t : option datetime) : M unit := λ w,
  (Returns (),
   {| service := service w; subscribers := partial_alter (λ _, t) sub (subscribers w);
      sub_env := sub_env w; ticks := ticks w |}, []).

Definition call_do_update (sub : nat) (v : value) (last_updated : option datetime) : M bool :=
  λ w, match do_update sub v last_updated (sub_env w) with
       | (applied, env') =>
           (Returns applied,
            {| service := service w; subscribers := subscribers w;
               sub_env := env'; ticks := ticks w |},
            [DoUpdate sub v last_updated applied])
       end.

(** [data_updated] (lines 53 to 57). *)
Definition data_updated (sub : nat) (v : value) (last_updated : option datetime) : M unit :=
  emit (DataUpdated sub v last_updated);;
  m ← measured sub;
  if decide (m ≠ last_updated) then
    applied ← call_do_update sub v last_updated;
    if (applied : bool) then set_measured sub last_updated else mret ()
  else mret ().

(** ** InverterService (lines 68 to 212) *)

(** [__init__] (lines 71 to 83). *)
Definition __init__ (portal_config : PortalConfig GCfg SCfg) (hass : HomeAssistant)
    : InverterService :=
  let s := {| _last_updated := None; _logintime := None; _subscriptions := ∅;
              _hass := hass; _discovery_callback := None;
              _discovery_cookie := None; _api := None |} in
  match portal_config with
  | IsGinlongConfig c => with_api (GinlongAPI c) s
  | IsSoliscloudConfig c => with_api (SoliscloudAPI c) s
  | OtherConfig => s
  end.

(** Reading [self._api] raises [AttributeError] when the attribute was
    never assigned. *)
Definition api : M Api :=
  s ← self;
  match _api s with
  | Some a => mret a
  | None => raise (AttributeError "_api")
  end.

(** The calls of the API's methods; the client session handed to
    [login] is the host's and is not modelled. *)
Definition api_is_online : M bool := a ← api; mret (is_online a).

Definition api_login : M bool :=
  a ← api;
  update_self (with_api (login a).2);;
  emit (ApiLogin (login a).1);;
  mret (login a).1.

Definition api_logout : M unit :=
  a ← api;
  update_self (with_api (logout a));;
  emit ApiLogout.

Definition api_inverters : M (option (list string)) := a ← api; mret (inverters a).

Definition api_fetch_inverter_data (serial : string) : M (option GinlongData) :=
  a ← api;
  update_self (with_api (fetch_inverter_data serial a).2);;
  emit (ApiFetch serial (fetch_inverter_data serial a).1);;
  mret (fetch_inverter_data serial a).1.

(** [_login] (lines 85 to 89). *)
Definition _login : M bool :=
  online ← api_is_online;
  (if negb online then
     ok ← api_login;
     if (ok : bool) then
       now ← datetime_now;
       update_self (with_logintime (Some now))
     else mret ()
   else mret ());;
  api_is_online.

(** [_logout] (lines 91 to 93). *)
Definition _logout : M unit :=
  api_logout;;
  update_self (with_logintime None).

(** [_do_discover] (lines 106 to 118). *)
Definition _do_discover : M (gmap string (list string)) :=
  let capabilities : gmap string (list string) := ∅ in
  logged_in ← _login;
  if (logged_in : bool) then
    now ← datetime_now;
    update_self (with_logintime (Some now));;
    invs ← api_inverters;
    match invs with
    | None => mret capabilities
    | Some l =>
        for_fold l capabilities (λ capabilities inverter_serial,
          data ← api_fetch_inverter_data inverter_serial;
          match data with
          | Some d => mret (<[inverter_serial := keys d]> capabilities)
          | None => mret capabilities
          end)
    end
  else mret capabilities.

(** [schedule_discovery] (lines 196 to 202). *)
Definition schedule_discovery (callback : option nat)
    (cookie : option (list (string * value))) (seconds : Z) : M unit :=
  update_self (with_discovery callback cookie);;
  now ← utcnow;
  let nxt := now + timedelta 0 0 seconds in
  emit (TrackPointInUtcTime AsyncDiscover nxt).

(** [async_discover] (lines 95 to 104).  A dict is truthy when it is
    not empty, so are the capabilities and the cookie; the callback is a
    function object, truthy when there is one. *)
Definition async_discover : M unit :=
  capabilities ← _do_discover;
  s ← self;
  if decide (capabilities ≠ ∅) then
    match _discovery_callback s, _discovery_cookie s with
    | Some cb, Some (item :: cookie) =>
        emit (DiscoveryCallback cb capabilities (item :: cookie))
    | _, _ => mret ()
    end
  else
    schedule_discovery (_discovery_callback s) (_discovery_cookie s) RETRY_DELAY_SECONDS.

(** [subscribe] (lines 120 to 127). *)
Definition subscribe (subscriber : nat) (serial attribute : string) : M unit :=
  s ← self;
  (if decide (_subscriptions s !! serial = None)
   then update_self (with_subscriptions (<[serial := ∅]> (_subscriptions s)))
   else mret ());;
  s ← self;
  inner ← getitem (_subscriptions s) serial;
  update_self (with_subscriptions (<[serial := <[attribute := subscriber]> inner]>
                                     (_subscriptions s))).

(** The property [last_updated] (lines 209 to 212). *)
Definition last_updated : M (option datetime) := s ← self; mret (_last_updated s).

(** The correction of the energy-today value (lines 141 to 158);
    [None] stands for [continue]. *)
Definition correct_energy_today (data : GinlongData) (serial : string) (v : value)
    : M (option value) :=
  now ← datetime_now;
  let is_am := dt_hour now <? 12 in
  state ← getattr data INVERTER_STATE;
  if py_eq_int state 2 && is_am then mret (Some (VInt 0))
  else
    state ← getattr data INVERTER_STATE;
    if py_eq_int state 1 && is_am then
      last_updated_state ←
        try_except_KeyError
          (s ← self;
           subs ← getitem (_subscriptions s) serial;
           sub ← getitem subs INVERTER_STATE;
           measured sub)
          (mret None);
      match last_updated_state with
      | Some t =>
          if (dt_hour t =? 0) && (dt_minute t <? 15) then mret (Some (VInt 0))
          else
            now ← datetime_now;
            if now <? t + timedelta 0 5 0 then mret None else mret (Some v)
      | None => mret (Some v)
      end
    else mret (Some v).

(** One round of the loop over [data.keys()] (lines 135 to 159). *)
Definition update_attribute (data : GinlongData) (serial attribute : string) : M unit :=
  s ← self;
  subs ← getitem (_subscriptions s) serial;
  if decide (subs !! attribute = None) then mret ()
  else
    v ← getattr data attribute;
    corrected ← (if String.eqb attribute INVERTER_ENERGY_TODAY
                 then correct_energy_today data serial v
                 else mret (Some v));
    match corrected with
    | None => mret ()
    | Some v =>
        s ← self;
        subs ← getitem (_subscriptions s) serial;
        sub ← getitem subs attribute;
        t ← last_updated;
        data_updated sub v t
    end.

(** [update_devices] (lines 129 to 159).  A serial that is no string
    is the key of no entry of the registry. *)
Definition update_devices (data : GinlongData) : M unit :=
  serial ← getattr data INVERTER_SERIAL;
  s ← self;
  match serial with
  | VStr serial =>
      if decide (_subscriptions s !! serial = None) then mret ()
      else for_each (keys data) (update_attribute data serial)
  | _ => mret ()
  end.

(** [schedule_update] (lines 190 to 194). *)
Definition schedule_update (minute : Z) : M unit :=
  now ← utcnow;
  let nxt := now + timedelta 0 minute 0 in
  emit (TrackPointInUtcTime AsyncUpdate nxt).

(** One round of the loop over the inverters (lines 170 to 179). *)
Definition update_inverter (update : Z) (inverter_serial : string) : M Z :=
  data ← api_fetch_inverter_data inverter_serial;
  match data with
  | Some d =>
      now ← datetime_now;
      update_self (with_last_updated (Some now));;
      update_devices d;;
      mret SCHEDULE_OK
  | None =>
      _logout;;
      mret SCHEDULE_NOK
  end.

(** The check of the login age (lines 183 to 186). *)
Definition maybe_renew : M unit :=
  s ← self;
  match _logintime s with
  | Some t =>
      now ← datetime_now;
      if t + HRS_BETWEEN_LOGIN <? now then _logout else mret ()
  | None => mret ()
  end.

(** [async_update] (lines 161 to 188); [inl] is the early
    [return update] of line 168. *)
Definition async_update : M Z :=
  let update := SCHEDULE_NOK in
  logged_in ← _login;
  r ← (if (logged_in : bool) then
         invs ← api_inverters;
         match invs with
         | None => mret (inl update)
         | Some l => update ← for_fold l update update_inverter; mret (inr update)
         end
       else mret (inr update));
  match r with
  | inl update => mret update
  | inr update =>
      schedule_update update;;
      maybe_renew;;
      mret update
  end.

(** The property [status] (lines 204 to 207). *)
Definition status : M string :=
  online ← api_is_online;
  mret (if (online : bool) then ONLINE else OFFLINE).

(** ** Reading the result of a run *)

Definition result_of {A : Type} (r : outcome A * World * list event) : outcome A := r.1.1.

Definition world_of {A : Type} (r : outcome A * World * list event) : World := r.1.2.

Definition trace_of {A : Type} (r : outcome A * World * list event) : list event := r.2.

(** [prepend t r]: the run [r] after the calls [t]. *)
Definition prepend {A : Type} (t : list event) (r : outcome A * World * list event)
    : outcome A * World * list event :=
  (r.1.1, r.1.2, t ++ r.2).

(** ** The vocabulary of the properties *)

(** The timestamp last applied by the subscriber of the state attribute,
    if the attribute has a subscriber and it applied one. *)
Definition state_measured (subs : gmap string nat) (w : World) : option datetime :=
  match subs !! INVERTER_STATE with
  | Some sub => subscribers w !! sub
  | None => None
  end.

(** A relation between the world before, the world after and the calls
    made, which holds of no step at all and of two steps in a row when it
    holds of each, holds of a whole run, however the run ends. *)
Class Composable (P : World → World → list event → Prop) : Prop := {
  composable_refl : ∀ w, P w w [];
  composable_trans : ∀ w1 w2 w3 t1 t2, P w1 w2 t1 → P w2 w3 t2 → P w1 w3 (t1 ++ t2)
}.

Definition respects {A : Type} (P : World → World → list event → Prop) (m : M A) : Prop :=
  ∀ w, P w (world_of (m w)) (trace_of (m w)).

(** What [update_devices] may do: it leaves the service object alone,
    reads the clock, and calls subscribers with the service's
    [last_updated], nothing else. *)
Definition dispatch_step (w w' : World) (tr : list event) : Prop :=
  service w' = service w ∧ (ticks w ≤ ticks w')%nat ∧
  Forall (notify_with (_last_updated (service w))) tr.

(** A snapshot the dispatch can read: it names its device, and gives a
    state code when it gives an energy-today value. *)
Definition snapshot_wf (data : GinlongData) : Prop :=
  is_Some (data_lookup data INVERTER_SERIAL) ∧
  (INVERTER_ENERGY_TODAY ∈ keys data → is_Some (data_lookup data INVERTER_STATE)).

(** What fetching does to the session: the login timestamp stays, the
    API object stays assigned, and no login is attempted. *)
Definition fetch_step (w w' : World) (tr : list event) : Prop :=
  _logintime (service w') = _logintime (service w) ∧
  (is_Some (_api (service w)) → is_Some (_api (service w'))) ∧
  Forall (λ e, is_api_login e = false) tr.

(** The part of [_do_discover] after the session check and the
    overwriting of the login timestamp. *)
Definition discover_inverters : M (gmap string (list string)) :=
  invs ← api_inverters;
  match invs with
  | None => mret ∅
  | Some l =>
      for_fold l ∅ (λ capabilities inverter_serial,
        data ← api_fetch_inverter_data inverter_serial;
        match data with
        | Some d => mret (<[inverter_serial := keys d]> capabilities)
        | None => mret capabilities
        end)
  end.

Definition api_assigned (w : World) : Prop := is_Some (_api (service w)).

(** [total m]: once the API object is assigned, [m] returns (it does not
    raise) and leaves the API object assigned. *)
Definition total {A : Type} (m : M A) : Prop :=
  ∀ w, api_assigned w →
    (∃ a, result_of (m w) = Returns a) ∧ api_assigned (world_of (m w)).

(** What the session, the fetches and the dispatch do: the clock only
    advances, the discovery callback and cookie stay as registered, and
    neither the scheduler nor the discovery callback is called. *)
Definition session_step (w w' : World) (tr : list event) : Prop :=
  (ticks w ≤ ticks w')%nat ∧
  _discovery_callback (service w') = _discovery_callback (service w) ∧
  _discovery_cookie (service w') = _discovery_cookie (service w) ∧
  Forall unscheduled tr.

(** Every snapshot the API hands out can be read by the dispatch. *)
Definition well_formed_snapshots : Prop :=
  ∀ (serial : string) (a : Api) (d : GinlongData),
    (fetch_inverter_data serial a).1 = Some d → snapshot_wf d.

(** The world in which the snapshot of a device is dispatched: the API
    has answered, the clock has been read and [_last_updated] set. *)
Definition fetched (serial : string) (a : Api) (w : World) : World :=
  with_service (with_last_updated (Some (local_clock (ticks w))))
    (tick (with_service (with_api (fetch_inverter_data serial a).2) w)).

(** The part of [async_update] after the session check, and its end. *)
Definition finish_cycle (update : Z) : M Z :=
  schedule_update update;;
  maybe_renew;;
  mret update.

Definition after_login (logged_in : bool) : M Z :=
  r ← (if logged_in then
         invs ← api_inverters;
         match invs with
         | None => mret (inl SCHEDULE_NOK)
         | Some l =>
             update ← for_fold l SCHEDULE_NOK update_inverter;
             mret (inr update)
         end
       else mret (inr SCHEDULE_NOK));
  match r with
  | inl update => mret update
  | inr update => finish_cycle update
  end.

(** The inverters the cycle goes through: none when the session check
    fails; [None] is the early return. *)
Definition polled (logged_in : bool) (a : Api) : option (list string) :=
  if logged_in then inverters a else Some [].

Definition fetch_free (w w' : World) (tr : list event) : Prop :=
  Forall (λ e, is_api_fetch e = false) tr.

Definition inverters_listed (w : World) : Prop :=
  ∃ (a : Api) (l : list string), _api (service w) = Some a ∧ inverters a = Some l.

(** After a session check: a fetch without data is followed by a logout
    that leaves the login timestamp unset, and an unset login timestamp
    stays unset. *)
Definition logout_step (w w' : World) (tr : list event) : Prop :=
  (failed_fetch tr → ApiLogout ∈ tr ∧ _logintime (service w') = None) ∧
  (_logintime (service w) = None → _logintime (service w') = None).

(** An API that gives no data to a session that is logged out, and
    whose sessions are logged out by [logout]. *)
Definition silent_when_logged_out : Prop :=
  (∀ (serial : string) (a : Api),
     is_online a = false → (fetch_inverter_data serial a).1 = None) ∧
  (∀ a : Api, is_online (logout a) = false).

Definition logged_out (w : World) : Prop :=
  ∃ a : Api, _api (service w) = Some a ∧ is_online a = false.

(** With such an API: while logged out the service stays logged out
    and no fetch gives data, and a fetch without data leaves it logged
    out with that fetch's status as the last one. *)
Definition logged_out_step (w w' : World) (tr : list event) : Prop :=
  (logged_out w →
     logged_out w' ∧
     ∀ acc, status_of acc = SCHEDULE_NOK →
       status_of (last_fetch_from acc tr) = SCHEDULE_NOK) ∧
  (failed_fetch tr →
     logged_out w' ∧
     ∀ acc, status_of (last_fetch_from acc tr) = SCHEDULE_NOK).

Definition fetch_segmented (w w' : World) (tr : list event) : Prop :=
  ∀ cur tail,
    (∀ cur', one_timestamp_per_fetch cur' tail) →
    one_timestamp_per_fetch cur (tr ++ tail).

(** ** More vocabulary: the registry *)

(** The subscriber registered for an attribute of a device, if any. *)
Definition registered (w : World) (serial attribute : string) : option nat :=
  match _subscriptions (service w) !! serial with
  | Some subs => subs !! attribute
  | None => None
  end.

(** The registry after [subscribe]. *)
Definition subscribed (subscriber : nat) (serial attribute : string)
    (registry : gmap string (gmap string nat)) : gmap string (gmap string nat) :=
  <[serial := <[attribute := subscriber]> (default ∅ (registry !! serial))]> registry.


(** ** More vocabulary: the dispatch of a snapshot *)

(** What a subscriber of a device may be given from a snapshot: the
    snapshot's value of an attribute it is registered for, or 0 when
    that attribute is energy today. *)
Definition dispatched_to (data : GinlongData) (subs : gmap string nat)
    (sub : nat) (v : value) : Prop :=
  ∃ attribute raw,
    subs !! attribute = Some sub ∧ data_lookup data attribute = Some raw ∧
    (v = raw ∨ (attribute = INVERTER_ENERGY_TODAY ∧ v = VInt 0)).

Definition subscriber_call (data : GinlongData) (subs : gmap string nat)
    (e : event) : Prop :=
  match e with
  | DataUpdated sub v _ | DoUpdate sub v _ _ => dispatched_to data subs sub v
  | _ => False
  end.

(** While the device's entry of the registry is [subs]: the service
    object stays as it is, only subscribers of the device are called,
    with values of the snapshot, and the timestamps of all other
    subscribers stay. *)
Definition device_step (data : GinlongData) (serial : string) (subs : gmap string nat)
    (w w' : World) (tr : list event) : Prop :=
  _subscriptions (service w) !! serial = Some subs →
  service w' = service w ∧
  Forall (subscriber_call data subs) tr ∧
  ∀ sub', (∀ attribute, subs !! attribute ≠ Some sub') →
    subscribers w' !! sub' = subscribers w !! sub'.

(** ** More vocabulary: the session *)

(** What the rounds over the inverters do to the session: the API is
    logged out only after a fetch without data, and unless a fetch gives
    no data the login timestamp stays. *)
Definition poll_step (w w' : World) (tr : list event) : Prop :=
  (ApiLogout ∈ tr → failed_fetch tr) ∧
  (failed_fetch tr ∨ _logintime (service w') = _logintime (service w)).


(** ** More vocabulary: discovery and the cycle *)

(** One round of the loop of [_do_discover] (lines 115 to 117). *)
Definition discover_inverter (capabilities : gmap string (list string))
    (inverter_serial : string) : M (gmap string (list string)) :=
  data ← api_fetch_inverter_data inverter_serial;
  match data with
  | Some d => mret (<[inverter_serial := keys d]> capabilities)
  | None => mret capabilities
  end.

(** The calls a discovery may make: logins, fetches, the scheduling of
    a further discovery and the discovery callback. *)
Definition discovery_event (e : event) : Prop :=
  match e with
  | ApiLogin _ | ApiFetch _ _ | TrackPointInUtcTime AsyncDiscover _
  | DiscoveryCallback _ _ _ => True
  | _ => False
  end.

(** What a discovery leaves alone: [last_updated], the registry and the
    subscribers. *)
Definition discovery_step (w w' : World) (tr : list event) : Prop :=
  _last_updated (service w') = _last_updated (service w) ∧
  _subscriptions (service w') = _subscriptions (service w) ∧
  subscribers w' = subscribers w ∧
  sub_env w' = sub_env w ∧
  Forall discovery_event tr.

(** The calls a cycle may make: everything but the scheduling of a
    discovery and the discovery callback. *)
Definition cycle_event (e : event) : Prop :=
  match e with
  | TrackPointInUtcTime AsyncDiscover _ | DiscoveryCallback _ _ _ => False
  | _ => True
  end.

(** What a cycle leaves alone: the registry, the host object and what
    was registered for discovery. *)
Definition cycle_step (w w' : World) (tr : list event) : Prop :=
  _subscriptions (service w') = _subscriptions (service w) ∧
  _hass (service w') = _hass (service w) ∧
  _discovery_callback (service w') = _discovery_callback (service w) ∧
  _discovery_cookie (service w') = _discovery_cookie (service w) ∧
  Forall cycle_event tr.


(** A fetch of the trace gave data. *)
Definition fetched_data (tr : list event) : Prop :=
  ∃ serial d, ApiFetch serial (Some d) ∈ tr.

(** How [last_updated] moves: the clock only advances; after a fetch
    that gave data [last_updated] is a clock reading taken since, and
    unless a fetch gives data it stays. *)
Definition updated_step (w w' : World) (tr : list event) : Prop :=
  (ticks w ≤ ticks w')%nat ∧
  (fetched_data tr →
     ∃ k, (ticks w ≤ k < ticks w')%nat ∧
          _last_updated (service w') = Some (local_clock k)) ∧
  (fetched_data tr ∨ _last_updated (service w') = _last_updated (service w)).


(** The devices fetched in a trace, in the order of the fetches. *)
Fixpoint fetched_serials (tr : list event) : list string :=
  match tr with
  | [] => []
  | ApiFetch serial _ :: rest => serial :: fetched_serials rest
  | _ :: rest => fetched_serials rest
  end.


(** The subscriber an event calls, if it calls one, is registered in
    [w] for some attribute of some device. *)
Definition calls_registered (w : World) (e : event) : Prop :=
  match e with
  | DataUpdated sub _ _ | DoUpdate sub _ _ _ =>
      ∃ serial attribute, registered w serial attribute = Some sub
  | _ => True
  end.

(** The registry stays and only registered subscribers are called. *)
Definition registered_step (w w' : World) (tr : list event) : Prop :=
  _subscriptions (service w') = _subscriptions (service w) ∧
  Forall (calls_registered w) tr.


(** ** More vocabulary: the clock readings of the notifications *)

(** The [data_updated] calls between one fetch and the next carry one
    clock reading, and the reading of a later fetch is a later reading:
    [cur] is the number of the reading seen since the last fetch, and
    every reading still to come has number [bound] at least. *)
Fixpoint stamped (bound : nat) (cur : option nat) (tr : list event) : Prop :=
  match tr with
  | [] => True
  | ApiFetch _ _ :: rest => stamped bound None rest
  | DataUpdated _ _ t :: rest =>
      match cur with
      | Some k => t = Some (local_clock k) ∧ stamped bound cur rest
      | None =>
          ∃ k, (bound ≤ k)%nat ∧ t = Some (local_clock k) ∧ stamped (S k) (Some k) rest
      end
  | _ :: rest => stamped bound cur rest
  end.

Definition stamped_step (w w' : World) (tr : list event) : Prop :=
  (ticks w ≤ ticks w')%nat ∧
  ∀ bound cur tail,
    (bound ≤ ticks w)%nat →
    (∀ bound' cur', (bound' ≤ ticks w')%nat → stamped bound' cur' tail) →
    stamped bound cur (tr ++ tail).

(** A fetch of the trace, whatever it gave. *)
Definition fetch_between (tr : list event) : Prop :=
  ∃ serial d, ApiFetch serial d ∈ tr.

End Service.

(** * A portal account, sensors and a clock to run the service on *)

#[export] Instance value_eq_dec : EqDecision value.
Proof. solve_decision. Defined.

Definition example_const : GinlongConst :=
  {| INVERTER_ENERGY_TODAY := "energy_today";
     INVERTER_SERIAL := "serial";
     INVERTER_STATE := "state" |}.

(** A portal account: whether its session is open, whether it accepts
    a login, the inverters it lists and the latest reading of some of
    them (state code and energy today). *)
Record account : Type := {
  session_open : bool;
  accepts_login : bool;
  listed : option (list string);
  readings : list (string * (Z * value))
}.

Fixpoint reading_of (serial : string) (rs : list (string * (Z * value)))
    : option (Z * value) :=
  match rs with
  | [] => None
  | (s, r) :: rest => if String.eqb s serial then Some r else reading_of serial rest
  end.

Definition snapshot_of (serial : string) (r : Z * value) : GinlongData :=
  [("serial"%string, VStr serial); ("state"%string, VInt r.1);
   ("energy_today"%string, r.2)].

Definition with_session (open : bool) (a : account) : account :=
  {| session_open := open; accepts_login := accepts_login a;
     listed := listed a; readings := readings a |}.

Definition account_api : BaseAPI account :=
  {| is_online := session_open;
     login a := (accepts_login a, with_session (accepts_login a) a);
     logout a := with_session false a;
     inverters := listed;
     fetch_inverter_data serial a :=
       (snapshot_of serial <$> reading_of serial (readings a), a) |}.

(** The same account behind a portal that gives no data to a closed
    session. *)
Definition strict_account_api : BaseAPI account :=
  {| is_online := session_open;
     login a := (accepts_login a, with_session (accepts_login a) a);
     logout a := with_session false a;
     inverters := listed;
     fetch_inverter_data serial a :=
       (if session_open a
        then snapshot_of serial <$> reading_of serial (readings a)
        else None, a) |}.

Definition closed_account : account :=
  {| session_open := false; accepts_login := false; listed := None; readings := [] |}.

Definition account_classes : ApiClasses unit unit account :=
  {| GinlongAPI _ := closed_account; SoliscloudAPI _ := closed_account |}.

(** Sensors that show one value each and apply a new value only when it
    differs from the one they show. *)
Definition sensor_update : ServiceSubscriber (gmap nat value) :=
  λ sub v _ shown,
    if decide (shown !! sub = Some v) then (false, shown)
    else (true, <[sub := v]> shown).

(** A clock read at 09:00 local time, 08:00 UTC, that advances by 7
    seconds from one reading to the next. *)
Definition morning_clock : HostClock :=
  {| local_clock n := timedelta (738000 * 24 + 9) 0 (7 * Z.of_nat n);
     utc_clock n := timedelta (738000 * 24 + 8) 0 (7 * Z.of_nat n) |}.

Definition example_service (a : option account)
    (subs : gmap string (gmap string nat)) (logintime : option datetime)
    (cb : option nat) (cookie : option (list (string * value)))
    : @InverterService account unit :=
  {| _last_updated := None; _logintime := logintime; _subscriptions := subs;
     _hass := (); _discovery_callback := cb; _discovery_cookie := cookie;
     _api := a |}.

Definition example_world (s : @InverterService account unit)
    (measured_at : gmap nat datetime) (shown : gmap nat value) (n : nat)
    : @World account (gmap nat value) unit :=
  {| service := s; subscribers := measured_at; sub_env := shown; ticks := n |}.

(** Inverter A with sensor 1 on its energy today and sensor 2 on its
    state; inverter B with sensor 3 on its energy today. *)
Definition sensors_of_A : gmap string nat :=
  {[ "energy_today"%string := 1%nat; "state"%string := 2%nat ]}.

Definition example_subscriptions : gmap string (gmap string nat) :=
  {[ "A"%string := sensors_of_A;
     "B"%string := {[ "energy_today"%string := 3%nat ]} ]}.

(** 08:58 local time on the day of the clock. *)
Definition two_minutes_before : datetime := timedelta (738000 * 24 + 8) 58 0.

(** A world in which nothing needs the API: sensor 2 applied the state
    two minutes before the clock's first reading. *)
Definition dispatch_world : @World account (gmap nat value) unit :=
  example_world (example_service None example_subscriptions None None None)
    {[ 2%nat := two_minutes_before ]} ∅ 0.

Definition starting_snapshot : GinlongData := snapshot_of "A" (1, VInt 12).
Definition standby_snapshot : GinlongData := snapshot_of "A" (2, VInt 12).
Definition running_snapshot : GinlongData := snapshot_of "A" (3, VInt 12).

(** An account with an open session. *)
Definition open_account (l : option (list string)) (rs : list (string * (Z * value)))
    : account :=
  {| session_open := true; accepts_login := true; listed := l; readings := rs |}.

Definition cycle_world (a : account) : @World account (gmap nat value) unit :=
  example_world (example_service (Some a) example_subscriptions None None None) ∅ ∅ 0.

(** A world with a discovery callback registered. *)
Definition discovery_world (a : account) (cookie : list (string * value))
    : @World account (gmap nat value) unit :=
  example_world (example_service (Some a) ∅ None (Some 7%nat) (Some cookie)) ∅ ∅ 0.

(** Accounts: one that lists A and B and has a reading of each, one
    that has no reading of A, one that lists nothing, one that lists no
    inverter at all, and one that is closed and refuses the login. *)
Definition two_inverters : account :=
  open_account (Some ["A"; "B"]%string)
    [("A"%string, (3, VInt 5)); ("B"%string, (3, VInt 6))].

Definition a_without_reading : account :=
  open_account (Some ["A"; "B"]%string) [("B"%string, (3, VInt 6))].

Definition unlisted : account :=
  open_account None [("B"%string, (3, VInt 6))].

Definition no_inverters : account := open_account (Some []) [].

Definition refusing_account : account :=
  {| session_open := false; accepts_login := false;
     listed := Some ["A"%string]; readings := [("A"%string, (3, VInt 5))] |}.

(** The world of a service built from a configuration of neither kind. *)
Definition unconfigured_world : @World account (gmap nat value) unit :=
  example_world (__init__ (api_classes := account_classes) OtherConfig ()) ∅ ∅ 0.

(** A world whose session was opened at 08:58, five clock readings ago. *)
Definition logged_in_world : @World account (gmap nat value) unit :=
  example_world
    (example_service (Some two_inverters) ∅ (Some two_minutes_before) None None) ∅ ∅ 5.

(** An account with a closed session that accepts a login. *)
Definition closed_accepting : account :=
  {| session_open := false; accepts_login := true;
     listed := Some ["A"%string]; readings := [("A"%string, (3, VInt 5))] |}.

(** 06:00 local time on the day of the clock, and a world whose session
    was opened then. *)
Definition six_o_clock : datetime := timedelta (738000 * 24 + 6) 0 0.

Definition stale_session_world : @World account (gmap nat value) unit :=
  example_world
    (example_service (Some two_inverters) example_subscriptions (Some six_o_clock)
       None None) ∅ ∅ 0.

(** Snapshots: one of a device nobody subscribed to, one of A without
    energy today, and one that does not name its device. *)
Definition snapshot_of_C : GinlongData := snapshot_of "C" (3, VInt 7).

Definition state_only_snapshot : GinlongData :=
  [("serial"%string, VStr "A"); ("state"%string, VInt 3)].

Definition nameless_snapshot : GinlongData := [("state"%string, VInt 3)].

(** The world of a service just built from a Ginlong configuration. *)
Definition fresh_world : @World account (gmap nat value) unit :=
  example_world (__init__ (api_classes := account_classes) (IsGinlongConfig ()) ())
    ∅ ∅ 0.


(** * Properties *)

Section Properties.

Context {Api : Type} {portal : BaseAPI Api}.
Context {Env : Type} {sensors : ServiceSubscriber Env}.
Context {GCfg SCfg HomeAssistant : Type} {api_classes : ApiClasses GCfg SCfg Api}.
Context {const : GinlongConst} {clock : HostClock}.

Local Abbreviation World := (@World Api Env HomeAssistant).
Local Abbreviation InverterService := (@InverterService Api HomeAssistant).
Local Abbreviation M := (@M Api Env HomeAssistant).
Local Abbreviation respects := (@respects Api Env HomeAssistant).
Local Abbreviation total := (@total Api Env HomeAssistant).

Ltac run_m :=
  cbv [mbind M_bind mret M_ret emit raise self update_self measured
       set_measured call_do_update last_updated getitem getattr
       result_of world_of trace_of]; simpl.

(** ** Running a bind *)

Lemma prepend_nil {A : Type} (r : outcome A * World * list event) : prepend [] r = r.
Proof. by destruct r as [[? ?] ?]. Qed.

Lemma bind_returns {A B : Type} (m : M A) (f : A → M B) (w w1 : World) (a : A)
    (t1 : list event) :
  m w = (Returns a, w1, t1) → (m ≫= f) w = prepend t1 (f a w1).
Proof.
  intros Hm. unfold mbind, M_bind, prepend. rewrite Hm.
  by destruct (f a w1) as [[? ?] ?].
Qed.

Lemma bind_silent {A B : Type} (m : M A) (f : A → M B) (w w1 : World) (a : A) :
  m w = (Returns a, w1, []) → (m ≫= f) w = f a w1.
Proof. intros Hm. rewrite (bind_returns _ _ _ _ _ _ Hm). apply prepend_nil. Qed.

Lemma bind_raises {A B : Type} (m : M A) (f : A → M B) (w w1 : World) (e : exn)
    (t1 : list event) :
  m w = (Raises e, w1, t1) → (m ≫= f) w = (Raises e, w1, t1).
Proof. intros Hm. unfold mbind, M_bind. by rewrite Hm. Qed.

Lemma bind_assoc {A B C : Type} (m : M A) (f : A → M B) (g : B → M C) (w : World) :
  ((m ≫= f) ≫= g) w = (m ≫= λ a, f a ≫= g) w.
Proof.
  unfold mbind, M_bind. destruct (m w) as [[[a|e] w1] t1]; [|done].
  destruct (f a w1) as [[[b|e] w2] t2]; [|done].
  destruct (g b w2) as [[r w3] t3]. by rewrite app_assoc.
Qed.

Lemma bind_ext {A B : Type} (m : M A) (f g : A → M B) (w : World) :
  (∀ a w1, f a w1 = g a w1) → (m ≫= f) w = (m ≫= g) w.
Proof.
  intros Hfg. unfold mbind, M_bind. destruct (m w) as [[[a|e] w1] t1]; [|done].
  by rewrite Hfg.
Qed.

Lemma getitem_Some {V : Type} (d : gmap string V) (k : string) (v : V) (w : World) :
  d !! k = Some v → getitem d k w = (Returns v, w, []).
Proof. intros Hk. unfold getitem. by rewrite Hk. Qed.

Lemma getitem_None {V : Type} (d : gmap string V) (k : string) (w : World) :
  d !! k = None → getitem d k w = (Raises (KeyError k), w, []).
Proof. intros Hk. unfold getitem. by rewrite Hk. Qed.

Lemma getattr_Some (data : GinlongData) (name : string) (v : value) (w : World) :
  data_lookup data name = Some v → getattr data name w = (Returns v, w, []).
Proof. intros Hk. unfold getattr. by rewrite Hk. Qed.

Lemma getattr_None (data : GinlongData) (name : string) (w : World) :
  data_lookup data name = None →
  getattr data name w = (Raises (AttributeError name), w, []).
Proof. intros Hk. unfold getattr. by rewrite Hk. Qed.

Ltac silent :=
  erewrite bind_silent by
    first [ reflexivity
          | apply getitem_Some; eassumption
          | apply getattr_Some; eassumption ].

Lemma try_except_KeyError_returns {A : Type} (m handler : M A) (w w1 : World) (a : A)
    (t1 : list event) :
  m w = (Returns a, w1, t1) → try_except_KeyError m handler w = (Returns a, w1, t1).
Proof. intros Hm. unfold try_except_KeyError. by rewrite Hm. Qed.

Lemma try_except_KeyError_caught {A : Type} (m handler : M A) (w w1 : World)
    (k : string) (t1 : list event) :
  m w = (Raises (KeyError k), w1, t1) →
  try_except_KeyError m handler w = prepend t1 (handler w1).
Proof.
  intros Hm. unfold try_except_KeyError, prepend. rewrite Hm.
  by destruct (handler w1) as [[? ?] ?].
Qed.

(** ** Relations every step of a computation keeps *)

Section Respects.

Context (P : World → World → list event → Prop) `{!Composable P}.

Lemma respects_ret {A : Type} (a : A) : respects P (mret a).
Proof. intros w. apply composable_refl. Qed.

Lemma respects_raise {A : Type} (e : exn) : respects P (raise (A := A) e).
Proof. intros w. apply composable_refl. Qed.

Lemma respects_self : respects P self.
Proof. intros w. apply composable_refl. Qed.

Lemma respects_measured (sub : nat) : respects P (measured sub).
Proof. intros w. apply composable_refl. Qed.

Lemma respects_getitem {V : Type} (d : gmap string V) (k : string) :
  respects P (getitem d k).
Proof. intros w. unfold getitem. destruct (d !! k); apply composable_refl. Qed.

Lemma respects_getattr (data : GinlongData) (name : string) :
  respects P (getattr data name).
Proof.
  intros w. unfold getattr. destruct (data_lookup data name); apply composable_refl.
Qed.

Lemma respects_bind {A B : Type} (m : M A) (f : A → M B) :
  respects P m → (∀ a, respects P (f a)) → respects P (m ≫= f).
Proof.
  intros Hm Hf w. specialize (Hm w). unfold world_of, trace_of in *.
  destruct (m w) as [[[a|e] w1] t1] eqn:Hrun.
  - rewrite (bind_returns _ _ _ _ _ _ Hrun). simpl.
    eapply composable_trans; [exact Hm|apply Hf].
  - by rewrite (bind_raises _ _ _ _ _ _ Hrun).
Qed.

Lemma respects_try {A : Type} (m handler : M A) :
  respects P m → respects P handler → respects P (try_except_KeyError m handler).
Proof.
  intros Hm Hh w. specialize (Hm w). unfold world_of, trace_of in *.
  destruct (m w) as [[[a|[name|k]] w1] t1] eqn:Hrun.
  - by rewrite (try_except_KeyError_returns _ _ _ _ _ _ Hrun).
  - unfold try_except_KeyError. by rewrite Hrun.
  - rewrite (try_except_KeyError_caught _ _ _ _ _ _ Hrun). simpl.
    eapply composable_trans; [exact Hm|apply Hh].
Qed.

Lemma respects_for_each {A : Type} (l : list A) (body : A → M unit) :
  (∀ x, respects P (body x)) → respects P (for_each l body).
Proof.
  intros Hbody. induction l as [|x l IH]; simpl.
  - apply respects_ret.
  - apply respects_bind; [apply Hbody|intros _; exact IH].
Qed.

Lemma respects_for_fold {A B : Type} (l : list A) (acc : B) (body : B → A → M B) :
  (∀ acc x, respects P (body acc x)) → respects P (for_fold l acc body).
Proof.
  intros Hbody. revert acc. induction l as [|x l IH]; intros acc; simpl.
  - apply respects_ret.
  - apply respects_bind; [apply Hbody|intros acc'; apply IH].
Qed.

End Respects.

Ltac respects_with leaf :=
  repeat first
    [ leaf
    | apply respects_ret; exact _
    | apply respects_raise; exact _
    | apply respects_self; exact _
    | apply respects_measured; exact _
    | apply respects_getitem; exact _
    | apply respects_getattr; exact _
    | apply respects_bind; [exact _| |intros ?]
    | apply respects_try; [exact _| |]
    | apply respects_for_each; [exact _|intros ?]
    | apply respects_for_fold; [exact _|intros ? ?]
    | match goal with
      | |- respects _ (if ?b then _ else _) => destruct b
      | |- respects _ (match ?o with _ => _ end) => destruct o
      end ].

(** ** The subscriber contract *)

Lemma data_updated_same (sub : nat) (v : value) (t : option datetime) (w : World) :
  subscribers w !! sub = t →
  data_updated sub v t w = (Returns (), w, [DataUpdated sub v t]).
Proof.
  intros Hm. unfold data_updated. run_m.
  destruct (decide (subscribers w !! sub ≠ t)) as [Hne|_]; [contradiction|done].
Qed.

Lemma data_updated_differs (sub : nat) (v : value) (t : option datetime) (w : World) :
  subscribers w !! sub ≠ t →
  data_updated sub v t w =
    (Returns (),
     {| service := service w;
        subscribers := if (do_update sub v t (sub_env w)).1
                       then partial_alter (λ _, t) sub (subscribers w)
                       else subscribers w;
        sub_env := (do_update sub v t (sub_env w)).2;
        ticks := ticks w |},
     [DataUpdated sub v t; DoUpdate sub v t (do_update sub v t (sub_env w)).1]).
Proof.
  intros Hm. unfold data_updated. run_m.
  destruct (decide (subscribers w !! sub ≠ t)) as [_|Heq]; [|contradiction].
  destruct (do_update sub v t (sub_env w)) as [[|] env']; reflexivity.
Qed.

(** C5 (as amended): when the supplied timestamp equals the stored
    one (both unset included), [data_updated] returns without calling
    [do_update] and changes nothing; and two calls in a row with the same
    timestamp invoke [do_update] at most once whenever the first call
    found the timestamp stored already or its [do_update] reported that
    it applied the value. *)
Theorem data_updated_twice_same_timestamp
    (sub : nat) (v v2 : value) (t : option datetime) (w : World) :
  let r1 := data_updated sub v t w in
  let r2 := data_updated sub v2 t (world_of r1) in
  (subscribers w !! sub = t →
     r1 = (Returns (), w, [DataUpdated sub v t]) ∧
     count_events is_do_update (trace_of r1) = 0%nat) ∧
  (subscribers w !! sub = t ∨ (do_update sub v t (sub_env w)).1 = true →
     (count_events is_do_update (trace_of r1 ++ trace_of r2) ≤ 1)%nat).
Proof.
  intros r1 r2. subst r1 r2. split.
  - intros Hm. rewrite (data_updated_same _ _ _ _ Hm). done.
  - intros Hcase.
    destruct (decide (subscribers w !! sub = t)) as [Hm|Hm].
    + rewrite (data_updated_same _ _ _ _ Hm). unfold world_of; simpl.
      rewrite (data_updated_same _ _ _ _ Hm). unfold count_events, trace_of. simpl. lia.
    + destruct Hcase as [Hm'|Happ]; [contradiction|].
      rewrite (data_updated_differs _ _ _ _ Hm), Happ. unfold world_of; simpl.
      rewrite data_updated_same; [unfold count_events, trace_of; simpl; lia|].
      simpl. by rewrite lookup_partial_alter_eq.
Qed.

(** C6: when [do_update] is invoked and returns false, the stored
    timestamp is left as it was and a further [data_updated] with the
    same timestamp invokes [do_update] again; when it returns true, the
    stored timestamp becomes the supplied one. *)
Theorem data_updated_commit
    (sub : nat) (v v2 : value) (t : option datetime) (w : World) :
  subscribers w !! sub ≠ t →
  let r1 := data_updated sub v t w in
  trace_of r1 = [DataUpdated sub v t; DoUpdate sub v t (do_update sub v t (sub_env w)).1] ∧
  if (do_update sub v t (sub_env w)).1
  then subscribers (world_of r1) !! sub = t
  else subscribers (world_of r1) !! sub = subscribers w !! sub ∧
       count_events is_do_update (trace_of (data_updated sub v2 t (world_of r1))) = 1%nat.
Proof.
  intros Hm r1. subst r1. rewrite (data_updated_differs _ _ _ _ Hm).
  unfold world_of, trace_of; simpl. split; [done|].
  destruct (do_update sub v t (sub_env w)) as [[|] env'] eqn:Hdo; simpl.
  - by rewrite lookup_partial_alter_eq.
  - split; [done|]. rewrite data_updated_differs; [|done]. done.
Qed.

(** ** The energy-today correction *)

Lemma notified_data_updated (sub : nat) (v : value) (t : option datetime) (w : World) :
  result_of (data_updated sub v t w) = Returns () ∧
  notified (trace_of (data_updated sub v t w)) = [(sub, v, t)].
Proof.
  destruct (decide (subscribers w !! sub = t)) as [Hm|Hm].
  - by rewrite (data_updated_same _ _ _ _ Hm).
  - by rewrite (data_updated_differs _ _ _ _ Hm).
Qed.

Lemma read_state_measured (serial : string) (subs : gmap string nat) (w : World) :
  _subscriptions (service w) !! serial = Some subs →
  try_except_KeyError
    (s ← self;
     subs ← getitem (_subscriptions s) serial;
     sub ← getitem subs INVERTER_STATE;
     measured sub)
    (mret None) w = (Returns (state_measured subs w), w, []).
Proof.
  intros Hs. unfold state_measured.
  destruct (subs !! INVERTER_STATE) as [sub|] eqn:Hsub.
  - apply try_except_KeyError_returns. by repeat silent.
  - erewrite try_except_KeyError_caught; [by rewrite prepend_nil|].
    repeat silent. apply bind_raises. by apply getitem_None.
Qed.

(** The correction as a function of what it reads: the state code, the
    first clock reading, the state subscriber's timestamp and, on the
    grace-period path only, a second clock reading. *)
Lemma correct_energy_today_run (data : GinlongData) (serial : string)
    (subs : gmap string nat) (raw state : value) (w : World) :
  _subscriptions (service w) !! serial = Some subs →
  data_lookup data INVERTER_STATE = Some state →
  correct_energy_today data serial raw w =
    let is_am := dt_hour (local_clock (ticks w)) <? 12 in
    if py_eq_int state 2 && is_am then (Returns (Some (VInt 0)), tick w, [])
    else if py_eq_int state 1 && is_am then
      match state_measured subs w with
      | Some t =>
          if (dt_hour t =? 0) && (dt_minute t <? 15)
          then (Returns (Some (VInt 0)), tick w, [])
          else if local_clock (S (ticks w)) <? t + timedelta 0 5 0
               then (Returns None, tick (tick w), [])
               else (Returns (Some raw), tick (tick w), [])
      | None => (Returns (Some raw), tick w, [])
      end
    else (Returns (Some raw), tick w, []).
Proof.
  intros Hs Hst. unfold correct_energy_today. repeat silent. simpl.
  destruct (py_eq_int state 2 && _); [done|].
  repeat silent.
  destruct (py_eq_int state 1 && _); [|done].
  erewrite bind_silent by (apply (read_state_measured serial subs); exact Hs).
  unfold state_measured.
  destruct (match subs !! INVERTER_STATE with Some _ => _ | None => _ end) as [t|];
    [|done].
  destruct ((dt_hour t =? 0) && _); [done|].
  repeat silent. simpl.
  by destruct (local_clock (S (ticks w)) <? _).
Qed.

(** What one round of the loop does for a subscribed energy-today
    attribute: the correction, then the call of the subscriber unless the
    correction says to skip. *)
Lemma update_attribute_energy_today (data : GinlongData) (serial : string)
    (subs : gmap string nat) (sub : nat) (raw : value) (w : World) :
  _subscriptions (service w) !! serial = Some subs →
  subs !! INVERTER_ENERGY_TODAY = Some sub →
  data_lookup data INVERTER_ENERGY_TODAY = Some raw →
  ∀ (c : option value) (w1 : World),
    correct_energy_today data serial raw w = (Returns c, w1, []) →
    service w1 = service w →
    update_attribute data serial INVERTER_ENERGY_TODAY w =
      match c with
      | Some v => data_updated sub v (_last_updated (service w)) w1
      | None => (Returns (), w1, [])
      end.
Proof.
  intros Hs Hsub Hraw c w1 Hc Hw1. unfold update_attribute. repeat silent.
  destruct (decide (subs !! INVERTER_ENERGY_TODAY = None)) as [Hn|_]; [congruence|].
  repeat silent. rewrite String.eqb_refl.
  erewrite bind_silent by exact Hc.
  destruct c as [v|]; [|done].
  rewrite <- Hw1 in Hs |- *. by repeat silent.
Qed.

Lemma py_eq_int_1_not_2 (v : value) : py_eq_int v 1 = true → py_eq_int v 2 = false.
Proof.
  destruct v as [|[|]|n|bits|s]; simpl; try done.
  - intros Heq%Z.eqb_eq. subst. done.
  - intros Heq%Z.eqb_eq. subst. done.
Qed.

(** For a snapshot of a device with subscribers, [update_devices] is
    the rounds of its loop, one for each attribute of the snapshot. *)
Lemma update_devices_rounds (data : GinlongData) (serial : string)
    (subs : gmap string nat) (w : World) :
  data_lookup data INVERTER_SERIAL = Some (VStr serial) →
  _subscriptions (service w) !! serial = Some subs →
  update_devices data w = for_each (keys data) (update_attribute data serial) w.
Proof.
  intros Hserial Hs. unfold update_devices. repeat silent.
  by destruct (decide (_subscriptions (service w) !! serial = None)) as [Hn|_];
    [congruence|].
Qed.

(** The round of the loop for the energy-today attribute [r], when the
    attribute has a subscriber [sub] and the snapshot gives a state
    code; [t] is the service's [last_updated] and [now] the clock
    reading the round begins with. *)
Section EnergyToday.

Variables (data : GinlongData) (serial : string) (subs : gmap string nat).

Variables (sub : nat) (raw state : value) (w : World).

Hypothesis serial_subscribed : _subscriptions (service w) !! serial = Some subs.

Hypothesis energy_today_subscribed : subs !! INVERTER_ENERGY_TODAY = Some sub.

Hypothesis energy_today_raw : data_lookup data INVERTER_ENERGY_TODAY = Some raw.

Hypothesis state_code : data_lookup data INVERTER_STATE = Some state.

Let r := update_attribute data serial INVERTER_ENERGY_TODAY w.

Let t := _last_updated (service w).

Let now := local_clock (ticks w).

Lemma energy_today_cases :
  r = match (correct_energy_today data serial raw w).1.1 with
      | Returns (Some v) =>
          data_updated sub v t (world_of (correct_energy_today data serial raw w))
      | _ => (Returns (), world_of (correct_energy_today data serial raw w), [])
      end.
Proof.
  subst r t. pose proof (correct_energy_today_run data serial subs raw state w
    serial_subscribed state_code) as Hrun. simpl in Hrun.
  assert (∃ c w1, correct_energy_today data serial raw w = (Returns c, w1, []) ∧
                  service w1 = service w) as (c & w1 & Hc & Hw1).
  { rewrite Hrun.
    repeat match goal with
           | |- context [if ?b then _ else _] => destruct b
           | |- context [match ?o with Some _ => _ | None => _ end] => destruct o
           end; eauto. }
  rewrite (update_attribute_energy_today data serial subs sub raw w
             serial_subscribed energy_today_subscribed energy_today_raw c w1 Hc Hw1).
  rewrite Hc. unfold world_of. simpl. by destruct c.
Qed.

(** C2: before local noon with state code 2 the subscriber is called
    with the value 0; with a state code that is neither 1 nor 2, or at
    or after local noon, it is called with the raw value, whatever that
    value is. *)
Theorem energy_today_standby_or_passthrough :
  result_of r = Returns () ∧
  (py_eq_int state 2 = true → dt_hour now < 12 →
     notified (trace_of r) = [(sub, VInt 0, t)]) ∧
  ((py_eq_int state 1 = false ∧ py_eq_int state 2 = false) ∨ 12 ≤ dt_hour now →
     notified (trace_of r) = [(sub, raw, t)]).
Proof.
  rewrite energy_today_cases.
  rewrite (correct_energy_today_run data serial subs raw state w
             serial_subscribed state_code). simpl. fold now.
  destruct (Z.ltb_spec (dt_hour now) 12) as [Ham|Hpm];
    destruct (py_eq_int state 2) eqn:H2; destruct (py_eq_int state 1) eqn:H1;
    try (apply py_eq_int_1_not_2 in H1; congruence); simpl;
    repeat match goal with
           | |- context [match ?o with Some _ => _ | None => _ end] => destruct o eqn:?
           | |- context [if ?b then _ else _] => destruct b eqn:?
           end; simpl;
    (split; [try apply notified_data_updated; done|]);
    (split; [intros; first [lia | congruence | apply notified_data_updated]|]);
    (intros [[? ?]|?]; first [lia | congruence | apply notified_data_updated]).
Qed.

(** C1: before local noon with state code 1.  When the subscriber of
    the state attribute has a last-applied timestamp: if its hour is 0
    and its minute is below 15 the subscriber is called with 0; otherwise,
    if the timestamp plus 5 minutes is later than the clock reading taken
    then, nothing at all is called in this round; otherwise the subscriber
    is called with the raw value.  Without such a timestamp the
    subscriber is called with the raw value. *)
Theorem energy_today_starting_up :
  py_eq_int state 1 = true →
  dt_hour now < 12 →
  result_of r = Returns () ∧
  match state_measured subs w with
  | Some lus =>
      (dt_hour lus = 0 ∧ dt_minute lus < 15 →
         notified (trace_of r) = [(sub, VInt 0, t)]) ∧
      (¬ (dt_hour lus = 0 ∧ dt_minute lus < 15) →
         local_clock (S (ticks w)) < lus + timedelta 0 5 0 →
         trace_of r = []) ∧
      (¬ (dt_hour lus = 0 ∧ dt_minute lus < 15) →
         lus + timedelta 0 5 0 ≤ local_clock (S (ticks w)) →
         notified (trace_of r) = [(sub, raw, t)])
  | None => notified (trace_of r) = [(sub, raw, t)]
  end.
Proof.
  intros H1 Ham. pose proof (py_eq_int_1_not_2 _ H1) as H2.
  rewrite energy_today_cases.
  rewrite (correct_energy_today_run data serial subs raw state w
             serial_subscribed state_code). simpl. fold now.
  rewrite H1, H2. apply Z.ltb_lt in Ham. rewrite Ham. simpl.
  destruct (state_measured subs w) as [lus|]; [|apply notified_data_updated].
  destruct (Z.eqb_spec (dt_hour lus) 0) as [Hh|Hh];
    destruct (Z.ltb_spec (dt_minute lus) 15) as [Hm|Hm]; simpl;
    try (destruct (Z.ltb_spec (local_clock (S (ticks w))) (lus + timedelta 0 5 0))
           as [Hg|Hg]; simpl);
    (split; [try apply notified_data_updated; done|]);
    repeat split; intros;
    first [ apply notified_data_updated | lia | tauto | done ].
Qed.

End EnergyToday.

(** ** Dispatching one snapshot *)

#[local] Instance dispatch_step_composable : @Composable Api Env HomeAssistant dispatch_step.
Proof.
  split.
  - intros w. split; [done|]. split; [done|constructor].
  - intros w1 w2 w3 t1 t2 (Hs1 & Hk1 & Ht1) (Hs2 & Hk2 & Ht2).
    split; [congruence|]. split; [lia|].
    apply Forall_app. split; [done|]. by rewrite <- Hs1.
Qed.

Lemma dispatch_step_tick (w : World) : dispatch_step w (tick w) [].
Proof. split; [done|]. split; [simpl; lia|constructor]. Qed.

Lemma dispatch_step_data_updated (sub : nat) (v : value) :
  respects dispatch_step (t ← last_updated; data_updated sub v t).
Proof.
  intros w. erewrite bind_silent by reflexivity.
  destruct (decide (subscribers w !! sub = _last_updated (service w))) as [Hm|Hm].
  - rewrite (data_updated_same _ _ _ _ Hm).
    split; [done|]. split; [done|]. by repeat constructor.
  - rewrite (data_updated_differs _ _ _ _ Hm).
    split; [done|]. split; [done|]. by repeat constructor.
Qed.

Lemma dispatch_step_update_attribute (data : GinlongData) (serial attribute : string) :
  respects dispatch_step (update_attribute data serial attribute).
Proof.
  unfold update_attribute, correct_energy_today.
  respects_with ltac:(first [ apply dispatch_step_data_updated
                            | intros w; apply dispatch_step_tick ]).
Qed.

Lemma dispatch_step_update_devices (data : GinlongData) :
  respects dispatch_step (update_devices data).
Proof.
  unfold update_devices.
  respects_with ltac:(apply dispatch_step_update_attribute).
Qed.

Lemma data_lookup_key (data : GinlongData) (name : string) :
  name ∈ keys data → is_Some (data_lookup data name).
Proof.
  induction data as [|[k v] data IH]; simpl.
  - by intros ?%elem_of_nil.
  - intros [->|Hin]%elem_of_cons.
    + rewrite String.eqb_refl. eauto.
    + destruct (String.eqb k name); eauto.
Qed.

Lemma update_attribute_returns (data : GinlongData) (serial attribute : string)
    (subs : gmap string nat) (w : World) :
  snapshot_wf data →
  attribute ∈ keys data →
  _subscriptions (service w) !! serial = Some subs →
  result_of (update_attribute data serial attribute w) = Returns ().
Proof.
  intros [_ Hstate] Hkey Hs.
  destruct (data_lookup_key _ _ Hkey) as [raw Hraw].
  destruct (subs !! attribute) as [sub|] eqn:Hsub.
  - destruct (String.eqb_spec attribute INVERTER_ENERGY_TODAY) as [->|Hne].
    + destruct (Hstate Hkey) as [state Hst].
      rewrite (energy_today_cases data serial subs sub raw state w Hs Hsub Hraw Hst).
      destruct (correct_energy_today data serial raw w).1.1 as [[v|]|e]; try done.
      apply notified_data_updated.
    + unfold update_attribute. repeat silent.
      destruct (decide (subs !! attribute = None)) as [Hn|_]; [congruence|].
      repeat silent. apply String.eqb_neq in Hne. rewrite Hne.
      repeat silent. simpl. repeat silent. apply notified_data_updated.
  - unfold update_attribute. repeat silent.
    by destruct (decide (subs !! attribute = None)).
Qed.

Lemma for_each_update_attribute_returns (data : GinlongData) (serial : string)
    (subs : gmap string nat) (attributes : list string) (w : World) :
  snapshot_wf data →
  attributes ⊆ keys data →
  _subscriptions (service w) !! serial = Some subs →
  result_of (for_each attributes (update_attribute data serial) w) = Returns ().
Proof.
  intros Hwf. revert w. induction attributes as [|attribute attributes IH];
    intros w Hsub Hs; simpl; [done|].
  pose proof (update_attribute_returns data serial attribute subs w Hwf
                ltac:(set_solver) Hs) as Hret.
  pose proof (dispatch_step_update_attribute data serial attribute w) as (Hsame & _).
  unfold result_of, world_of in *.
  destruct (update_attribute data serial attribute w) as [[r w1] t1] eqn:Hrun.
  simpl in *. subst r. rewrite (bind_returns _ _ _ _ _ _ Hrun). simpl.
  apply IH; [set_solver|]. by rewrite Hsame.
Qed.

Lemma update_devices_returns (data : GinlongData) (w : World) :
  snapshot_wf data → result_of (update_devices data w) = Returns ().
Proof.
  intros Hwf. pose proof Hwf as [[serial Hserial] _]. unfold update_devices.
  repeat silent. destruct serial as [| | | |serial]; try done.
  destruct (decide (_subscriptions (service w) !! serial = None)) as [|Hs]; [done|].
  destruct (_subscriptions (service w) !! serial) as [subs|] eqn:Hsubs; [|done].
  by apply (for_each_update_attribute_returns data serial subs).
Qed.

(** ** The session *)

Lemma api_run (w : World) (a : Api) :
  _api (service w) = Some a → api w = (Returns a, w, []).
Proof. intros Ha. unfold api. silent. by rewrite Ha. Qed.

Lemma api_unset (w : World) :
  _api (service w) = None → api w = (Raises (AttributeError "_api"), w, []).
Proof. intros Ha. unfold api. silent. by rewrite Ha. Qed.

Ltac step :=
  first
    [ erewrite bind_silent by
        first [ reflexivity
              | apply getitem_Some; eassumption
              | apply getattr_Some; eassumption
              | apply api_run; eassumption ]
    | erewrite bind_returns by reflexivity; unfold prepend; simpl ].

Lemma api_login_run (w : World) (a : Api) :
  _api (service w) = Some a →
  api_login w =
    (Returns (login a).1, with_service (with_api (login a).2) w, [ApiLogin (login a).1]).
Proof. intros Ha. unfold api_login. by repeat step. Qed.

Lemma api_logout_run (w : World) (a : Api) :
  _api (service w) = Some a →
  api_logout w = (Returns (), with_service (with_api (logout a)) w, [ApiLogout]).
Proof. intros Ha. unfold api_logout. by repeat step. Qed.

Lemma api_fetch_inverter_data_run (serial : string) (w : World) (a : Api) :
  _api (service w) = Some a →
  api_fetch_inverter_data serial w =
    (Returns (fetch_inverter_data serial a).1,
     with_service (with_api (fetch_inverter_data serial a).2) w,
     [ApiFetch serial (fetch_inverter_data serial a).1]).
Proof. intros Ha. unfold api_fetch_inverter_data. by repeat step. Qed.

Lemma _logout_run (w : World) (a : Api) :
  _api (service w) = Some a →
  _logout w =
    (Returns (),
     with_service (with_logintime None) (with_service (with_api (logout a)) w),
     [ApiLogout]).
Proof.
  intros Ha. unfold _logout.
  erewrite bind_returns by (apply api_logout_run; exact Ha). done.
Qed.

Lemma _login_run (w : World) (a : Api) :
  _api (service w) = Some a →
  _login w =
    if is_online a then (Returns true, w, [])
    else
      let w1 := with_service (with_api (login a).2) w in
      (Returns (is_online (login a).2),
       if (login a).1
       then with_service (with_logintime (Some (local_clock (ticks w)))) (tick w1)
       else w1,
       [ApiLogin (login a).1]).
Proof.
  intros Ha. unfold _login, api_is_online. rewrite bind_assoc.
  repeat step. destruct (is_online a) eqn:Hon; simpl.
  - repeat step. unfold mret, M_ret. by rewrite Hon.
  - rewrite bind_assoc.
    erewrite bind_returns by (apply api_login_run; exact Ha). unfold prepend.
    by destruct (login a) as [[|] a'].
Qed.

(** ** Discovery *)

#[local] Instance fetch_step_composable : @Composable Api Env HomeAssistant fetch_step.
Proof.
  split.
  - intros w. split; [done|]. split; [done|constructor].
  - intros w1 w2 w3 t1 t2 (Hl1 & Ha1 & Ht1) (Hl2 & Ha2 & Ht2).
    split; [congruence|]. split; [auto|]. by apply Forall_app.
Qed.

Ltac fetch_leaf :=
  intros ?; split; [done|]; split; [simpl; eauto|by repeat constructor].

Lemma fetch_step_discover_inverters : respects fetch_step discover_inverters.
Proof. unfold discover_inverters. respects_with fetch_leaf. Qed.

Lemma _do_discover_run (w w1 : World) (t1 : list event) :
  _login w = (Returns true, w1, t1) →
  _do_discover w =
    prepend t1
      (discover_inverters
         (with_service (with_logintime (Some (local_clock (ticks w1)))) (tick w1))).
Proof.
  intros Hlogin. unfold _do_discover.
  rewrite (bind_returns _ _ _ _ _ _ Hlogin). f_equal. by repeat step.
Qed.

(** C10: a [_do_discover] whose session check succeeds leaves the
    clock reading it takes right after the check as the login timestamp;
    when the API was online already, that is the first clock reading of
    the run and no login call is made. *)
Theorem _do_discover_overwrites_logintime (w : World) (a : Api) :
  _api (service w) = Some a →
  result_of (_login w) = Returns true →
  let r := _do_discover w in
  _logintime (service (world_of r)) =
    Some (local_clock (ticks (world_of (_login w)))) ∧
  (is_online a = true →
     count_events is_api_login (trace_of r) = 0%nat ∧
     _logintime (service (world_of r)) = Some (local_clock (ticks w))).
Proof.
  intros Ha Hlogin r. subst r.
  destruct (_login w) as [[b w1] t1] eqn:Hrun. unfold result_of in Hlogin.
  simpl in Hlogin. subst b. rewrite (_do_discover_run _ _ _ Hrun).
  pose proof (fetch_step_discover_inverters
    (with_service (with_logintime (Some (local_clock (ticks w1)))) (tick w1)))
    as (Hkept & _ & Hquiet).
  unfold world_of, trace_of, prepend in *. simpl in *. split; [done|].
  intros Hon. rewrite (_login_run _ _ Ha), Hon in Hrun.
  injection Hrun as <- <-. split; [|done]. simpl.
  unfold count_events. apply length_zero_iff_nil.
  induction Hquiet as [|e tr He _ IH]; simpl; [done|]. by rewrite He.
Qed.

(** ** Computations that return *)

Lemma total_ret {A : Type} (a : A) : total (mret a).
Proof. intros w Hw. split; [by exists a|done]. Qed.

Lemma total_bind {A B : Type} (m : M A) (f : A → M B) :
  total m → (∀ a, total (f a)) → total (m ≫= f).
Proof.
  intros Hm Hf w Hw. destruct (Hm w Hw) as [[a Ha] Hw1].
  unfold result_of, world_of in *.
  destruct (m w) as [[r w1] t1] eqn:Hrun. simpl in *. subst r.
  rewrite (bind_returns _ _ _ _ _ _ Hrun). simpl. by apply Hf.
Qed.

Lemma total_for_fold {A B : Type} (l : list A) (acc : B) (body : B → A → M B) :
  (∀ acc x, total (body acc x)) → total (for_fold l acc body).
Proof.
  intros Hbody. revert acc. induction l as [|x l IH]; intros acc; simpl.
  - apply total_ret.
  - apply total_bind; [apply Hbody|intros acc'; apply IH].
Qed.

Lemma total_api : total api.
Proof. intros w [a Ha]. rewrite (api_run _ _ Ha). split; [by exists a|by exists a]. Qed.

Lemma total_emit (e : event) : total (emit e).
Proof. intros w Hw. split; [by exists ()|done]. Qed.

Lemma total_datetime_now : total datetime_now.
Proof. intros w Hw. split; [by eexists|done]. Qed.

Lemma total_utcnow : total utcnow.
Proof. intros w Hw. split; [by eexists|done]. Qed.

Lemma total_self : total self.
Proof. intros w Hw. split; [by eexists|done]. Qed.

Lemma total_update_self (f : InverterService → InverterService) :
  (∀ s, is_Some (_api s) → is_Some (_api (f s))) → total (update_self f).
Proof. intros Hf w Hw. split; [by exists ()|]. by apply Hf. Qed.

Ltac total_with leaf :=
  repeat first
    [ leaf
    | apply total_ret | apply total_api | apply total_emit
    | apply total_datetime_now | apply total_utcnow | apply total_self
    | apply total_update_self; intros ? ?; simpl; eauto
    | apply total_bind; [|intros ?]
    | apply total_for_fold; intros ? ?
    | match goal with
      | |- total (if ?b then _ else _) => destruct b
      | |- total (match ?o with _ => _ end) => destruct o
      end ].

Lemma total__login : total _login.
Proof. unfold _login, api_is_online, api_login. total_with fail. Qed.

Lemma total__logout : total _logout.
Proof. unfold _logout, api_logout. total_with fail. Qed.

Lemma total__do_discover : total _do_discover.
Proof.
  unfold _do_discover, api_inverters, api_fetch_inverter_data.
  total_with ltac:(apply total__login).
Qed.

Lemma total_maybe_renew : total maybe_renew.
Proof. unfold maybe_renew. total_with ltac:(apply total__logout). Qed.

(** ** Steps that schedule nothing *)

#[local] Instance session_step_composable : @Composable Api Env HomeAssistant session_step.
Proof.
  split.
  - intros w. split; [done|]. split; [done|]. split; [done|constructor].
  - intros w1 w2 w3 t1 t2 (Hk1 & Hc1 & Hd1 & Ht1) (Hk2 & Hc2 & Hd2 & Ht2).
    split; [lia|]. split; [congruence|]. split; [congruence|]. by apply Forall_app.
Qed.

Lemma dispatch_step_session_step (w w' : World) (tr : list event) :
  dispatch_step w w' tr → session_step w w' tr.
Proof.
  intros (Hs & Hk & Ht). split; [done|]. rewrite Hs. split; [done|]. split; [done|].
  eapply Forall_impl; [exact Ht|]. by intros [].
Qed.

Ltac session_leaf :=
  intros ?; split; [simpl; lia|]; split; [done|]; split; [done|];
  by repeat constructor.

Lemma session_step__login : respects session_step _login.
Proof. unfold _login. respects_with session_leaf. Qed.

Lemma session_step__logout : respects session_step _logout.
Proof. unfold _logout. respects_with session_leaf. Qed.

Lemma session_step__do_discover : respects session_step _do_discover.
Proof. unfold _do_discover. respects_with session_leaf. Qed.

Lemma session_step_maybe_renew : respects session_step maybe_renew.
Proof. unfold maybe_renew. respects_with session_leaf. Qed.

Lemma session_step_update_inverter (update : Z) (inverter_serial : string) :
  respects session_step (update_inverter update inverter_serial).
Proof.
  unfold update_inverter.
  respects_with ltac:(first
    [ intros ?; apply dispatch_step_session_step, dispatch_step_update_devices
    | session_leaf ]).
Qed.

Lemma filter_unscheduled (tr : list event) :
  Forall unscheduled tr →
  List.filter is_track tr = [] ∧ List.filter is_discovery_callback tr = [].
Proof.
  induction 1 as [|e tr [He1 He2] _ [IH1 IH2]]; simpl; [done|].
  by rewrite He1, He2.
Qed.

Lemma schedule_discovery_run (callback : option nat)
    (cookie : option (list (string * value))) (seconds : Z) (w : World) :
  schedule_discovery callback cookie seconds w =
    (Returns (),
     tick (with_service (with_discovery callback cookie) w),
     [TrackPointInUtcTime AsyncDiscover (utc_clock (ticks w) + timedelta 0 0 seconds)]).
Proof. unfold schedule_discovery. by repeat step. Qed.

Lemma schedule_update_run (minute : Z) (w : World) :
  schedule_update minute w =
    (Returns (), tick w,
     [TrackPointInUtcTime AsyncUpdate (utc_clock (ticks w) + timedelta 0 minute 0)]).
Proof. unfold schedule_update. by repeat step. Qed.

(** C8 (as amended): a discovery that finds nothing schedules exactly
    one further discovery, 60 seconds after the UTC clock reading it
    takes, and calls no callback; a discovery that finds something
    schedules nothing and, when a callback and a cookie that is not empty
    are registered, calls that callback once with what it found and the
    cookie.  Either way the registered callback and cookie are afterwards
    what they were before. *)
Theorem async_discover_retry_or_callback (w : World) :
  api_assigned w →
  let r := async_discover w in
  ∃ capabilities : gmap string (list string),
    result_of (_do_discover w) = Returns capabilities ∧
    result_of r = Returns () ∧
    _discovery_callback (service (world_of r)) = _discovery_callback (service w) ∧
    _discovery_cookie (service (world_of r)) = _discovery_cookie (service w) ∧
    (capabilities = ∅ →
       List.filter is_discovery_callback (trace_of r) = [] ∧
       ∃ k, (ticks w ≤ k < ticks (world_of r))%nat ∧
         List.filter is_track (trace_of r) =
           [TrackPointInUtcTime AsyncDiscover
              (utc_clock k + timedelta 0 0 RETRY_DELAY_SECONDS)]) ∧
    (capabilities ≠ ∅ →
       List.filter is_track (trace_of r) = [] ∧
       ∀ cb item cookie,
         _discovery_callback (service w) = Some cb →
         _discovery_cookie (service w) = Some (item :: cookie) →
         List.filter is_discovery_callback (trace_of r) =
           [DiscoveryCallback cb capabilities (item :: cookie)]).
Proof.
  intros Hw r. subst r.
  destruct (total__do_discover w Hw) as [[capabilities Hret] _].
  pose proof (session_step__do_discover w) as (Hk & Hcb & Hck & Hquiet).
  apply filter_unscheduled in Hquiet as [Hnt Hnc].
  unfold result_of, world_of, trace_of in *.
  destruct (_do_discover w) as [[res w1] t1] eqn:Hrun. simpl in *. subst res.
  exists capabilities. split; [done|].
  unfold async_discover. rewrite (bind_returns _ _ _ _ _ _ Hrun). step.
  destruct (decide (capabilities ≠ ∅)) as [Hfound|Hempty%dec_stable].
  - destruct (_discovery_callback (service w1)) as [cb|] eqn:Hcb1;
      destruct (_discovery_cookie (service w1)) as [[|item cookie]|] eqn:Hck1;
      simpl; rewrite ?List.filter_app, ?Hnt, ?Hnc; simpl;
      (split; [done|]); (split; [congruence|]); (split; [congruence|]);
      (split; [intros Hne; contradiction|]); intros _;
      (split; [by rewrite ?app_nil_r|]);
      intros cb' item' cookie' Hcb' Hck'; rewrite ?app_nil_r; congruence.
  - rewrite schedule_discovery_run. simpl.
    rewrite !List.filter_app, Hnt, Hnc. simpl.
    split; [done|]. split; [congruence|]. split; [congruence|].
    split; [|intros Hne; contradiction].
    intros _. split; [done|]. exists (ticks w1). split; [lia|done].
Qed.

(** ** Construction *)

Lemma raises_unassigned {B : Type} (f : Api → M B) (w : World) :
  _api (service w) = None →
  (api ≫= f) w = (Raises (AttributeError "_api"), w, []).
Proof. intros Ha. apply bind_raises. by apply api_unset. Qed.

(** C9: built from a configuration that is neither a [GinlongConfig]
    nor a [SoliscloudConfig], the service has no [_api] attribute; and as
    long as it has none, reading [status] and calling [_login],
    [_logout], [async_update], [_do_discover] or [async_discover] raises
    [AttributeError] before anything is changed or called, while
    [subscribe], the two scheduling methods and [update_devices] do not
    assign the attribute. *)
Theorem unknown_config_has_no_api (hass : HomeAssistant) :
  _api (__init__ OtherConfig hass) = None ∧
  ∀ w : World, _api (service w) = None →
    status w = (Raises (AttributeError "_api"), w, []) ∧
    _login w = (Raises (AttributeError "_api"), w, []) ∧
    _logout w = (Raises (AttributeError "_api"), w, []) ∧
    async_update w = (Raises (AttributeError "_api"), w, []) ∧
    _do_discover w = (Raises (AttributeError "_api"), w, []) ∧
    async_discover w = (Raises (AttributeError "_api"), w, []) ∧
    (∀ sub serial attribute,
       _api (service (world_of (subscribe sub serial attribute w))) = None) ∧
    (∀ minute, _api (service (world_of (schedule_update minute w))) = None) ∧
    (∀ cb cookie seconds,
       _api (service (world_of (schedule_discovery cb cookie seconds w))) = None) ∧
    (∀ data, _api (service (world_of (update_devices data w))) = None).
Proof.
  split; [done|]. intros w Ha.
  assert (_login w = (Raises (AttributeError "_api"), w, [])) as Hlogin.
  { unfold _login, api_is_online. apply bind_raises. by apply raises_unassigned. }
  assert (_do_discover w = (Raises (AttributeError "_api"), w, [])) as Hdiscover.
  { unfold _do_discover. by apply bind_raises. }
  split; [unfold status, api_is_online; apply bind_raises; by apply raises_unassigned|].
  split; [done|].
  split; [unfold _logout, api_logout; apply bind_raises; by apply raises_unassigned|].
  split; [unfold async_update; by apply bind_raises|].
  split; [done|].
  split; [unfold async_discover; by apply bind_raises|].
  split; [|split; [|split]].
  - intros sub serial attribute. unfold subscribe. step.
    destruct (decide (_subscriptions (service w) !! serial = None)) as [Hnew|Hold].
    + repeat step. erewrite bind_silent by (apply getitem_Some, lookup_insert_eq).
      done.
    + step. destruct (_subscriptions (service w) !! serial) as [inner|] eqn:Hin;
        [|done]. by repeat step.
  - intros minute. by rewrite schedule_update_run.
  - intros cb cookie seconds. by rewrite schedule_discovery_run.
  - intros data. destruct (dispatch_step_update_devices data w) as (Hs & _).
    by rewrite Hs.
Qed.

(** ** The update cycle *)

Lemma update_inverter_run (update : Z) (serial : string) (w : World) (a : Api) :
  _api (service w) = Some a →
  update_inverter update serial w =
    match (fetch_inverter_data serial a).1 with
    | Some d =>
        prepend [ApiFetch serial (Some d)]
          ((update_devices d;; mret SCHEDULE_OK) (fetched serial a w))
    | None =>
        (Returns SCHEDULE_NOK,
         with_service (with_logintime None)
           (with_service (with_api (logout (fetch_inverter_data serial a).2))
              (with_service (with_api (fetch_inverter_data serial a).2) w)),
         [ApiFetch serial None; ApiLogout])
    end.
Proof.
  intros Ha. unfold update_inverter.
  erewrite bind_returns by (apply api_fetch_inverter_data_run; exact Ha).
  unfold fetched. destruct (fetch_inverter_data serial a) as [[d|] a']; simpl.
  - f_equal. by repeat step.
  - erewrite bind_returns by (by apply _logout_run). done.
Qed.

Lemma update_inverter_unassigned (update : Z) (serial : string) (w : World) :
  _api (service w) = None →
  update_inverter update serial w = (Raises (AttributeError "_api"), w, []).
Proof.
  intros Ha. unfold update_inverter, api_fetch_inverter_data.
  apply bind_raises. by apply raises_unassigned.
Qed.

Lemma total_update_inverter (update : Z) (serial : string) :
  well_formed_snapshots → total (update_inverter update serial).
Proof.
  intros Hwf w [a Ha]. rewrite (update_inverter_run _ _ _ _ Ha).
  destruct (fetch_inverter_data serial a).1 as [d|] eqn:Hd.
  - pose proof (update_devices_returns d (fetched serial a w) (Hwf _ _ _ Hd)) as Hret.
    pose proof (dispatch_step_update_devices d (fetched serial a w)) as (Hs & _).
    unfold result_of, world_of in *.
    destruct (update_devices d (fetched serial a w)) as [[res w1] t1] eqn:Hrun.
    simpl in *. subst res. rewrite (bind_returns _ _ _ _ _ _ Hrun). simpl.
    split; [by eexists|]. unfold api_assigned. rewrite Hs. simpl. by eexists.
  - split; [by eexists|]. simpl. unfold api_assigned. simpl. by eexists.
Qed.

Lemma async_update_unfold : (async_update : M Z) = _login ≫= after_login.
Proof. reflexivity. Qed.

Lemma finish_cycle_run (update : Z) (w : World) :
  finish_cycle update w =
    prepend [TrackPointInUtcTime AsyncUpdate (utc_clock (ticks w) + timedelta 0 update 0)]
      ((maybe_renew;; mret update) (tick w)).
Proof.
  unfold finish_cycle. by erewrite bind_returns by apply schedule_update_run.
Qed.

Lemma after_login_false (w : World) :
  after_login false w = finish_cycle SCHEDULE_NOK w.
Proof. unfold after_login. by step. Qed.

Lemma after_login_true (w : World) (a : Api) :
  _api (service w) = Some a →
  after_login true w =
    match inverters a with
    | None => (Returns SCHEDULE_NOK, w, [])
    | Some l =>
        (update ← for_fold l SCHEDULE_NOK update_inverter; finish_cycle update) w
    end.
Proof.
  intros Ha. unfold after_login, api_inverters. rewrite !bind_assoc. do 2 step.
  destruct (inverters a) as [l|]; [|by step].
  rewrite bind_assoc. apply bind_ext. intros u w1. by step.
Qed.

(** How a cycle runs when every snapshot is well formed: the session
    check, then either the early return or the loop, the scheduling of
    the next cycle and the check of the login age. *)
Lemma async_update_outcome (w : World) :
  well_formed_snapshots → api_assigned w →
  ∃ (logged_in : bool) (a1 : Api),
    result_of (_login w) = Returns logged_in ∧
    _api (service (world_of (_login w))) = Some a1 ∧
    match polled logged_in a1 with
    | None =>
        async_update w = (Returns SCHEDULE_NOK, world_of (_login w), trace_of (_login w))
    | Some l =>
        let r2 := for_fold l SCHEDULE_NOK update_inverter (world_of (_login w)) in
        let r3 := maybe_renew (tick (world_of r2)) in
        ∃ update : Z,
          result_of r2 = Returns update ∧
          async_update w =
            (Returns update, world_of r3,
             trace_of (_login w) ++ trace_of r2 ++
             [TrackPointInUtcTime AsyncUpdate
                (utc_clock (ticks (world_of r2)) + timedelta 0 update 0)] ++
             trace_of r3)
    end.
Proof.
  intros Hwf Hw.
  destruct (total__login w Hw) as [[logged_in Hret] [a1 Ha1]].
  exists logged_in, a1. split; [done|]. split; [done|].
  rewrite async_update_unfold.
  unfold result_of, world_of, trace_of in *.
  destruct (_login w) as [[res w1] t1] eqn:Hlogin. simpl in *. subst res.
  rewrite (bind_returns _ _ _ _ _ _ Hlogin).
  assert (∀ l, ∃ update,
    (for_fold l SCHEDULE_NOK update_inverter w1).1.1 = Returns update ∧
    (update ← for_fold l SCHEDULE_NOK update_inverter; finish_cycle update) w1 =
      (Returns update,
       (maybe_renew (tick (for_fold l SCHEDULE_NOK update_inverter w1).1.2)).1.2,
       (for_fold l SCHEDULE_NOK update_inverter w1).2 ++
       [TrackPointInUtcTime AsyncUpdate
          (utc_clock (ticks (for_fold l SCHEDULE_NOK update_inverter w1).1.2) +
           timedelta 0 update 0)] ++
       (maybe_renew (tick (for_fold l SCHEDULE_NOK update_inverter w1).1.2)).2))
    as Hloop.
  { intros l.
    destruct (total_for_fold l SCHEDULE_NOK update_inverter
                (λ acc x, total_update_inverter acc x Hwf) w1 (ex_intro _ a1 Ha1))
      as [[update Hupdate] Hw2].
    exists update. split; [done|].
    unfold result_of, world_of in *.
    destruct (for_fold l SCHEDULE_NOK update_inverter w1) as [[res w2] t2] eqn:Hrun.
    simpl in *. subst res. rewrite (bind_returns _ _ _ _ _ _ Hrun).
    rewrite finish_cycle_run.
    destruct (total_maybe_renew (tick w2) Hw2) as [[[] Hrenew] _].
    unfold result_of in Hrenew.
    destruct (maybe_renew (tick w2)) as [[res w3] t3] eqn:Hrun3.
    simpl in *. subst res. rewrite (bind_returns _ _ _ _ _ _ Hrun3).
    unfold prepend. simpl. by rewrite app_nil_r. }
  destruct logged_in; simpl.
  - rewrite (after_login_true _ _ Ha1).
    destruct (inverters a1) as [l|];
      [|unfold prepend; simpl; by rewrite app_nil_r].
    destruct (Hloop l) as (update & Hu & Hrun). exists update. split; [done|].
    unfold prepend. rewrite Hrun. done.
  - rewrite after_login_false.
    destruct (Hloop []) as (update & Hu & Hrun). exists update. split; [done|].
    simpl in Hu. injection Hu as <-.
    erewrite bind_silent in Hrun by reflexivity.
    unfold prepend. rewrite Hrun. done.
Qed.

(** *** The status a cycle returns *)

#[local] Instance fetch_free_composable : @Composable Api Env HomeAssistant fetch_free.
Proof.
  split; [intros w; constructor|].
  intros w1 w2 w3 t1 t2 H1 H2. by apply Forall_app.
Qed.

Ltac fetch_free_leaf := intros ?; by repeat constructor.

Lemma fetch_free__login : respects fetch_free _login.
Proof. unfold _login. respects_with fetch_free_leaf. Qed.

Lemma fetch_free_maybe_renew : respects fetch_free maybe_renew.
Proof. unfold maybe_renew. respects_with fetch_free_leaf. Qed.

Lemma last_fetch_from_fetch_free (acc : option (string * option GinlongData))
    (tr : list event) :
  Forall (λ e, is_api_fetch e = false) tr → last_fetch_from acc tr = acc.
Proof.
  induction 1 as [|e tr He _ IH]; simpl; [done|]. by destruct e.
Qed.

Lemma last_fetch_from_app (acc : option (string * option GinlongData))
    (t1 t2 : list event) :
  last_fetch_from acc (t1 ++ t2) = last_fetch_from (last_fetch_from acc t1) t2.
Proof. apply fold_left_app. Qed.

Lemma notify_with_fetch_free (t : option datetime) (tr : list event) :
  Forall (notify_with t) tr → Forall (λ e, is_api_fetch e = false) tr.
Proof. intros H. eapply Forall_impl; [exact H|]. by intros []. Qed.

Lemma dispatch_step_then (d : GinlongData) (update : Z) :
  respects dispatch_step (update_devices d;; mret update).
Proof. respects_with ltac:(apply dispatch_step_update_devices). Qed.

Lemma then_result {A : Type} (m : M unit) (a a' : A) (w : World) :
  result_of ((m;; mret a) w) = Returns a' → a' = a.
Proof.
  unfold result_of, mbind, M_bind. destruct (m w) as [[[[]|e] w1] t1]; simpl; [|done].
  by intros [= <-].
Qed.

Lemma update_inverter_status (update update' : Z) (serial : string) (w : World)
    (acc : option (string * option GinlongData)) :
  result_of (update_inverter update serial w) = Returns update' →
  update' = status_of (last_fetch_from acc (trace_of (update_inverter update serial w))).
Proof.
  destruct (_api (service w)) as [a|] eqn:Ha;
    [|by rewrite (update_inverter_unassigned _ _ _ Ha)].
  rewrite (update_inverter_run _ _ _ _ Ha).
  destruct (fetch_inverter_data serial a).1 as [d|].
  - pose proof (dispatch_step_then d SCHEDULE_OK (fetched serial a w)) as (_ & _ & Ht).
    unfold result_of, trace_of, prepend in *. simpl. intros Hres.
    rewrite (last_fetch_from_fetch_free _ _ (notify_with_fetch_free _ _ Ht)).
    by apply then_result in Hres.
  - by intros [= <-].
Qed.

Lemma poll_status (l : list string) (update update' : Z) (w : World)
    (acc : option (string * option GinlongData)) :
  update = status_of acc →
  result_of (for_fold l update update_inverter w) = Returns update' →
  update' = status_of (last_fetch_from acc (trace_of (for_fold l update update_inverter w))).
Proof.
  revert update acc w. induction l as [|serial l IH]; intros update acc w Hacc; simpl.
  - by intros [= <-].
  - pose proof (update_inverter_status update) as Hbody.
    specialize (λ u, Hbody u serial w acc).
    unfold result_of, trace_of in *.
    destruct (update_inverter update serial w) as [[[u1|e] w1] t1] eqn:Hrun.
    + rewrite (bind_returns _ _ _ _ _ _ Hrun). simpl. intros Hres.
      rewrite last_fetch_from_app. apply IH; [|done]. by apply Hbody.
    + by rewrite (bind_raises _ _ _ _ _ _ Hrun).
Qed.

Lemma session_step_poll (l : list string) (update : Z) :
  respects session_step (for_fold l update update_inverter).
Proof. respects_with ltac:(apply session_step_update_inverter). Qed.

(** C3 (as amended): when every snapshot is well formed, a cycle whose
    session check fails, or whose API lists the inverters, returns a
    status and schedules exactly one next cycle, as many minutes after
    the UTC clock reading it takes as the status says: 1 for NOT_OK,
    which is what a failed session check gives, 2 for OK. *)
Theorem async_update_schedules_next (w : World) :
  well_formed_snapshots → api_assigned w →
  result_of (_login w) = Returns false ∨ inverters_listed (world_of (_login w)) →
  ∃ (update : Z) (k : nat),
    result_of (async_update w) = Returns update ∧
    (update = SCHEDULE_NOK ∨ update = SCHEDULE_OK) ∧
    (result_of (_login w) = Returns false → update = SCHEDULE_NOK) ∧
    (ticks w ≤ k < ticks (world_of (async_update w)))%nat ∧
    List.filter is_track (trace_of (async_update w)) =
      [TrackPointInUtcTime AsyncUpdate (utc_clock k + timedelta 0 update 0)].
Proof.
  intros Hwf Hw Hcase.
  destruct (async_update_outcome w Hwf Hw) as (logged_in & a1 & Hlogin & Ha1 & Hrun).
  pose proof (session_step__login w) as (Hk1 & _ & _ & Hq1).
  apply filter_unscheduled in Hq1 as [Hq1 _].
  assert (∃ l, polled logged_in a1 = Some l ∧ (logged_in = false → l = []))
    as (l & Hl & Hnil).
  { destruct logged_in; simpl.
    - destruct Hcase as [Hfalse|(a & l & Ha & Hlist)]; [congruence|].
      exists l. split; [congruence|done].
    - by exists []. }
  rewrite Hl in Hrun. simpl in Hrun. destruct Hrun as (update & Hupdate & Hrun).
  pose proof (session_step_poll l SCHEDULE_NOK (world_of (_login w)))
    as (Hk2 & _ & _ & Hq2).
  apply filter_unscheduled in Hq2 as [Hq2 _].
  pose proof (session_step_maybe_renew
    (tick (world_of (for_fold l SCHEDULE_NOK update_inverter (world_of (_login w))))))
    as (Hk3 & _ & _ & Hq3).
  apply filter_unscheduled in Hq3 as [Hq3 _].
  pose proof (poll_status l SCHEDULE_NOK update (world_of (_login w)) None eq_refl Hupdate)
    as Hstatus.
  exists update,
    (ticks (world_of (for_fold l SCHEDULE_NOK update_inverter (world_of (_login w))))).
  rewrite Hrun. unfold result_of, world_of, trace_of in *. simpl in *.
  split; [done|]. split; [|split; [|split]].
  - rewrite Hstatus. unfold status_of. by repeat case_match; [right|left..].
  - intros Hfalse. rewrite Hlogin in Hfalse. injection Hfalse as ->.
    rewrite (Hnil eq_refl) in Hupdate. simpl in Hupdate. by injection Hupdate as <-.
  - lia.
  - rewrite !List.filter_app, Hq1, Hq2. simpl. by rewrite Hq3.
Qed.

(** *** A fetch without data *)

#[local] Instance logout_step_composable : @Composable Api Env HomeAssistant logout_step.
Proof.
  split.
  - intros w. split; [|done]. intros [serial Hin]. by apply elem_of_nil in Hin.
  - intros w1 w2 w3 t1 t2 [Hf1 Hn1] [Hf2 Hn2]. split; [|auto].
    intros [serial [Hin|Hin]%elem_of_app].
    + destruct Hf1 as [Hout Hnone]; [by exists serial|].
      split; [apply elem_of_app; by left|auto].
    + destruct Hf2 as [Hout Hnone]; [by exists serial|].
      split; [apply elem_of_app; by right|done].
Qed.

Lemma notify_with_no_failed_fetch (t : option datetime) (tr : list event) :
  Forall (notify_with t) tr → ¬ failed_fetch tr.
Proof.
  intros Hall [serial Hin]. rewrite Forall_forall in Hall. by apply Hall in Hin.
Qed.

Lemma logout_step_update_inverter (update : Z) (serial : string) :
  respects logout_step (update_inverter update serial).
Proof.
  intros w. destruct (_api (service w)) as [a|] eqn:Ha;
    [|rewrite (update_inverter_unassigned _ _ _ Ha); apply composable_refl].
  rewrite (update_inverter_run _ _ _ _ Ha).
  destruct (fetch_inverter_data serial a).1 as [d|].
  - pose proof (dispatch_step_then d SCHEDULE_OK (fetched serial a w)) as (Hs & _ & Ht).
    unfold logout_step, world_of, trace_of, prepend in *. simpl. rewrite Hs. simpl.
    split; [|done]. intros [serial' [Hin|Hin]%elem_of_cons]; [done|].
    destruct (notify_with_no_failed_fetch _ _ Ht). by exists serial'.
  - split; [|done]. intros _. split; [|done]. set_solver.
Qed.

Ltac no_failed_fetch :=
  intros [? Hin]; simpl in Hin;
  first [ by apply elem_of_nil in Hin | by apply list_elem_of_singleton in Hin ].

Ltac logout_leaf :=
  idtac;
  match goal with
  | |- respects _ (update_inverter _ _) => apply logout_step_update_inverter
  | |- respects _ (emit _) => intros ?; split; [no_failed_fetch|done]
  | |- respects _ (update_self _) => intros ?; split; [no_failed_fetch|simpl; done]
  | |- respects _ datetime_now => intros ?; split; [no_failed_fetch|done]
  | |- respects _ utcnow => intros ?; split; [no_failed_fetch|done]
  end.

Lemma logout_step_after_login (logged_in : bool) :
  respects logout_step (after_login logged_in).
Proof.
  unfold after_login, finish_cycle, schedule_update, maybe_renew, _logout, api_logout,
    api_inverters, api.
  respects_with logout_leaf.
Qed.

#[local] Instance logged_out_step_composable :
  @Composable Api Env HomeAssistant logged_out_step.
Proof.
  split.
  - intros w. split; [by split|]. intros [serial Hin]. by apply elem_of_nil in Hin.
  - intros w1 w2 w3 t1 t2 [Hout1 Hfail1] [Hout2 Hfail2]. split.
    + intros Hw1. destruct (Hout1 Hw1) as [Hw2 Hs1].
      destruct (Hout2 Hw2) as [Hw3 Hs2]. split; [done|].
      intros acc Hacc. rewrite last_fetch_from_app. by apply Hs2, Hs1.
    + intros [serial [Hin|Hin]%elem_of_app].
      * destruct Hfail1 as [Hw2 Hs1]; [by exists serial|].
        destruct (Hout2 Hw2) as [Hw3 Hs2]. split; [done|].
        intros acc. rewrite last_fetch_from_app. apply Hs2, Hs1.
      * destruct Hfail2 as [Hw3 Hs2]; [by exists serial|]. split; [done|].
        intros acc. rewrite last_fetch_from_app. apply Hs2.
Qed.

Lemma logged_out_step_update_inverter (update : Z) (serial : string) :
  silent_when_logged_out → respects logged_out_step (update_inverter update serial).
Proof.
  intros [Hsilent Hlogout] w. destruct (_api (service w)) as [a|] eqn:Ha;
    [|rewrite (update_inverter_unassigned _ _ _ Ha); apply composable_refl].
  rewrite (update_inverter_run _ _ _ _ Ha).
  destruct (fetch_inverter_data serial a).1 as [d|] eqn:Hd.
  - pose proof (dispatch_step_then d SCHEDULE_OK (fetched serial a w)) as (_ & _ & Ht).
    unfold logged_out_step, world_of, trace_of, prepend in *. simpl. split.
    + intros (a' & Ha' & Hoff). rewrite Ha in Ha'. injection Ha' as <-.
      by rewrite (Hsilent serial a Hoff) in Hd.
    + intros [serial' [Hin|Hin]%elem_of_cons]; [done|].
      destruct (notify_with_no_failed_fetch _ _ Ht). by exists serial'.
  - assert (logged_out (world_of
      (Returns SCHEDULE_NOK,
       with_service (with_logintime None)
         (with_service (with_api (logout (fetch_inverter_data serial a).2))
            (with_service (with_api (fetch_inverter_data serial a).2) w)),
       [ApiFetch serial None; ApiLogout]))) as Hout.
    { eexists. split; [reflexivity|]. apply Hlogout. }
    split; intros _; (split; [exact Hout|done]).
Qed.

Ltac logged_out_trivial :=
  intros w; split;
    [ intros Hw; split; [exact Hw|done]
    | intros [? Hin]; simpl in Hin;
      first [ by apply elem_of_nil in Hin | by apply list_elem_of_singleton in Hin ] ].

Lemma logged_out_step_after_login (logged_in : bool) :
  silent_when_logged_out → respects logged_out_step (after_login logged_in).
Proof.
  intros Hlaw.
  unfold after_login, finish_cycle, schedule_update, maybe_renew, _logout, api_logout,
    api_inverters, api.
  respects_with ltac:(idtac;
    match goal with
    | |- respects _ (update_inverter _ _) => by apply logged_out_step_update_inverter
    | |- respects _ (emit _) => logged_out_trivial
    | |- respects _ (update_self (with_logintime _)) => logged_out_trivial
    | |- respects _ datetime_now => logged_out_trivial
    | |- respects _ utcnow => logged_out_trivial
    | |- respects _ (update_self (with_api (logout _))) =>
        intros w; split;
          [ intros _; split; [eexists; split; [reflexivity|apply Hlaw]|done]
          | no_failed_fetch ]
    end).
Qed.

(** C7 (as amended): in a cycle in which a fetch gives no data the API
    is logged out and the cycle ends with the login timestamp unset; the
    status the cycle returns is the one of the device fetched last:
    NOT_OK when that fetch gave no data (or nothing was fetched), OK
    when it gave data, whatever happened to the devices before it.  So
    a fetch without data makes the status NOT_OK when it is the last
    one, and always when the API gives no data to a session that is
    logged out. *)
Theorem async_update_fetch_failure (w : World) :
  (failed_fetch (trace_of (async_update w)) →
     ApiLogout ∈ trace_of (async_update w) ∧
     _logintime (service (world_of (async_update w))) = None) ∧
  (well_formed_snapshots → api_assigned w →
     result_of (async_update w) =
       Returns (status_of (last_fetch (trace_of (async_update w)))) ∧
     (silent_when_logged_out → failed_fetch (trace_of (async_update w)) →
        result_of (async_update w) = Returns SCHEDULE_NOK)).
Proof.
  split.
  - rewrite async_update_unfold. pose proof (fetch_free__login w) as Hfree.
    unfold fetch_free, world_of, trace_of in *.
    destruct (_login w) as [[[logged_in|e] w1] t1] eqn:Hlogin; simpl in Hfree.
    + rewrite (bind_returns _ _ _ _ _ _ Hlogin). simpl.
      pose proof (logout_step_after_login logged_in w1) as [Hfail _].
      intros [serial [Hin|Hin]%elem_of_app].
      * rewrite Forall_forall in Hfree. by apply Hfree in Hin.
      * destruct Hfail as [Hout Hnone]; [by exists serial|].
        split; [apply elem_of_app; by right|done].
    + rewrite (bind_raises _ _ _ _ _ _ Hlogin). simpl.
      intros [serial Hin]. rewrite Forall_forall in Hfree. by apply Hfree in Hin.
  - intros Hwf Hw.
    assert (result_of (async_update w) =
              Returns (status_of (last_fetch (trace_of (async_update w))))) as Hstatus.
    { destruct (async_update_outcome w Hwf Hw)
        as (logged_in & a1 & Hlogin & Ha1 & Hrun).
      pose proof (fetch_free__login w) as Hfree. unfold fetch_free in Hfree.
      destruct (polled logged_in a1) as [l|].
      + simpl in Hrun. destruct Hrun as (update & Hupdate & Hrun).
        pose proof (poll_status l SCHEDULE_NOK update (world_of (_login w)) None
                      eq_refl Hupdate) as Hstatus.
        pose proof (fetch_free_maybe_renew
          (tick (world_of (for_fold l SCHEDULE_NOK update_inverter
                             (world_of (_login w)))))) as Hfree3.
        unfold fetch_free in Hfree3.
        rewrite Hrun. unfold result_of, world_of, trace_of, last_fetch in *. simpl in *.
        rewrite !last_fetch_from_app. simpl.
        rewrite (last_fetch_from_fetch_free _ _ Hfree).
        rewrite (last_fetch_from_fetch_free _ _ Hfree3). by rewrite Hstatus.
      + rewrite Hrun. unfold result_of, world_of, trace_of, last_fetch in *. simpl.
        by rewrite (last_fetch_from_fetch_free _ _ Hfree). }
    split; [exact Hstatus|]. intros Hlaw. rewrite Hstatus. clear Hstatus.
    rewrite async_update_unfold. pose proof (fetch_free__login w) as Hfree.
    unfold fetch_free, world_of, trace_of, last_fetch in *.
    destruct (_login w) as [[[logged_in|e] w1] t1] eqn:Hlogin; simpl in Hfree.
    + rewrite (bind_returns _ _ _ _ _ _ Hlogin). simpl.
      pose proof (logged_out_step_after_login logged_in Hlaw w1) as [_ Hfail].
      intros [serial [Hin|Hin]%elem_of_app].
      * rewrite Forall_forall in Hfree. by apply Hfree in Hin.
      * destruct Hfail as [_ Hnok]; [by exists serial|].
        rewrite last_fetch_from_app. by rewrite Hnok.
    + rewrite (bind_raises _ _ _ _ _ _ Hlogin). simpl.
      intros [serial Hin]. rewrite Forall_forall in Hfree. by apply Hfree in Hin.
Qed.

(** *** The timestamp of the notifications *)

#[local] Instance fetch_segmented_composable : @Composable Api Env HomeAssistant fetch_segmented.
Proof.
  split.
  - intros w cur tail Htail. apply Htail.
  - intros w1 w2 w3 t1 t2 H1 H2 cur tail Htail. rewrite <- app_assoc.
    apply H1. intros cur'. by apply H2.
Qed.

Lemma one_timestamp_notify (t : option datetime) (seg tail : list event)
    (cur : option (option datetime)) :
  Forall (notify_with t) seg →
  (∀ cur', one_timestamp_per_fetch cur' tail) →
  cur = None ∨ cur = Some t →
  one_timestamp_per_fetch cur (seg ++ tail).
Proof.
  intros Hseg Htail. revert cur.
  induction Hseg as [|e seg He _ IH]; intros cur Hcur; simpl; [apply Htail|].
  destruct e; simpl in He; try done; subst.
  - destruct Hcur as [->| ->]; [apply IH; by right|]. split; [done|].
    apply IH. by right.
  - by apply IH.
Qed.

Lemma fetch_segmented_update_inverter (update : Z) (serial : string) :
  respects fetch_segmented (update_inverter update serial).
Proof.
  intros w. destruct (_api (service w)) as [a|] eqn:Ha;
    [|rewrite (update_inverter_unassigned _ _ _ Ha); apply composable_refl].
  rewrite (update_inverter_run _ _ _ _ Ha).
  destruct (fetch_inverter_data serial a).1 as [d|].
  - pose proof (dispatch_step_then d SCHEDULE_OK (fetched serial a w)) as (_ & _ & Ht).
    intros cur tail Htail. unfold trace_of, prepend in *. simpl.
    eapply one_timestamp_notify; [exact Ht|exact Htail|by left].
  - intros cur tail Htail. simpl. apply Htail.
Qed.

Ltac segment_leaf :=
  idtac;
  match goal with
  | |- respects _ (update_inverter _ _) => apply fetch_segmented_update_inverter
  | |- respects _ (emit _) => intros ? ? ? Htail; simpl; apply Htail
  | |- respects _ (update_self _) => intros ? ? ? Htail; simpl; apply Htail
  | |- respects _ datetime_now => intros ? ? ? Htail; simpl; apply Htail
  | |- respects _ utcnow => intros ? ? ? Htail; simpl; apply Htail
  end.

Lemma fetch_segmented_async_update : respects fetch_segmented async_update.
Proof.
  rewrite async_update_unfold.
  unfold after_login, finish_cycle, schedule_update, maybe_renew, _login, _logout,
    api_login, api_logout, api_is_online, api_inverters, api.
  respects_with segment_leaf.
Qed.

Lemma notified_notify_with (t : option datetime) (tr : list event)
    (sub : nat) (v : value) (t' : option datetime) :
  Forall (notify_with t) tr → (sub, v, t') ∈ notified tr → t' = t.
Proof.
  induction 1 as [|e tr He _ IH]; simpl; [by intros ?%elem_of_nil|].
  destruct e; simpl in He; try done; subst.
  intros [[= -> -> ->]|Hin]%elem_of_cons; [done|by apply IH].
Qed.

#[local] Instance stamped_step_composable : @Composable Api Env HomeAssistant stamped_step.
Proof.
  split.
  - intros w. split; [done|]. intros bound cur tail Hbound Htail. by apply Htail.
  - intros w1 w2 w3 t1 t2 [Hk1 H1] [Hk2 H2]. split; [lia|].
    intros bound cur tail Hbound Htail. rewrite <- app_assoc.
    apply H1; [done|]. intros bound' cur' Hbound'. by apply H2.
Qed.

(** The calls made from one snapshot, all with the reading number [k]. *)
Lemma stamped_notify (k : nat) (seg tail : list event) :
  Forall (notify_with (Some (local_clock k))) seg →
  (∀ bound cur, (bound ≤ S k)%nat → stamped bound cur tail) →
  (∀ bound, (bound ≤ k)%nat → stamped bound None (seg ++ tail)) ∧
  stamped (S k) (Some k) (seg ++ tail).
Proof.
  intros Hseg Htail. induction Hseg as [|e seg He _ [IHnone IHsome]]; simpl.
  - split; [intros bound Hbound; apply Htail; lia|by apply Htail].
  - destruct e; simpl in He; try done; subst.
    split; [|done]. intros bound Hbound. by exists k.
Qed.

Lemma stamped_step_update_inverter (update : Z) (serial : string) :
  respects stamped_step (update_inverter update serial).
Proof.
  intros w. destruct (_api (service w)) as [a|] eqn:Ha;
    [|rewrite (update_inverter_unassigned _ _ _ Ha); apply composable_refl].
  rewrite (update_inverter_run _ _ _ _ Ha).
  destruct (fetch_inverter_data serial a).1 as [d|].
  - pose proof (dispatch_step_then d SCHEDULE_OK (fetched serial a w)) as (_ & Hk & Ht).
    unfold stamped_step, world_of, trace_of, prepend in *. simpl in *.
    split; [lia|]. intros bound cur tail Hbound Htail.
    apply (stamped_notify (ticks w)); [exact Ht| |done].
    intros bound' cur' Hbound'. apply Htail. lia.
  - split; [done|]. intros bound cur tail Hbound Htail. simpl. by apply Htail.
Qed.

Ltac stamped_leaf :=
  first [ apply stamped_step_update_inverter
        | intros ?; split; [simpl; lia|];
          intros ? ? ? Hbound Htail; simpl; apply Htail; simpl; lia ].

Lemma stamped_step_async_update : respects stamped_step async_update.
Proof.
  rewrite async_update_unfold.
  unfold after_login, finish_cycle, schedule_update, maybe_renew, _login, _logout,
    api_login, api_logout, api_is_online, api_inverters, api.
  respects_with stamped_leaf.
Qed.

(** The reading of a call that comes after [mid] in a stamped trace. *)
Lemma stamped_later (mid post : list event) (sub : nat) (v : value)
    (t : option datetime) (bound : nat) (cur : option nat) :
  stamped bound cur (mid ++ DataUpdated sub v t :: post) →
  ∃ k, t = Some (local_clock k) ∧
       match cur with
       | Some k0 => k = k0 ∨ (bound ≤ k)%nat
       | None => (bound ≤ k)%nat
       end.
Proof.
  revert bound cur. induction mid as [|e mid IH]; intros bound cur; simpl.
  - destruct cur as [k0|].
    + intros [-> _]. exists k0. auto.
    + intros (k & Hk & -> & _). by exists k.
  - destruct e; try apply IH.
    + intros (k & Hk & Hcur)%IH. exists k. split; [done|]. destruct cur; auto.
    + destruct cur as [k0|].
      * intros [_ Hrest]. by apply IH in Hrest.
      * intros (k0 & Hk0 & _ & (k & Ht & Hk)%IH). exists k. split; [done|].
        destruct Hk; lia.
Qed.

Lemma stamped_after_fetch (mid post : list event) (sub : nat) (v : value)
    (t : option datetime) (bound : nat) (cur : option nat) :
  stamped bound cur (mid ++ DataUpdated sub v t :: post) →
  fetch_between mid →
  ∃ k, t = Some (local_clock k) ∧ (bound ≤ k)%nat.
Proof.
  revert bound cur. induction mid as [|e mid IH]; intros bound cur Hst (serial & d & Hin);
    [by apply elem_of_nil in Hin|].
  assert (e ≠ ApiFetch serial d → fetch_between mid) as Hrest.
  { intros Hne. exists serial, d.
    apply elem_of_cons in Hin as [Heq|Hin]; [by destruct Hne|done]. }
  simpl in Hst. destruct e; try (apply (IH bound cur Hst), Hrest; discriminate).
  - by apply stamped_later in Hst.
  - destruct cur as [k0|].
    + destruct Hst as [_ Hst]. apply (IH bound (Some k0) Hst), Hrest. discriminate.
    + destruct Hst as (k0 & Hk0 & _ & Hst).
      destruct (IH (S k0) (Some k0) Hst) as (k & Ht & Hk); [apply Hrest; discriminate|].
      exists k. split; [done|lia].
Qed.

(** Two calls of a stamped trace with a fetch between them carry
    readings with different numbers, the later call the later one. *)
Lemma stamped_apart (pre mid post : list event) (sub1 sub2 : nat) (v1 v2 : value)
    (t1 t2 : option datetime) (bound : nat) (cur : option nat) :
  stamped bound cur
    (pre ++ DataUpdated sub1 v1 t1 :: mid ++ DataUpdated sub2 v2 t2 :: post) →
  match cur with Some k0 => (k0 < bound)%nat | None => True end →
  fetch_between mid →
  ∃ k1 k2, (k1 < k2)%nat ∧ t1 = Some (local_clock k1) ∧ t2 = Some (local_clock k2) ∧
           match cur with
           | Some k0 => k1 = k0 ∨ (bound ≤ k1)%nat
           | None => (bound ≤ k1)%nat
           end.
Proof.
  intros Hst Hcur Hmid. revert bound cur Hst Hcur.
  induction pre as [|e pre IH]; intros bound cur Hst Hcur; simpl in Hst.
  - destruct cur as [k0|].
    + destruct Hst as [-> Hst].
      destruct (stamped_after_fetch _ _ _ _ _ _ _ Hst Hmid) as (k2 & -> & Hk2).
      exists k0, k2. split; [lia|]. auto.
    + destruct Hst as (k1 & Hk1 & -> & Hst).
      destruct (stamped_after_fetch _ _ _ _ _ _ _ Hst Hmid) as (k2 & -> & Hk2).
      exists k1, k2. split; [lia|]. auto.
  - destruct e; try (by apply IH).
    + destruct (IH bound None Hst I) as (k1 & k2 & Hlt & Ht1 & Ht2 & Hk1).
      exists k1, k2. split; [done|]. split; [done|]. split; [done|]. destruct cur; auto.
    + destruct cur as [k0|].
      * destruct Hst as [_ Hst]. exact (IH bound (Some k0) Hst Hcur).
      * destruct Hst as (k0 & Hk0 & _ & Hst).
        destruct (IH (S k0) (Some k0) Hst (Nat.lt_succ_diag_r k0))
          as (k1 & k2 & Hlt & Ht1 & Ht2 & Hk1).
        exists k1, k2. split; [done|]. split; [done|]. split; [done|].
        destruct Hk1; lia.
Qed.

(** C4 (as amended): in the trace of a cycle, all [data_updated] calls
    between one fetch and the next carry one timestamp; for each device
    it is the clock reading taken right after that device's fetch; and
    two calls with a fetch between them, as the calls for two devices
    are, carry two clock readings of the cycle, the later call the later
    reading, so that with a clock that advances from one reading to the
    next the subscribers of different devices are called with different
    timestamps. *)
Theorem notify_timestamp_per_device (w : World) :
  one_timestamp_per_fetch None (trace_of (async_update w)) ∧
  (∀ (update : Z) (serial : string) (sub : nat) (v : value) (t : option datetime),
     (sub, v, t) ∈ notified (trace_of (update_inverter update serial w)) →
     t = Some (local_clock (ticks w))) ∧
  (∀ (pre mid post : list event) (sub1 sub2 : nat) (v1 v2 : value)
     (t1 t2 : option datetime),
     trace_of (async_update w) =
       pre ++ DataUpdated sub1 v1 t1 :: mid ++ DataUpdated sub2 v2 t2 :: post →
     fetch_between mid →
     ∃ k1 k2 : nat,
       (ticks w ≤ k1 < k2)%nat ∧
       t1 = Some (local_clock k1) ∧ t2 = Some (local_clock k2) ∧
       ((∀ i j : nat, (i < j)%nat → local_clock i < local_clock j) → t1 ≠ t2)).
Proof.
  split; [|split].
  - pose proof (fetch_segmented_async_update w None [] (λ _, I)) as Hseg.
    by rewrite app_nil_r in Hseg.
  - intros update serial sub v t.
    destruct (_api (service w)) as [a|] eqn:Ha;
      [|rewrite (update_inverter_unassigned _ _ _ Ha); by intros ?%elem_of_nil].
    rewrite (update_inverter_run _ _ _ _ Ha).
    destruct (fetch_inverter_data serial a).1 as [d|];
      [|by intros ?%elem_of_nil].
    pose proof (dispatch_step_then d SCHEDULE_OK (fetched serial a w)) as (_ & _ & Ht).
    unfold trace_of, prepend in *. simpl. by apply notified_notify_with.
  - intros pre mid post sub1 sub2 v1 v2 t1 t2 Htrace Hmid.
    destruct (stamped_step_async_update w) as [_ Hst].
    specialize (Hst (ticks w) None [] (le_n _) (λ _ _ _, I)).
    rewrite app_nil_r, Htrace in Hst.
    destruct (stamped_apart _ _ _ _ _ _ _ _ _ _ _ Hst I Hmid)
      as (k1 & k2 & Hlt & -> & -> & Hk1).
    exists k1, k2. split; [lia|]. split; [done|]. split; [done|].
    intros Hclock [= Heq]. specialize (Hclock k1 k2 Hlt). lia.
Qed.

(** * Further properties *)

(** ** The registry *)

Lemma subscribe_run (sub : nat) (serial attribute : string) (w : World) :
  subscribe sub serial attribute w =
    (Returns (),
     with_service (with_subscriptions
                     (subscribed sub serial attribute (_subscriptions (service w)))) w,
     []).
Proof.
  unfold subscribe, subscribed. step.
  destruct (decide (_subscriptions (service w) !! serial = None)) as [Hnew|Hold].
  - repeat step. erewrite bind_silent by (apply getitem_Some, lookup_insert_eq).
    rewrite Hnew. simpl. unfold update_self, with_service, with_subscriptions. simpl.
    by rewrite insert_insert_eq.
  - step. destruct (_subscriptions (service w) !! serial) as [inner|] eqn:Hin; [|done].
    by repeat step.
Qed.

Lemma registered_subscribed (sub : nat) (serial attribute serial' attribute' : string)
    (w : World) :
  registered (world_of (subscribe sub serial attribute w)) serial' attribute' =
    if decide (serial' = serial ∧ attribute' = attribute) then Some sub
    else registered w serial' attribute'.
Proof.
  rewrite subscribe_run. unfold registered, subscribed, world_of. simpl.
  destruct (decide (serial' = serial)) as [->|Hserial].
  - rewrite lookup_insert_eq.
    destruct (decide (attribute' = attribute)) as [->|Hattribute].
    + rewrite lookup_insert_eq. by rewrite decide_True.
    + rewrite lookup_insert_ne by done. rewrite decide_False by tauto.
      by destruct (_subscriptions (service w) !! serial).
  - rewrite lookup_insert_ne by done. by rewrite decide_False by tauto.
Qed.

(** X1: [subscribe] returns without a call, registers the subscriber
    for the pair of device and attribute, leaves every other pair as it
    was and changes nothing but the registry. *)
Theorem subscribe_registers (sub : nat) (serial attribute : string) (w : World) :
  let r := subscribe sub serial attribute w in
  result_of r = Returns () ∧ trace_of r = [] ∧
  registered (world_of r) serial attribute = Some sub ∧
  (∀ serial' attribute',
     ¬ (serial' = serial ∧ attribute' = attribute) →
     registered (world_of r) serial' attribute' = registered w serial' attribute') ∧
  subscribers (world_of r) = subscribers w ∧
  sub_env (world_of r) = sub_env w ∧
  ticks (world_of r) = ticks w ∧
  _last_updated (service (world_of r)) = _last_updated (service w) ∧
  _logintime (service (world_of r)) = _logintime (service w) ∧
  _discovery_callback (service (world_of r)) = _discovery_callback (service w) ∧
  _discovery_cookie (service (world_of r)) = _discovery_cookie (service w) ∧
  _api (service (world_of r)) = _api (service w).
Proof.
  intros r. subst r. split; [by rewrite subscribe_run|].
  split; [by rewrite subscribe_run|]. split.
  { rewrite registered_subscribed. by rewrite decide_True. }
  split.
  { intros serial' attribute' Hother. rewrite registered_subscribed.
    by rewrite decide_False. }
  by rewrite subscribe_run.
Qed.

(** X2: registering twice for one pair leaves the world as the second
    registration alone does: the last registration wins, and repeating
    a registration changes nothing. *)
Theorem subscribe_last_wins (sub1 sub2 : nat) (serial attribute : string) (w : World) :
  world_of (subscribe sub2 serial attribute
              (world_of (subscribe sub1 serial attribute w))) =
    world_of (subscribe sub2 serial attribute w).
Proof.
  rewrite !subscribe_run. unfold world_of, with_service, with_subscriptions, subscribed.
  simpl. rewrite lookup_insert_eq. simpl. by rewrite !insert_insert_eq.
Qed.

(** X3: registrations for two different pairs can be made in either
    order. *)
Theorem subscribe_commutes (sub1 sub2 : nat) (serial1 attribute1 serial2 attribute2 : string)
    (w : World) :
  ¬ (serial1 = serial2 ∧ attribute1 = attribute2) →
  world_of (subscribe sub2 serial2 attribute2
              (world_of (subscribe sub1 serial1 attribute1 w))) =
    world_of (subscribe sub1 serial1 attribute1
                (world_of (subscribe sub2 serial2 attribute2 w))).
Proof.
  intros Hpairs. rewrite !subscribe_run.
  unfold world_of, with_service, with_subscriptions, subscribed. simpl.
  destruct (decide (serial1 = serial2)) as [->|Hserial].
  - assert (attribute1 ≠ attribute2) as Hattribute by tauto.
    rewrite !lookup_insert_eq. simpl. rewrite !insert_insert_eq.
    by rewrite (insert_insert_ne _ attribute2 attribute1).
  - rewrite !lookup_insert_ne by done.
    by rewrite (insert_insert_ne _ serial2 serial1).
Qed.

(** ** The dispatch of a snapshot *)

(** X4: a snapshot of a device without subscribers, or whose serial is
    no string, is dropped: nothing is called and nothing changes. *)
Theorem update_devices_unknown_device (data : GinlongData) (serial : value) (w : World) :
  data_lookup data INVERTER_SERIAL = Some serial →
  (∀ s, serial = VStr s → _subscriptions (service w) !! s = None) →
  update_devices data w = (Returns (), w, []).
Proof.
  intros Hserial Hnone. unfold update_devices. repeat silent.
  destruct serial as [| | | |s]; try done.
  by rewrite decide_True by by apply Hnone.
Qed.

Lemma notified_app (t1 t2 : list event) :
  notified (t1 ++ t2) = notified t1 ++ notified t2.
Proof.
  induction t1 as [|e t1 IH]; simpl; [done|]. destruct e; simpl; by rewrite ?IH.
Qed.

Lemma update_attribute_plain (data : GinlongData) (serial attribute : string)
    (subs : gmap string nat) (sub : nat) (raw : value) (w : World) :
  _subscriptions (service w) !! serial = Some subs →
  subs !! attribute = Some sub →
  data_lookup data attribute = Some raw →
  attribute ≠ INVERTER_ENERGY_TODAY →
  update_attribute data serial attribute w =
    data_updated sub raw (_last_updated (service w)) w.
Proof.
  intros Hs Hsub Hraw Hne. unfold update_attribute. repeat silent.
  destruct (decide (subs !! attribute = None)) as [Hn|_]; [congruence|].
  repeat silent. apply String.eqb_neq in Hne. rewrite Hne.
  repeat silent. simpl. by repeat silent.
Qed.

Lemma update_attribute_unsubscribed (data : GinlongData) (serial attribute : string)
    (subs : gmap string nat) (w : World) :
  _subscriptions (service w) !! serial = Some subs →
  subs !! attribute = None →
  update_attribute data serial attribute w = (Returns (), w, []).
Proof.
  intros Hs Hsub. unfold update_attribute. repeat silent.
  by rewrite decide_True by done.
Qed.

Lemma data_updated_frame (sub : nat) (v : value) (t : option datetime) (w : World) :
  service (world_of (data_updated sub v t w)) = service w ∧
  ticks (world_of (data_updated sub v t w)) = ticks w ∧
  (∀ sub', sub' ≠ sub →
     subscribers (world_of (data_updated sub v t w)) !! sub' = subscribers w !! sub') ∧
  (subscribers (world_of (data_updated sub v t w)) !! sub = subscribers w !! sub ∨
   subscribers (world_of (data_updated sub v t w)) !! sub = t) ∧
  Forall (λ e, e = DataUpdated sub v t ∨ ∃ applied, e = DoUpdate sub v t applied)
    (trace_of (data_updated sub v t w)).
Proof.
  destruct (decide (subscribers w !! sub = t)) as [Hm|Hm].
  - rewrite (data_updated_same _ _ _ _ Hm). unfold world_of, trace_of. simpl.
    split; [done|]. split; [done|]. split; [done|]. split; [by left|].
    by repeat constructor.
  - rewrite (data_updated_differs _ _ _ _ Hm). unfold world_of, trace_of. simpl.
    split; [done|]. split; [done|]. split; [|split].
    + intros sub' Hne. destruct (do_update sub v t (sub_env w)).1; [|done].
      by rewrite lookup_partial_alter_ne.
    + destruct (do_update sub v t (sub_env w)).1; [right|by left].
      by rewrite lookup_partial_alter_eq.
    + constructor; [by left|]. constructor; [|constructor]. right. by eexists.
Qed.

(** The correction calls nobody, changes neither the service object nor
    the subscribers, and gives back the raw value or 0. *)
Lemma correct_energy_today_frame (data : GinlongData) (serial : string)
    (subs : gmap string nat) (raw : value) (w : World) :
  _subscriptions (service w) !! serial = Some subs →
  let r := correct_energy_today data serial raw w in
  trace_of r = [] ∧ service (world_of r) = service w ∧
  subscribers (world_of r) = subscribers w ∧
  ∀ c, result_of r = Returns (Some c) → c = raw ∨ c = VInt 0.
Proof.
  intros Hs r. subst r.
  destruct (data_lookup data INVERTER_STATE) as [state|] eqn:Hstate.
  - rewrite (correct_energy_today_run data serial subs raw state w Hs Hstate). simpl.
    repeat match goal with
           | |- context [if ?b then _ else _] => destruct b
           | |- context [match ?o with Some _ => _ | None => _ end] => destruct o
           end;
      unfold result_of, world_of, trace_of; simpl;
      (split; [done|]); (split; [done|]); (split; [done|]);
      intros c [= <-]; auto.
  - unfold correct_energy_today. silent.
    erewrite bind_raises by (by apply getattr_None). done.
Qed.

#[local] Instance device_step_composable (data : GinlongData) (serial : string)
    (subs : gmap string nat) :
  @Composable Api Env HomeAssistant (device_step data serial subs).
Proof.
  split.
  - intros w Hs. split; [done|]. split; [constructor|done].
  - intros w1 w2 w3 t1 t2 H1 H2 Hs1.
    destruct (H1 Hs1) as (Hsame1 & Hcalls1 & Hkeep1).
    destruct H2 as (Hsame2 & Hcalls2 & Hkeep2); [by rewrite Hsame1|].
    split; [congruence|]. split; [by apply Forall_app|].
    intros sub' Hsub'. rewrite Hkeep2 by done. by apply Hkeep1.
Qed.

Lemma device_step_data_updated (data : GinlongData) (subs : gmap string nat)
    (sub : nat) (v : value) (t : option datetime) (w0 w : World) :
  service w = service w0 → subscribers w = subscribers w0 →
  dispatched_to data subs sub v →
  service (world_of (data_updated sub v t w)) = service w0 ∧
  Forall (subscriber_call data subs) (trace_of (data_updated sub v t w)) ∧
  ∀ sub', (∀ attribute, subs !! attribute ≠ Some sub') →
    subscribers (world_of (data_updated sub v t w)) !! sub' = subscribers w0 !! sub'.
Proof.
  intros Hservice Hsubscribers Hto.
  destruct (data_updated_frame sub v t w) as (Hsame & _ & Hothers & _ & Hcalls).
  split; [congruence|]. split.
  - eapply Forall_impl; [exact Hcalls|]. by intros e [->|[applied ->]].
  - intros sub' Hsub'. rewrite Hothers; [by rewrite Hsubscribers|].
    intros ->. destruct Hto as (attribute & _ & Hreg & _). by apply Hsub' in Hreg.
Qed.

Lemma device_step_update_attribute (data : GinlongData) (serial attribute : string)
    (subs : gmap string nat) :
  respects (device_step data serial subs) (update_attribute data serial attribute).
Proof.
  intros w Hs.
  destruct (subs !! attribute) as [sub|] eqn:Hsub;
    [|rewrite (update_attribute_unsubscribed _ _ _ _ _ Hs Hsub);
      by apply (composable_refl (P := device_step data serial subs))].
  destruct (data_lookup data attribute) as [raw|] eqn:Hraw.
  - destruct (String.eqb_spec attribute INVERTER_ENERGY_TODAY) as [->|Hne].
    + destruct (correct_energy_today_frame data serial subs raw w Hs)
        as (Htrace & Hservice & Hsubscribers & Hvalue).
      destruct (correct_energy_today data serial raw w) as [[[c|e] w1] t1] eqn:Hrun;
        unfold result_of, world_of, trace_of in Htrace, Hservice, Hsubscribers, Hvalue;
        simpl in Htrace, Hservice, Hsubscribers, Hvalue; subst t1.
      * rewrite (update_attribute_energy_today data serial subs sub raw w Hs Hsub Hraw
                   c w1 Hrun Hservice).
        destruct c as [c|];
          [|split; [done|]; split; [constructor|intros; by rewrite <- Hsubscribers]].
        apply (device_step_data_updated data subs sub c _ w w1); [done..|].
        exists INVERTER_ENERGY_TODAY, raw. split; [done|]. split; [done|].
        destruct (Hvalue c eq_refl) as [->| ->]; auto.
      * unfold update_attribute. repeat silent.
        rewrite decide_False by congruence. repeat silent. rewrite String.eqb_refl.
        rewrite (bind_raises _ _ _ _ _ _ Hrun).
        split; [done|]. split; [constructor|intros; by rewrite <- Hsubscribers].
    + rewrite (update_attribute_plain data serial attribute subs sub raw w Hs Hsub Hraw Hne).
      apply (device_step_data_updated data subs sub raw _ w w); [done..|].
      exists attribute, raw. auto.
  - unfold update_attribute. repeat silent. rewrite decide_False by congruence.
    erewrite bind_raises by (by apply getattr_None).
    by apply (composable_refl (P := device_step data serial subs)).
Qed.

(** X5: from a snapshot of a device, only subscribers registered for
    that device are called, each with the service's [last_updated] and
    with the snapshot's value of an attribute it is registered for (or
    with 0 for energy today); the last-applied timestamps of all other
    subscribers and the service object stay as they are. *)
Theorem update_devices_calls_own_subscribers (data : GinlongData) (serial : string)
    (subs : gmap string nat) (w : World) :
  data_lookup data INVERTER_SERIAL = Some (VStr serial) →
  _subscriptions (service w) !! serial = Some subs →
  let r := update_devices data w in
  service (world_of r) = service w ∧
  (∀ sub v t, (sub, v, t) ∈ notified (trace_of r) →
     t = _last_updated (service w) ∧ dispatched_to data subs sub v) ∧
  (∀ sub', (∀ attribute, subs !! attribute ≠ Some sub') →
     subscribers (world_of r) !! sub' = subscribers w !! sub').
Proof.
  intros Hserial Hs r. subst r.
  rewrite (update_devices_rounds data serial subs w Hserial Hs).
  pose proof (respects_for_each (device_step data serial subs) (keys data)
                (update_attribute data serial)
                (λ attribute, device_step_update_attribute data serial attribute subs)
                w Hs)
    as (Hsame & Hcalls & Hkeep).
  pose proof (respects_for_each dispatch_step (keys data) (update_attribute data serial)
                (dispatch_step_update_attribute data serial) w) as (_ & _ & Htime).
  split; [done|]. split; [|done].
  intros sub v t Hin. split; [by eapply notified_notify_with|].
  revert Hin Hcalls. generalize (trace_of (for_each (keys data)
                                             (update_attribute data serial) w)).
  intros tr. induction tr as [|e tr IH]; simpl; [by intros ?%elem_of_nil|].
  intros Hin Hall. apply Forall_cons in Hall as [He Hall].
  destruct e; try (by apply IH).
  apply elem_of_cons in Hin as [[= -> -> ->]|Hin]; [done|by apply IH].
Qed.

Lemma data_lookup_Some_key (data : GinlongData) (name : string) (v : value) :
  data_lookup data name = Some v → name ∈ keys data.
Proof.
  induction data as [|[k v'] data IH]; simpl; [done|].
  destruct (String.eqb_spec k name) as [->|Hne].
  - intros _. apply list_elem_of_here.
  - intros Hrest. apply list_elem_of_further. by apply IH.
Qed.

(** The rounds of the loop over a part of the keys of a well-formed
    snapshot call the subscriber of every attribute among them other
    than energy today with the snapshot's value. *)
Lemma for_each_update_attribute_notifies (data : GinlongData) (serial : string)
    (subs : gmap string nat) (attributes : list string) (attribute : string)
    (sub : nat) (raw : value) (w : World) :
  snapshot_wf data →
  attributes ⊆ keys data →
  _subscriptions (service w) !! serial = Some subs →
  attribute ∈ attributes →
  attribute ≠ INVERTER_ENERGY_TODAY →
  subs !! attribute = Some sub →
  data_lookup data attribute = Some raw →
  (sub, raw, _last_updated (service w)) ∈
    notified (trace_of (for_each attributes (update_attribute data serial) w)).
Proof.
  intros Hwf Hsubset Hs Hin Hne Hsub Hraw. revert w Hsubset Hs Hin.
  induction attributes as [|x attributes IH]; intros w Hsubset Hs Hin; simpl;
    [exfalso; revert Hin; apply not_elem_of_nil|].
  pose proof (update_attribute_returns data serial x subs w Hwf
                ltac:(apply Hsubset, list_elem_of_here) Hs) as Hret.
  pose proof (dispatch_step_update_attribute data serial x w) as (Hsame & _).
  assert (x = attribute →
          (sub, raw, _last_updated (service w)) ∈
            notified (trace_of (update_attribute data serial x w))) as Hhere.
  { intros ->.
    rewrite (update_attribute_plain data serial attribute subs sub raw w Hs Hsub Hraw Hne).
    destruct (notified_data_updated sub raw (_last_updated (service w)) w) as [_ ->].
    apply list_elem_of_here. }
  unfold result_of, world_of, trace_of in *.
  destruct (update_attribute data serial x w) as [[res w1] t1] eqn:Hrun.
  simpl in *. subst res. rewrite (bind_returns _ _ _ _ _ _ Hrun). simpl.
  rewrite notified_app. apply elem_of_app.
  destruct (decide (x = attribute)) as [Hx|Hother]; [left; by apply Hhere|].
  right. apply elem_of_cons in Hin as [->|Hin]; [done|].
  rewrite <- Hsame. apply IH; [set_solver|by rewrite Hsame|done].
Qed.

(** X6: from a well-formed snapshot of a device, the subscriber of
    every attribute the snapshot gives, energy today apart, is called
    with the snapshot's value of that attribute and the service's
    [last_updated], and the dispatch returns. *)
Theorem update_devices_notifies_subscribers (data : GinlongData) (serial attribute : string)
    (subs : gmap string nat) (sub : nat) (raw : value) (w : World) :
  snapshot_wf data →
  data_lookup data INVERTER_SERIAL = Some (VStr serial) →
  _subscriptions (service w) !! serial = Some subs →
  subs !! attribute = Some sub →
  data_lookup data attribute = Some raw →
  attribute ≠ INVERTER_ENERGY_TODAY →
  result_of (update_devices data w) = Returns () ∧
  (sub, raw, _last_updated (service w)) ∈ notified (trace_of (update_devices data w)).
Proof.
  intros Hwf Hserial Hs Hsub Hraw Hne. split; [by apply update_devices_returns|].
  rewrite (update_devices_rounds data serial subs w Hserial Hs).
  apply (for_each_update_attribute_notifies data serial subs (keys data) attribute);
    try done.
  by eapply data_lookup_Some_key.
Qed.

(** X7: a subscriber that registers for an attribute of a device is
    called with the value of that attribute by the next dispatch of a
    well-formed snapshot of the device that gives the attribute (energy
    today apart). *)
Theorem subscribe_then_update_devices (data : GinlongData) (serial attribute : string)
    (sub : nat) (raw : value) (w : World) :
  snapshot_wf data →
  data_lookup data INVERTER_SERIAL = Some (VStr serial) →
  data_lookup data attribute = Some raw →
  attribute ≠ INVERTER_ENERGY_TODAY →
  (sub, raw, _last_updated (service w)) ∈
    notified (trace_of (update_devices data
                          (world_of (subscribe sub serial attribute w)))).
Proof.
  intros Hwf Hserial Hraw Hne. rewrite subscribe_run. unfold world_of. simpl.
  set (w1 := with_service _ w).
  assert (_subscriptions (service w1) !! serial =
            Some (<[attribute := sub]> (default ∅ (_subscriptions (service w) !! serial))))
    as Hs by (unfold w1, subscribed; simpl; apply lookup_insert_eq).
  rewrite (update_devices_rounds data serial _ w1 Hserial Hs).
  change (_last_updated (service w)) with (_last_updated (service w1)).
  eapply (for_each_update_attribute_notifies data serial _ (keys data) attribute);
    try done.
  - by eapply data_lookup_Some_key.
  - apply lookup_insert_eq.
Qed.


(** ** The session check *)

Lemma _login_unassigned (w : World) :
  _api (service w) = None → _login w = (Raises (AttributeError "_api"), w, []).
Proof.
  intros Ha. unfold _login, api_is_online. apply bind_raises. by apply raises_unassigned.
Qed.

(** What a session check that returns has done: at most one login call,
    made when the API was not online; the login timestamp is the first
    clock reading when that call succeeded and stays otherwise; the
    result is what the API says afterwards. *)
Lemma _login_session (w : World) (logged_in : bool) :
  result_of (_login w) = Returns logged_in →
  ∃ a a' : Api,
    _api (service w) = Some a ∧
    _api (service (world_of (_login w))) = Some a' ∧
    is_online a' = logged_in ∧
    trace_of (_login w) = (if is_online a then [] else [ApiLogin (login a).1]) ∧
    _logintime (service (world_of (_login w))) =
      (if negb (is_online a) && (login a).1 then Some (local_clock (ticks w))
       else _logintime (service w)).
Proof.
  destruct (_api (service w)) as [a|] eqn:Ha; [|by rewrite (_login_unassigned _ Ha)].
  rewrite (_login_run _ _ Ha). destruct (is_online a) eqn:Hon.
  - intros [= <-]. exists a, a. by rewrite !Hon.
  - intros [= <-]. exists a, (login a).2. rewrite !Hon.
    unfold world_of, trace_of. simpl. by destruct (login a).1.
Qed.

(** X8: a session check that returns True is not repeated by the next
    one: a second [_login] right after it makes no call, reads no clock
    and leaves the login timestamp as the first one set it. *)
Theorem _login_twice (w : World) :
  result_of (_login w) = Returns true →
  _login (world_of (_login w)) = (Returns true, world_of (_login w), []).
Proof.
  intros Hret. destruct (_login_session w true Hret) as (a & a' & _ & Ha' & Hon & _).
  rewrite (_login_run _ _ Ha'). by rewrite Hon.
Qed.

(** X9: read right after a session check, [status] is Online when the
    check returned True and Offline when it returned False, and reading
    it calls nothing and changes nothing. *)
Theorem status_after__login (w : World) (logged_in : bool) :
  result_of (_login w) = Returns logged_in →
  status (world_of (_login w)) =
    (Returns (if logged_in then ONLINE else OFFLINE), world_of (_login w), []).
Proof.
  intros Hret. destruct (_login_session w _ Hret) as (a & a' & _ & Ha' & Hon & _).
  unfold status, api_is_online. rewrite bind_assoc. repeat step. by rewrite Hon.
Qed.

(** ** The reasons for a logout *)

Lemma maybe_renew_run (w : World) (a : Api) :
  _api (service w) = Some a →
  maybe_renew w =
    match _logintime (service w) with
    | Some t =>
        if t + HRS_BETWEEN_LOGIN <? local_clock (ticks w)
        then (Returns (),
              with_service (with_logintime None)
                (with_service (with_api (logout a)) (tick w)),
              [ApiLogout])
        else (Returns (), tick w, [])
    | None => (Returns (), w, [])
    end.
Proof.
  intros Ha. unfold maybe_renew. step.
  destruct (_logintime (service w)) as [t|]; [|done]. step.
  destruct (t + HRS_BETWEEN_LOGIN <? local_clock (ticks w)); [|done].
  by rewrite (_logout_run (tick w) a Ha).
Qed.

Lemma failed_fetch_app (t1 t2 : list event) :
  failed_fetch (t1 ++ t2) ↔ failed_fetch t1 ∨ failed_fetch t2.
Proof.
  split.
  - intros [serial [Hin|Hin]%elem_of_app]; [left|right]; by exists serial.
  - intros [[serial Hin]|[serial Hin]]; exists serial; apply elem_of_app; auto.
Qed.

#[local] Instance poll_step_composable : @Composable Api Env HomeAssistant poll_step.
Proof.
  split.
  - intros w. split; [by intros ?%elem_of_nil|by right].
  - intros w1 w2 w3 t1 t2 [Hout1 Hkeep1] [Hout2 Hkeep2]. split.
    + intros [Hin|Hin]%elem_of_app; apply failed_fetch_app; auto.
    + destruct Hkeep1 as [Hf|Hkeep1]; [left; apply failed_fetch_app; auto|].
      destruct Hkeep2 as [Hf|Hkeep2]; [left; apply failed_fetch_app; auto|].
      right. congruence.
Qed.

Lemma poll_step_update_inverter (update : Z) (serial : string) :
  respects poll_step (update_inverter update serial).
Proof.
  intros w. destruct (_api (service w)) as [a|] eqn:Ha;
    [|rewrite (update_inverter_unassigned _ _ _ Ha); apply composable_refl].
  rewrite (update_inverter_run _ _ _ _ Ha).
  destruct (fetch_inverter_data serial a).1 as [d|].
  - pose proof (dispatch_step_then d SCHEDULE_OK (fetched serial a w)) as (Hs & _ & Ht).
    unfold poll_step, world_of, trace_of, prepend in *. simpl. rewrite Hs. simpl.
    split; [|by right]. intros [Heq|Hin]%elem_of_cons; [done|].
    rewrite Forall_forall in Ht. by apply Ht in Hin.
  - split; [|left]; [intros _|]; exists serial; apply list_elem_of_here.
Qed.

Lemma poll_step_poll (l : list string) (update : Z) :
  respects poll_step (for_fold l update update_inverter).
Proof. respects_with ltac:(apply poll_step_update_inverter). Qed.

(** X10: in a cycle the API is logged out for two reasons only: a fetch
    gave no data, or the login timestamp (the one the service had, or
    the one this cycle's login set) is more than two hours older than a
    clock reading of the cycle. *)
Theorem async_update_logout_reasons (w : World) :
  well_formed_snapshots → api_assigned w →
  ApiLogout ∈ trace_of (async_update w) →
  failed_fetch (trace_of (async_update w)) ∨
  ∃ (t : datetime) (k : nat),
    (ticks w ≤ k < ticks (world_of (async_update w)))%nat ∧
    t + HRS_BETWEEN_LOGIN < local_clock k ∧
    (_logintime (service w) = Some t ∨
     (ApiLogin true ∈ trace_of (async_update w) ∧ t = local_clock (ticks w))).
Proof.
  intros Hwf Hw.
  destruct (async_update_outcome w Hwf Hw) as (logged_in & a1 & Hlogin & Ha1 & Hrun).
  destruct (_login_session w logged_in Hlogin) as (a & a' & Ha & _ & _ & Htrace & Htime).
  pose proof (session_step__login w) as (Hk1 & _).
  assert (ApiLogout ∉ trace_of (_login w)) as Hquiet.
  { rewrite Htrace. destruct (is_online a); [apply not_elem_of_nil|].
    by intros ?%list_elem_of_singleton. }
  destruct (polled logged_in a1) as [l|]; [|by rewrite Hrun].
  simpl in Hrun. destruct Hrun as (update & Hupdate & Hrun). rewrite Hrun.
  pose proof (poll_step_poll l SCHEDULE_NOK (world_of (_login w))) as [Hout Hkeep].
  pose proof (session_step_poll l SCHEDULE_NOK (world_of (_login w))) as (Hk2 & _).
  destruct (total_for_fold l SCHEDULE_NOK update_inverter
              (λ acc x, total_update_inverter acc x Hwf) (world_of (_login w))
              (ex_intro _ a1 Ha1)) as [_ [a2 Ha2]].
  set (w2 := world_of (for_fold l SCHEDULE_NOK update_inverter (world_of (_login w)))) in *.
  set (t2 := trace_of (for_fold l SCHEDULE_NOK update_inverter (world_of (_login w)))) in *.
  rewrite (maybe_renew_run (tick w2) a2 Ha2).
  unfold world_of at 1 3, trace_of at 1 2 3. simpl.
  intros [Hin|[Hin|[Heq|Hin]%elem_of_cons]%elem_of_app]%elem_of_app; [done| |done|].
  { left. apply failed_fetch_app. right. apply failed_fetch_app. left. by apply Hout. }
  destruct Hkeep as [Hfailed|Hkeep].
  { left. apply failed_fetch_app. right. apply failed_fetch_app. by left. }
  destruct (_logintime (service w2)) as [t|] eqn:Ht; [|by apply elem_of_nil in Hin].
  destruct (t + HRS_BETWEEN_LOGIN <? local_clock (S (ticks w2))) eqn:Hold;
    [|by apply elem_of_nil in Hin].
  right. exists t, (S (ticks w2)). unfold world_of at 1. simpl.
  split; [lia|]. split; [lia|].
  rewrite Htime in Hkeep.
  destruct (is_online a); simpl in Hkeep; [left; congruence|].
  destruct (login a).1; simpl in Hkeep; [|left; congruence].
  right. split; [|congruence]. rewrite Htrace. apply elem_of_app. left.
  apply list_elem_of_here.
Qed.


(** ** What a discovery reports *)

Lemma discover_inverter_run (capabilities : gmap string (list string))
    (serial : string) (w : World) (a : Api) :
  _api (service w) = Some a →
  discover_inverter capabilities serial w =
    (Returns (match (fetch_inverter_data serial a).1 with
              | Some d => <[serial := keys d]> capabilities
              | None => capabilities
              end),
     with_service (with_api (fetch_inverter_data serial a).2) w,
     [ApiFetch serial (fetch_inverter_data serial a).1]).
Proof.
  intros Ha. unfold discover_inverter.
  erewrite bind_returns by (apply api_fetch_inverter_data_run; exact Ha).
  unfold prepend. by destruct (fetch_inverter_data serial a).1.
Qed.

Lemma discover_inverter_unassigned (capabilities : gmap string (list string))
    (serial : string) (w : World) :
  _api (service w) = None →
  discover_inverter capabilities serial w = (Raises (AttributeError "_api"), w, []).
Proof.
  intros Ha. unfold discover_inverter, api_fetch_inverter_data.
  apply bind_raises. by apply raises_unassigned.
Qed.

(** The loop of [_do_discover], started with the capabilities [acc]. *)
Lemma discover_loop (l : list string) (acc capabilities : gmap string (list string))
    (w : World) :
  result_of (for_fold l acc discover_inverter w) = Returns capabilities →
  (∀ serial attributes,
     capabilities !! serial = Some attributes →
     acc !! serial = Some attributes ∨
     ∃ d, ApiFetch serial (Some d) ∈ trace_of (for_fold l acc discover_inverter w) ∧
          attributes = keys d) ∧
  (∀ serial, is_Some (acc !! serial) → is_Some (capabilities !! serial)) ∧
  (∀ serial d,
     ApiFetch serial (Some d) ∈ trace_of (for_fold l acc discover_inverter w) →
     is_Some (capabilities !! serial)).
Proof.
  revert acc w. induction l as [|x l IH]; intros acc w; simpl.
  - intros [= <-]. split; [auto|]. split; [done|].
    intros serial d Hin. by apply elem_of_nil in Hin.
  - destruct (_api (service w)) as [a|] eqn:Ha.
    + rewrite (bind_returns _ _ _ _ _ _ (discover_inverter_run acc x w a Ha)).
      unfold result_of, trace_of, prepend. simpl. intros Hret.
      destruct (IH _ _ Hret) as (Hfrom & Hkeep & Hall).
      unfold result_of, trace_of in Hfrom, Hkeep, Hall.
      split; [|split].
      * intros serial attributes Hin.
        destruct (Hfrom serial attributes Hin) as [Hacc|(d & Hd & ->)].
        -- destruct (fetch_inverter_data x a).1 as [d|]; [|by left].
           destruct (decide (x = serial)) as [->|Hne].
           ++ rewrite lookup_insert_eq in Hacc. injection Hacc as <-.
              right. exists d. split; [apply list_elem_of_here|done].
           ++ rewrite lookup_insert_ne in Hacc by done. by left.
        -- right. exists d. split; [by apply list_elem_of_further|done].
      * intros serial Hsome. apply Hkeep.
        destruct (fetch_inverter_data x a).1 as [d|]; [|done].
        destruct (decide (x = serial)) as [->|Hne].
        -- rewrite lookup_insert_eq. by eexists.
        -- by rewrite lookup_insert_ne.
      * intros serial d [[= <- Hd]|Hin]%elem_of_cons; [|by eapply Hall].
        apply Hkeep. rewrite <- Hd, lookup_insert_eq. by eexists.
    + by rewrite (bind_raises _ _ _ _ _ _ (discover_inverter_unassigned acc x w Ha)).
Qed.

(** X11: what [_do_discover] returns has an entry for a device exactly
    when a fetch of this discovery gave data for it, and the entry lists
    the attributes of a snapshot fetched for that device in this
    discovery. *)
Theorem _do_discover_capabilities (w : World) (capabilities : gmap string (list string)) :
  result_of (_do_discover w) = Returns capabilities →
  (∀ serial attributes,
     capabilities !! serial = Some attributes →
     ∃ d, ApiFetch serial (Some d) ∈ trace_of (_do_discover w) ∧ attributes = keys d) ∧
  (∀ serial d,
     ApiFetch serial (Some d) ∈ trace_of (_do_discover w) →
     is_Some (capabilities !! serial)).
Proof.
  pose proof (fetch_free__login w) as Hquiet. unfold fetch_free in Hquiet.
  rewrite Forall_forall in Hquiet.
  destruct (_login w) as [[[[|]|e] w1] t1] eqn:Hlogin;
    unfold trace_of in Hquiet; simpl in Hquiet.
  - rewrite (_do_discover_run _ _ _ Hlogin).
    set (w2 := with_service _ (tick w1)).
    unfold discover_inverters, api_inverters, result_of, trace_of, prepend. simpl.
    destruct (_api (service w2)) as [a|] eqn:Ha;
      [|by rewrite bind_assoc, (raises_unassigned _ _ Ha)].
    rewrite bind_assoc. do 2 step.
    destruct (inverters a) as [l|].
    + intros Hret. destruct (discover_loop l ∅ capabilities w2 Hret) as (Hfrom & _ & Hall).
      split.
      * intros serial attributes Hin.
        destruct (Hfrom serial attributes Hin) as [Hacc|(d & Hd & ->)]; [done|].
        exists d. split; [|done]. apply elem_of_app. by right.
      * intros serial d [Hin|Hin]%elem_of_app; [by apply Hquiet in Hin|].
        by eapply Hall.
    + intros [= <-]. split; [done|]. rewrite app_nil_r.
      intros serial d Hin. by apply Hquiet in Hin.
  - unfold _do_discover. rewrite (bind_returns _ _ _ _ _ _ Hlogin).
    unfold result_of, trace_of, prepend. simpl. intros [= <-]. split; [done|].
    rewrite app_nil_r. intros serial d Hin. by apply Hquiet in Hin.
  - unfold _do_discover. by rewrite (bind_raises _ _ _ _ _ _ Hlogin).
Qed.

(** ** What a discovery and a cycle leave alone *)

#[local] Instance discovery_step_composable :
  @Composable Api Env HomeAssistant discovery_step.
Proof.
  split.
  - intros w. by repeat split.
  - intros w1 w2 w3 t1 t2 (Hu1 & Hr1 & Hs1 & He1 & Ht1) (Hu2 & Hr2 & Hs2 & He2 & Ht2).
    split; [congruence|]. split; [congruence|]. split; [congruence|].
    split; [congruence|]. by apply Forall_app.
Qed.

Ltac discovery_leaf :=
  intros ?; split; [done|]; split; [done|]; split; [done|]; split; [done|];
  by repeat constructor.

(** X12: a discovery calls no subscriber, logs nobody out (also when a
    fetch gives no data) and schedules no update; it leaves
    [last_updated], the registry and the subscribers as they are. *)
Theorem async_discover_leaves_sensors (w : World) :
  let r := async_discover w in
  _last_updated (service (world_of r)) = _last_updated (service w) ∧
  _subscriptions (service (world_of r)) = _subscriptions (service w) ∧
  subscribers (world_of r) = subscribers w ∧
  sub_env (world_of r) = sub_env w ∧
  Forall discovery_event (trace_of r).
Proof.
  revert w. change (respects discovery_step async_discover).
  unfold async_discover, schedule_discovery, _do_discover, _login, api_is_online,
    api_login, api_inverters, api_fetch_inverter_data, api.
  respects_with discovery_leaf.
Qed.

#[local] Instance cycle_step_composable : @Composable Api Env HomeAssistant cycle_step.
Proof.
  split.
  - intros w. by repeat split.
  - intros w1 w2 w3 t1 t2 (Hr1 & Hh1 & Hc1 & Hk1 & Ht1) (Hr2 & Hh2 & Hc2 & Hk2 & Ht2).
    split; [congruence|]. split; [congruence|]. split; [congruence|].
    split; [congruence|]. by apply Forall_app.
Qed.

Lemma cycle_step_update_devices (data : GinlongData) :
  respects cycle_step (update_devices data).
Proof.
  intros w. destruct (dispatch_step_update_devices data w) as (Hs & _ & Ht).
  unfold cycle_step. rewrite Hs.
  split; [done|]. split; [done|]. split; [done|]. split; [done|].
  eapply Forall_impl; [exact Ht|]. by intros [].
Qed.

Ltac cycle_leaf :=
  first [ apply cycle_step_update_devices
        | intros ?; split; [done|]; split; [done|]; split; [done|]; split; [done|];
          by repeat constructor ].

(** X13: a cycle changes neither the registry nor what was registered
    for discovery, so every subscriber registered before it is
    registered after it; and it neither schedules a discovery nor calls
    the discovery callback. *)
Theorem async_update_keeps_registrations (w : World) :
  let r := async_update w in
  (∀ serial attribute,
     registered (world_of r) serial attribute = registered w serial attribute) ∧
  _discovery_callback (service (world_of r)) = _discovery_callback (service w) ∧
  _discovery_cookie (service (world_of r)) = _discovery_cookie (service w) ∧
  Forall cycle_event (trace_of r).
Proof.
  assert (respects cycle_step async_update) as Hcycle.
  { unfold async_update, schedule_update, maybe_renew, update_inverter, _logout, _login,
      api_is_online, api_login, api_logout, api_inverters, api_fetch_inverter_data, api.
    respects_with cycle_leaf. }
  intros r. destruct (Hcycle w) as (Hr & _ & Hc & Hk & Ht).
  split; [|done]. intros serial attribute. unfold registered. subst r. by rewrite Hr.
Qed.


(** ** A cycle whose session check fails *)

Lemma discovery_step__login : respects discovery_step _login.
Proof.
  unfold _login, api_is_online, api_login, api. respects_with discovery_leaf.
Qed.

(** X14: a cycle whose session check returns False fetches nothing and
    calls no subscriber; it returns NOT_OK and leaves [last_updated] and
    the subscribers as they are. *)
Theorem async_update_login_failed (w : World) :
  result_of (_login w) = Returns false →
  let r := async_update w in
  result_of r = Returns SCHEDULE_NOK ∧
  Forall (λ e, is_api_fetch e = false) (trace_of r) ∧
  notified (trace_of r) = [] ∧
  _last_updated (service (world_of r)) = _last_updated (service w) ∧
  subscribers (world_of r) = subscribers w.
Proof.
  intros Hret r. subst r.
  destruct (_login_session w false Hret) as (a & a' & _ & Ha' & _ & Htrace & _).
  destruct (discovery_step__login w) as (Hupdated & _ & Hsubscribers & _).
  rewrite async_update_unfold.
  unfold result_of, world_of, trace_of in *.
  destruct (_login w) as [[res w1] t1] eqn:Hlogin. simpl in *. subst res.
  rewrite (bind_returns _ _ _ _ _ _ Hlogin), after_login_false, finish_cycle_run.
  pose proof (maybe_renew_run (tick w1) a' Ha') as Hrenew. simpl in Hrenew.
  assert (notified t1 = [] ∧ Forall (λ e, is_api_fetch e = false) t1) as [Hn1 Hf1].
  { subst t1. destruct (is_online a); by repeat constructor. }
  destruct (_logintime (service w1)) as [t|];
    [destruct (t + HRS_BETWEEN_LOGIN <? local_clock (S (ticks w1)))|];
    rewrite (bind_returns _ _ _ _ _ _ Hrenew); unfold prepend; simpl;
    rewrite notified_app, Hn1; (split; [done|]); (split; [|done]);
    (apply Forall_app; split; [done|by repeat constructor]).
Qed.

(** ** The early return *)

(** X16: when the session check succeeds and the API has no list of
    inverters, the cycle ends right after the session check with
    NOT_OK: nothing is fetched and no next cycle is scheduled. *)
Theorem async_update_no_inverter_list (w : World) (a : Api) :
  result_of (_login w) = Returns true →
  _api (service (world_of (_login w))) = Some a →
  inverters a = None →
  async_update w = (Returns SCHEDULE_NOK, world_of (_login w), trace_of (_login w)) ∧
  List.filter is_track (trace_of (async_update w)) = [] ∧
  Forall (λ e, is_api_fetch e = false) (trace_of (async_update w)).
Proof.
  intros Hret Ha Hnone.
  pose proof (session_step__login w) as (_ & _ & _ & Hquiet).
  apply filter_unscheduled in Hquiet as [Hquiet _].
  pose proof (fetch_free__login w) as Hfree.
  assert (async_update w =
            (Returns SCHEDULE_NOK, world_of (_login w), trace_of (_login w))) as Hrun.
  { rewrite async_update_unfold. unfold result_of, world_of, trace_of in *.
    destruct (_login w) as [[res w1] t1] eqn:Hlogin. simpl in *. subst res.
    rewrite (bind_returns _ _ _ _ _ _ Hlogin), (after_login_true _ _ Ha), Hnone.
    unfold prepend. simpl. by rewrite app_nil_r. }
  rewrite Hrun. by repeat split.
Qed.

(** ** When [last_updated] moves *)

Lemma fetched_data_app (t1 t2 : list event) :
  fetched_data (t1 ++ t2) ↔ fetched_data t1 ∨ fetched_data t2.
Proof.
  split.
  - intros (serial & d & [Hin|Hin]%elem_of_app); [left|right]; by exists serial, d.
  - intros [(serial & d & Hin)|(serial & d & Hin)]; exists serial, d;
      apply elem_of_app; auto.
Qed.

#[local] Instance updated_step_composable : @Composable Api Env HomeAssistant updated_step.
Proof.
  split.
  - intros w. split; [done|]. split; [|by right].
    intros (serial & d & Hin). by apply elem_of_nil in Hin.
  - intros w1 w2 w3 t1 t2 (Hk1 & Hset1 & Hkeep1) (Hk2 & Hset2 & Hkeep2).
    split; [lia|]. split.
    + intros [Hf1|Hf2]%fetched_data_app.
      * destruct (Hset1 Hf1) as (k1 & Hk & Hlast).
        destruct Hkeep2 as [Hf2|Hkeep2].
        -- destruct (Hset2 Hf2) as (k & Hk' & Hlast'). exists k. split; [lia|done].
        -- exists k1. split; [lia|congruence].
      * destruct (Hset2 Hf2) as (k & Hk & Hlast). exists k. split; [lia|done].
    + destruct Hkeep1 as [Hf|Hkeep1]; [left; apply fetched_data_app; auto|].
      destruct Hkeep2 as [Hf|Hkeep2]; [left; apply fetched_data_app; auto|].
      right. congruence.
Qed.

Ltac no_fetched_data :=
  intros (? & ? & Hin); simpl in Hin;
  first [ by apply elem_of_nil in Hin | by apply list_elem_of_singleton in Hin ].

Lemma updated_step_update_inverter (update : Z) (serial : string) :
  respects updated_step (update_inverter update serial).
Proof.
  intros w. destruct (_api (service w)) as [a|] eqn:Ha;
    [|rewrite (update_inverter_unassigned _ _ _ Ha); apply composable_refl].
  rewrite (update_inverter_run _ _ _ _ Ha).
  destruct (fetch_inverter_data serial a).1 as [d|].
  - pose proof (dispatch_step_then d SCHEDULE_OK (fetched serial a w)) as (Hs & Hk & _).
    unfold updated_step, world_of, trace_of, prepend in *. simpl in *. rewrite Hs. simpl.
    split; [lia|]. split; [|left; exists serial, d; apply list_elem_of_here].
    intros _. exists (ticks w). split; [lia|done].
  - split; [done|]. split; [|by right].
    intros (serial' & d & [Heq|Hin]%elem_of_cons); [done|].
    by apply list_elem_of_singleton in Hin.
Qed.

Ltac updated_leaf :=
  first [ apply updated_step_update_inverter
        | intros ?; split; [simpl; lia|]; split; [no_fetched_data|by right] ].

(** X15: a cycle in which a fetch gives data leaves a clock reading of
    that cycle as [last_updated]; a cycle in which no fetch gives data
    leaves [last_updated] as it was. *)
Theorem async_update_last_updated (w : World) :
  let r := async_update w in
  (fetched_data (trace_of r) →
     ∃ k, (ticks w ≤ k < ticks (world_of r))%nat ∧
          _last_updated (service (world_of r)) = Some (local_clock k)) ∧
  (¬ fetched_data (trace_of r) →
     _last_updated (service (world_of r)) = _last_updated (service w)).
Proof.
  assert (respects updated_step async_update) as Hcycle.
  { unfold async_update, schedule_update, maybe_renew, _logout, _login,
      api_is_online, api_login, api_logout, api_inverters, api.
    respects_with updated_leaf. }
  intros r. destruct (Hcycle w) as (_ & Hset & Hkeep). split; [done|].
  intros Hnone. by destruct Hkeep.
Qed.


(** ** What the dispatch raises, and when it reads the clock *)

Lemma correct_energy_today_no_state (data : GinlongData) (serial : string)
    (raw : value) (w : World) :
  data_lookup data INVERTER_STATE = None →
  correct_energy_today data serial raw w =
    (Raises (AttributeError INVERTER_STATE), tick w, []).
Proof.
  intros Hstate. unfold correct_energy_today. silent.
  erewrite bind_raises by (by apply getattr_None). done.
Qed.

Lemma update_attribute_raises (data : GinlongData) (serial attribute : string)
    (subs : gmap string nat) (w : World) (e : exn) :
  _subscriptions (service w) !! serial = Some subs →
  result_of (update_attribute data serial attribute w) = Raises e →
  ∃ name, e = AttributeError name ∧ data_lookup data name = None.
Proof.
  intros Hs.
  destruct (subs !! attribute) as [sub|] eqn:Hsub;
    [|by rewrite (update_attribute_unsubscribed _ _ _ _ _ Hs Hsub)].
  destruct (data_lookup data attribute) as [raw|] eqn:Hraw.
  - destruct (String.eqb_spec attribute INVERTER_ENERGY_TODAY) as [->|Hne].
    + destruct (data_lookup data INVERTER_STATE) as [state|] eqn:Hstate.
      * rewrite (energy_today_cases data serial subs sub raw state w Hs Hsub Hraw Hstate).
        destruct (correct_energy_today data serial raw w).1.1 as [[v|]|e']; try done.
        by rewrite (proj1 (notified_data_updated _ _ _ _)).
      * unfold update_attribute. repeat silent.
        rewrite decide_False by congruence. repeat silent. rewrite String.eqb_refl.
        rewrite (bind_raises _ _ _ _ _ _
                   (correct_energy_today_no_state data serial raw w Hstate)).
        intros [= <-]. by exists INVERTER_STATE.
    + rewrite (update_attribute_plain data serial attribute subs sub raw w Hs Hsub Hraw Hne).
      by rewrite (proj1 (notified_data_updated _ _ _ _)).
  - unfold update_attribute. repeat silent. rewrite decide_False by congruence.
    erewrite bind_raises by (by apply getattr_None).
    intros [= <-]. by exists attribute.
Qed.

Lemma for_each_update_attribute_raises (data : GinlongData) (serial : string)
    (subs : gmap string nat) (attributes : list string) (w : World) (e : exn) :
  _subscriptions (service w) !! serial = Some subs →
  result_of (for_each attributes (update_attribute data serial) w) = Raises e →
  ∃ name, e = AttributeError name ∧ data_lookup data name = None.
Proof.
  revert w. induction attributes as [|x attributes IH]; intros w Hs; simpl; [done|].
  pose proof (update_attribute_raises data serial x subs w) as Hround.
  pose proof (dispatch_step_update_attribute data serial x w) as (Hsame & _).
  unfold result_of, world_of in *.
  destruct (update_attribute data serial x w) as [[[[]|e'] w1] t1] eqn:Hrun; simpl in *.
  - rewrite (bind_returns _ _ _ _ _ _ Hrun). simpl. apply IH. by rewrite Hsame.
  - rewrite (bind_raises _ _ _ _ _ _ Hrun). simpl. intros [= <-]. by apply Hround.
Qed.

(** X17: the dispatch raises nothing but the [AttributeError] of
    reading an attribute the snapshot does not have; every access to
    the registry is guarded, so no [KeyError] leaves it. *)
Theorem update_devices_raises_AttributeError_only (data : GinlongData) (w : World)
    (e : exn) :
  result_of (update_devices data w) = Raises e →
  ∃ name, e = AttributeError name ∧ data_lookup data name = None.
Proof.
  destruct (data_lookup data INVERTER_SERIAL) as [serial|] eqn:Hserial.
  - unfold update_devices. repeat silent.
    destruct serial as [| | | |serial]; try done.
    destruct (decide (_subscriptions (service w) !! serial = None)) as [|Hs]; [done|].
    destruct (_subscriptions (service w) !! serial) as [subs|] eqn:Hsubs; [|done].
    by apply (for_each_update_attribute_raises data serial subs).
  - unfold update_devices. erewrite bind_raises by (by apply getattr_None).
    intros [= <-]. by exists INVERTER_SERIAL.
Qed.

Lemma update_attribute_no_clock (data : GinlongData) (serial attribute : string)
    (subs : gmap string nat) (w : World) :
  _subscriptions (service w) !! serial = Some subs →
  attribute ≠ INVERTER_ENERGY_TODAY ∨ subs !! INVERTER_ENERGY_TODAY = None →
  ticks (world_of (update_attribute data serial attribute w)) = ticks w.
Proof.
  intros Hs Hcase.
  destruct (subs !! attribute) as [sub|] eqn:Hsub;
    [|by rewrite (update_attribute_unsubscribed _ _ _ _ _ Hs Hsub)].
  assert (attribute ≠ INVERTER_ENERGY_TODAY) as Hne by (destruct Hcase; congruence).
  destruct (data_lookup data attribute) as [raw|] eqn:Hraw.
  - rewrite (update_attribute_plain data serial attribute subs sub raw w Hs Hsub Hraw Hne).
    by destruct (data_updated_frame sub raw (_last_updated (service w)) w)
      as (_ & Hticks & _).
  - unfold update_attribute. repeat silent. rewrite decide_False by congruence.
    by erewrite bind_raises by (by apply getattr_None).
Qed.

(** X19: the dispatch reads the clock for the energy-today attribute
    only: when the device has no subscriber for it, or the snapshot does
    not give it, no clock reading is taken. *)
Theorem update_devices_clock_for_energy_today_only (data : GinlongData) (serial : string)
    (subs : gmap string nat) (w : World) :
  data_lookup data INVERTER_SERIAL = Some (VStr serial) →
  _subscriptions (service w) !! serial = Some subs →
  subs !! INVERTER_ENERGY_TODAY = None ∨ data_lookup data INVERTER_ENERGY_TODAY = None →
  ticks (world_of (update_devices data w)) = ticks w.
Proof.
  intros Hserial Hs Hcase.
  rewrite (update_devices_rounds data serial subs w Hserial Hs).
  assert (∀ attribute, attribute ∈ keys data →
            attribute ≠ INVERTER_ENERGY_TODAY ∨ subs !! INVERTER_ENERGY_TODAY = None)
    as Hkeys.
  { intros attribute Hin. destruct Hcase as [Hnone|Hnone]; [by right|left].
    intros ->. destruct (data_lookup_key _ _ Hin) as [v Hv]. congruence. }
  revert w Hs Hkeys. generalize (keys data) as attributes.
  induction attributes as [|x attributes IH]; intros w Hs Hkeys; simpl; [done|].
  pose proof (update_attribute_no_clock data serial x subs w Hs
                (Hkeys x (list_elem_of_here _ _))) as Hticks.
  pose proof (dispatch_step_update_attribute data serial x w) as (Hsame & _).
  unfold world_of in *.
  destruct (update_attribute data serial x w) as [[[[]|e'] w1] t1] eqn:Hrun; simpl in *.
  - rewrite (bind_returns _ _ _ _ _ _ Hrun). simpl. rewrite <- Hticks.
    apply IH; [by rewrite Hsame|]. intros attribute Hin. apply Hkeys.
    by apply list_elem_of_further.
  - by rewrite (bind_raises _ _ _ _ _ _ Hrun).
Qed.

(** ** Construction from a known configuration *)

Lemma total_status : total status.
Proof. unfold status, api_is_online. total_with fail. Qed.

Lemma total_async_discover : total async_discover.
Proof.
  unfold async_discover, schedule_discovery.
  total_with ltac:(apply total__do_discover).
Qed.

(** X18: built from a [GinlongConfig] or a [SoliscloudConfig], the
    service has the API object of the class that goes with the
    configuration, no timestamp and an empty registry: [status] and the
    session, discovery and update methods return instead of raising,
    and a snapshot is dropped as long as nobody has subscribed. *)
Theorem known_config_has_api (config : PortalConfig GCfg SCfg) (hass : HomeAssistant)
    (w : World) :
  config ≠ OtherConfig →
  service w = __init__ config hass →
  (∀ c, config = IsGinlongConfig c → _api (service w) = Some (GinlongAPI c)) ∧
  (∀ c, config = IsSoliscloudConfig c → _api (service w) = Some (SoliscloudAPI c)) ∧
  (∃ s, result_of (status w) = Returns s) ∧
  (∃ logged_in, result_of (_login w) = Returns logged_in) ∧
  (∃ capabilities, result_of (_do_discover w) = Returns capabilities) ∧
  result_of (async_discover w) = Returns () ∧
  (well_formed_snapshots → ∃ update, result_of (async_update w) = Returns update) ∧
  last_updated w = (Returns None, w, []) ∧
  (∀ data serial,
     data_lookup data INVERTER_SERIAL = Some serial →
     update_devices data w = (Returns (), w, [])).
Proof.
  intros Hknown Hw.
  assert (api_assigned w) as Hassigned.
  { unfold api_assigned. rewrite Hw. destruct config; simpl; by eauto. }
  split; [by intros c ->; rewrite Hw|]. split; [by intros c ->; rewrite Hw|].
  split; [apply (total_status w Hassigned)|].
  split; [apply (total__login w Hassigned)|].
  split; [apply (total__do_discover w Hassigned)|].
  split; [by destruct (total_async_discover w Hassigned) as [[[] ?] _]|].
  split.
  { intros Hwf.
    destruct (async_update_outcome w Hwf Hassigned) as (logged_in & a1 & _ & _ & Hrun).
    destruct (polled logged_in a1) as [l|]; [|rewrite Hrun; by eexists].
    destruct Hrun as (update & _ & ->). by eexists. }
  split.
  { unfold last_updated. step. rewrite Hw. by destruct config. }
  intros data serial Hserial. unfold update_devices. repeat silent.
  destruct serial as [| | | |serial]; try done.
  rewrite decide_True; [done|]. rewrite Hw. by destruct config.
Qed.


(** ** One call of a subscriber *)

(** X20: [data_updated] returns, invokes [do_update] at most once and
    touches the called subscriber only: the service object, the clock
    and the timestamps of all other subscribers stay, and the called
    subscriber's timestamp is afterwards the old or the supplied one. *)
Theorem data_updated_touches_one_subscriber (sub : nat) (v : value) (t : option datetime)
    (w : World) :
  let r := data_updated sub v t w in
  result_of r = Returns () ∧
  (count_events is_do_update (trace_of r) ≤ 1)%nat ∧
  service (world_of r) = service w ∧
  ticks (world_of r) = ticks w ∧
  (∀ sub', sub' ≠ sub → subscribers (world_of r) !! sub' = subscribers w !! sub') ∧
  (subscribers (world_of r) !! sub = subscribers w !! sub ∨
   subscribers (world_of r) !! sub = t).
Proof.
  intros r. subst r.
  destruct (data_updated_frame sub v t w) as (Hservice & Hticks & Hothers & Hown & _).
  split; [apply notified_data_updated|]. split; [|done].
  destruct (decide (subscribers w !! sub = t)) as [Hm|Hm].
  - rewrite (data_updated_same _ _ _ _ Hm). unfold count_events, trace_of. simpl. lia.
  - rewrite (data_updated_differs _ _ _ _ Hm). unfold count_events, trace_of. simpl. lia.
Qed.

(** ** The devices a cycle and a discovery fetch *)

Lemma fetched_serials_app (t1 t2 : list event) :
  fetched_serials (t1 ++ t2) = fetched_serials t1 ++ fetched_serials t2.
Proof.
  induction t1 as [|e t1 IH]; simpl; [done|]. destruct e; simpl; by rewrite ?IH.
Qed.

Lemma fetched_serials_fetch_free (tr : list event) :
  Forall (λ e, is_api_fetch e = false) tr → fetched_serials tr = [].
Proof.
  induction 1 as [|e tr He _ IH]; simpl; [done|]. by destruct e.
Qed.

Lemma update_inverter_fetches (update : Z) (serial : string) (w : World) :
  api_assigned w →
  fetched_serials (trace_of (update_inverter update serial w)) = [serial].
Proof.
  intros [a Ha]. rewrite (update_inverter_run _ _ _ _ Ha).
  destruct (fetch_inverter_data serial a).1 as [d|]; [|done].
  pose proof (dispatch_step_then d SCHEDULE_OK (fetched serial a w)) as (_ & _ & Ht).
  unfold trace_of, prepend in *. simpl.
  by rewrite (fetched_serials_fetch_free _ (notify_with_fetch_free _ _ Ht)).
Qed.

Lemma poll_fetches (l : list string) (update : Z) (w : World) :
  well_formed_snapshots → api_assigned w →
  fetched_serials (trace_of (for_fold l update update_inverter w)) = l.
Proof.
  intros Hwf. revert update w. induction l as [|serial l IH]; intros update w Hw; simpl;
    [done|].
  pose proof (update_inverter_fetches update serial w Hw) as Hround.
  destruct (total_update_inverter update serial Hwf w Hw) as [[update' Hret] Hw1].
  unfold result_of, world_of, trace_of in *.
  destruct (update_inverter update serial w) as [[res w1] t1] eqn:Hrun.
  simpl in *. subst res. rewrite (bind_returns _ _ _ _ _ _ Hrun). simpl.
  rewrite fetched_serials_app, Hround. simpl. f_equal. by apply IH.
Qed.

(** X21: a cycle whose session check succeeds fetches every inverter
    the API lists after the check, once and in the order of the list,
    also after a fetch that gave no data. *)
Theorem async_update_fetches_listed_inverters (w : World) (a1 : Api) (l : list string) :
  well_formed_snapshots →
  result_of (_login w) = Returns true →
  _api (service (world_of (_login w))) = Some a1 →
  inverters a1 = Some l →
  fetched_serials (trace_of (async_update w)) = l.
Proof.
  intros Hwf Hret Ha1 Hl.
  destruct (_login_session w true Hret) as (a & _ & Ha & _).
  destruct (async_update_outcome w Hwf (ex_intro _ a Ha))
    as (logged_in & a1' & Hlogin & Ha1' & Hrun).
  assert (logged_in = true) as -> by congruence.
  assert (a1' = a1) as -> by congruence.
  simpl in Hrun. rewrite Hl in Hrun. destruct Hrun as (update & _ & ->).
  unfold trace_of at 1. simpl. rewrite !fetched_serials_app.
  rewrite (fetched_serials_fetch_free _ (fetch_free__login w)).
  rewrite (poll_fetches l SCHEDULE_NOK _ Hwf (ex_intro _ a1 Ha1)). simpl.
  rewrite (fetched_serials_fetch_free _ (fetch_free_maybe_renew _)).
  by rewrite app_nil_r.
Qed.

Lemma discover_loop_fetches (l : list string) (acc : gmap string (list string))
    (w : World) :
  api_assigned w →
  fetched_serials (trace_of (for_fold l acc discover_inverter w)) = l.
Proof.
  revert acc w. induction l as [|serial l IH]; intros acc w [a Ha]; simpl; [done|].
  rewrite (bind_returns _ _ _ _ _ _ (discover_inverter_run acc serial w a Ha)).
  unfold trace_of, prepend. simpl.
  f_equal. apply IH. simpl. by eexists.
Qed.

(** X22: a discovery whose session check succeeds fetches every
    inverter the API lists after the check, once and in the order of
    the list. *)
Theorem _do_discover_fetches_listed_inverters (w : World) (a1 : Api) (l : list string) :
  result_of (_login w) = Returns true →
  _api (service (world_of (_login w))) = Some a1 →
  inverters a1 = Some l →
  fetched_serials (trace_of (_do_discover w)) = l.
Proof.
  intros Hret Ha1 Hl. pose proof (fetch_free__login w) as Hfree.
  unfold result_of, world_of, trace_of in *.
  destruct (_login w) as [[res w1] t1] eqn:Hlogin. simpl in *. subst res.
  rewrite (_do_discover_run _ _ _ Hlogin).
  set (w2 := with_service _ (tick w1)).
  assert (_api (service w2) = Some a1) as Ha2 by done.
  unfold discover_inverters, api_inverters, prepend. simpl.
  rewrite fetched_serials_app, (fetched_serials_fetch_free _ Hfree). simpl.
  rewrite bind_assoc. do 2 step. rewrite Hl.
  apply (discover_loop_fetches l ∅ w2). by eexists.
Qed.


(** ** The subscribers a cycle calls *)

Lemma calls_registered_same (w w' : World) (e : event) :
  _subscriptions (service w') = _subscriptions (service w) →
  calls_registered w' e → calls_registered w e.
Proof. intros Hsame. destruct e; simpl; unfold registered; by rewrite ?Hsame. Qed.

#[local] Instance registered_step_composable :
  @Composable Api Env HomeAssistant registered_step.
Proof.
  split.
  - intros w. split; [done|constructor].
  - intros w1 w2 w3 t1 t2 [Hr1 Ht1] [Hr2 Ht2]. split; [congruence|].
    apply Forall_app. split; [done|].
    eapply Forall_impl; [exact Ht2|]. intros e. by apply calls_registered_same.
Qed.

Lemma registered_step_update_devices (data : GinlongData) :
  respects registered_step (update_devices data).
Proof.
  intros w. destruct (dispatch_step_update_devices data w) as (Hsame & _).
  split; [by rewrite Hsame|]. clear Hsame.
  destruct (data_lookup data INVERTER_SERIAL) as [serial|] eqn:Hserial.
  - destruct serial as [| | | |serial];
      try (unfold update_devices; repeat silent; by constructor).
    destruct (_subscriptions (service w) !! serial) as [subs|] eqn:Hs.
    + rewrite (update_devices_rounds data serial subs w Hserial Hs).
      destruct (respects_for_each (device_step data serial subs) (keys data)
                  (update_attribute data serial)
                  (λ attribute, device_step_update_attribute data serial attribute subs)
                  w Hs) as (_ & Hcalls & _).
      eapply Forall_impl; [exact Hcalls|].
      intros e He. destruct e; simpl in *; try done;
        destruct He as (attribute & raw & Hsub & _); exists serial, attribute;
        unfold registered; by rewrite Hs.
    + unfold update_devices. repeat silent. rewrite decide_True by done. constructor.
  - unfold update_devices. erewrite bind_raises by (by apply getattr_None). constructor.
Qed.

Ltac registered_leaf :=
  first [ apply registered_step_update_devices
        | intros ?; split; [done|]; by repeat constructor ].

(** X23: every subscriber a cycle calls was registered, for some
    attribute of some device, when the cycle began; and the cycle
    leaves the registry as it was. *)
Theorem async_update_calls_registered_subscribers (w : World) :
  Forall (calls_registered w) (trace_of (async_update w)) ∧
  (∀ sub v t, (sub, v, t) ∈ notified (trace_of (async_update w)) →
     ∃ serial attribute, registered w serial attribute = Some sub) ∧
  _subscriptions (service (world_of (async_update w))) = _subscriptions (service w).
Proof.
  assert (respects registered_step async_update) as Hcycle.
  { unfold async_update, schedule_update, maybe_renew, update_inverter, _logout, _login,
      api_is_online, api_login, api_logout, api_inverters, api_fetch_inverter_data, api.
    respects_with registered_leaf. }
  destruct (Hcycle w) as [Hregistry Hcalls]. split; [done|]. split; [|done].
  revert Hcalls. generalize (trace_of (async_update w)) as tr.
  induction tr as [|e tr IH]; intros Hall sub v t; simpl;
    [by intros ?%elem_of_nil|].
  apply Forall_cons in Hall as [He Hall].
  destruct e; try (by apply IH).
  intros [[= -> -> ->]|Hin]%elem_of_cons; [done|by eapply IH].
Qed.

(** ** The cycle after a fetch without data *)

(** X24: with an API that gives no data to a session that is logged
    out and whose [logout] logs the session out, a cycle in which a fetch
    gives no data ends logged out with the login timestamp unset, and the
    session check of the next cycle makes a login call. *)
Theorem async_update_logs_in_next_time (w : World) :
  silent_when_logged_out →
  failed_fetch (trace_of (async_update w)) →
  ∃ a : Api,
    _api (service (world_of (async_update w))) = Some a ∧
    is_online a = false ∧
    _logintime (service (world_of (async_update w))) = None ∧
    trace_of (_login (world_of (async_update w))) = [ApiLogin (login a).1].
Proof.
  intros Hlaw. rewrite async_update_unfold. pose proof (fetch_free__login w) as Hfree.
  unfold fetch_free, world_of, trace_of in *.
  destruct (_login w) as [[[logged_in|e] w1] t1] eqn:Hlogin; simpl in Hfree.
  - rewrite (bind_returns _ _ _ _ _ _ Hlogin). simpl.
    pose proof (logged_out_step_after_login logged_in Hlaw w1) as [_ Hfail].
    pose proof (logout_step_after_login logged_in w1) as [Hout _].
    unfold world_of, trace_of in *.
    intros [serial [Hin|Hin]%elem_of_app].
    + rewrite Forall_forall in Hfree. by apply Hfree in Hin.
    + destruct Hfail as [(a & Ha & Hoff) _]; [by exists serial|].
      destruct Hout as [_ Hnone]; [by exists serial|].
      exists a. split; [done|]. split; [done|]. split; [done|].
      rewrite (_login_run _ _ Ha), Hoff. done.
  - rewrite (bind_raises _ _ _ _ _ _ Hlogin). simpl.
    intros [serial Hin]. rewrite Forall_forall in Hfree. by apply Hfree in Hin.
Qed.


End Properties.

(** * The properties on the examples *)

#[local] Existing Instance account_api.
#[local] Existing Instance account_classes.
#[local] Existing Instance sensor_update.
#[local] Existing Instance example_const.
#[local] Existing Instance morning_clock.

Lemma account_snapshots_wf : well_formed_snapshots (Api := account).
Proof.
  intros serial a d. simpl. destruct (reading_of serial (readings a)) as [r|]; [|done].
  intros [= <-]. split; [by eexists|]. intros _. by eexists.
Qed.

Lemma strict_account_snapshots_wf :
  well_formed_snapshots (Api := account) (portal := strict_account_api).
Proof.
  intros serial a d. simpl. destruct (session_open a); [|done].
  destruct (reading_of serial (readings a)) as [r|]; [|done].
  intros [= <-]. split; [by eexists|]. intros _. by eexists.
Qed.

Lemma strict_account_silent :
  silent_when_logged_out (Api := account) (portal := strict_account_api).
Proof. split; [|done]. intros serial a Hclosed. simpl in *. by rewrite Hclosed. Qed.

(** ** The subscriber contract *)

(** Sensor 1 shows 12 already and has applied no timestamp: it refuses
    12 at 09:00 twice, so [do_update] is invoked twice for one
    timestamp. *)
Lemma data_updated_twice_refused :
  let w := example_world (example_service None ∅ None None None)
             ∅ {[ 1%nat := VInt 12 ]} 0 in
  let r1 := data_updated 1 (VInt 12) (Some (local_clock 0)) w in
  let r2 := data_updated 1 (VInt 12) (Some (local_clock 0)) (world_of r1) in
  ¬ (count_events is_do_update (trace_of r1 ++ trace_of r2) ≤ 1)%nat.
Proof. vm_compute. lia. Qed.

(** A sensor that has applied 09:00 already is not asked again, and a
    sensor that shows nothing applies 12 at 09:00 once and is not asked
    again for 13 at 09:00. *)
Lemma data_updated_twice_same_timestamp_witness :
  let stored := example_world (example_service None ∅ None None None)
                  {[ 1%nat := local_clock 0 ]} ∅ 0 in
  let fresh := example_world (example_service None ∅ None None None) ∅ ∅ 0 in
  count_events is_do_update
    (trace_of (data_updated 1 (VInt 12) (Some (local_clock 0)) stored)) = 0%nat ∧
  (count_events is_do_update
     (trace_of (data_updated 1 (VInt 12) (Some (local_clock 0)) fresh) ++
      trace_of (data_updated 1 (VInt 13) (Some (local_clock 0))
                  (world_of (data_updated 1 (VInt 12) (Some (local_clock 0)) fresh))))
   ≤ 1)%nat.
Proof.
  intros stored fresh. split.
  - apply (data_updated_twice_same_timestamp 1 (VInt 12) (VInt 12)
             (Some (local_clock 0)) stored).
    reflexivity.
  - apply (data_updated_twice_same_timestamp 1 (VInt 12) (VInt 13)
             (Some (local_clock 0)) fresh).
    right. reflexivity.
Defined.

(** Sensor 1 shows 12 and refuses it: its timestamp stays unset and
    the next notification with the same timestamp asks it again. *)
Lemma data_updated_commit_witness :
  let w := example_world (example_service None ∅ None None None)
             ∅ {[ 1%nat := VInt 12 ]} 0 in
  let r1 := data_updated 1 (VInt 12) (Some (local_clock 0)) w in
  subscribers w !! 1%nat ≠ Some (local_clock 0) ∧
  subscribers (world_of r1) !! 1%nat = subscribers w !! 1%nat ∧
  count_events is_do_update
    (trace_of (data_updated 1 (VInt 13) (Some (local_clock 0)) (world_of r1))) = 1%nat.
Proof.
  intros w r1.
  assert (subscribers w !! 1%nat ≠ Some (local_clock 0)) as Hne by done.
  split; [exact Hne|].
  exact (proj2 (data_updated_commit 1 (VInt 12) (VInt 13) (Some (local_clock 0)) w Hne)).
Defined.

(** ** The energy-today correction *)

(** State "starting up" at 09:00, the state applied at 08:58: the
    energy-today sensor is not called. *)
Lemma energy_today_starting_up_witness :
  let r := update_attribute starting_snapshot "A" "energy_today" dispatch_world in
  (_subscriptions (service dispatch_world) !! "A"%string = Some sensors_of_A ∧
   data_lookup starting_snapshot "energy_today" = Some (VInt 12) ∧
   data_lookup starting_snapshot "state" = Some (VInt 1) ∧
   dt_hour (local_clock (ticks dispatch_world)) < 12 ∧
   state_measured sensors_of_A dispatch_world = Some two_minutes_before ∧
   local_clock 1 < two_minutes_before + timedelta 0 5 0) ∧
  result_of r = Returns () ∧ trace_of r = [].
Proof.
  intros r.
  pose proof (energy_today_starting_up starting_snapshot "A"
    sensors_of_A 1 (VInt 12) (VInt 1)
    dispatch_world eq_refl eq_refl eq_refl eq_refl eq_refl eq_refl) as [Hres Hcases].
  change (state_measured _ dispatch_world) with (Some two_minutes_before) in Hcases.
  destruct Hcases as (_ & Hskip & _).
  split; [by repeat split|]. split; [exact Hres|].
  apply Hskip; [|reflexivity]. intros [Hhour _]. discriminate Hhour.
Defined.

(** State "standby" at 09:00: the energy-today sensor is called with
    0 instead of 12; with state code 3 it is called with 12. *)
Lemma energy_today_standby_or_passthrough_witness :
  (_subscriptions (service dispatch_world) !! "A"%string = Some sensors_of_A ∧
   data_lookup standby_snapshot "state" = Some (VInt 2) ∧
   data_lookup running_snapshot "state" = Some (VInt 3) ∧
   dt_hour (local_clock (ticks dispatch_world)) < 12) ∧
  notified (trace_of (update_attribute standby_snapshot "A" "energy_today"
                        dispatch_world)) = [(1%nat, VInt 0, None)] ∧
  notified (trace_of (update_attribute running_snapshot "A" "energy_today"
                        dispatch_world)) = [(1%nat, VInt 12, None)].
Proof.
  split; [by repeat split|]. split.
  - apply (energy_today_standby_or_passthrough standby_snapshot "A" sensors_of_A 1
             (VInt 12) (VInt 2) dispatch_world
             ltac:(reflexivity) ltac:(reflexivity) ltac:(reflexivity) ltac:(reflexivity));
      reflexivity.
  - apply (energy_today_standby_or_passthrough running_snapshot "A" sensors_of_A 1
             (VInt 12) (VInt 3) dispatch_world
             ltac:(reflexivity) ltac:(reflexivity) ltac:(reflexivity) ltac:(reflexivity)).
    left. split; reflexivity.
Defined.

(** ** The update cycle *)

(** A cycle over an account that lists nothing schedules no next cycle,
    and a cycle that fetches A and B with success schedules the next
    one 2 minutes, not 1 minute, after the UTC clock reading. *)
Lemma async_update_schedule_counterexample :
  List.filter is_track (trace_of (async_update (cycle_world unlisted))) = [] ∧
  result_of (async_update (cycle_world two_inverters)) = Returns SCHEDULE_OK ∧
  List.filter is_track (trace_of (async_update (cycle_world two_inverters))) =
    [TrackPointInUtcTime AsyncUpdate (utc_clock 4 + timedelta 0 2 0)].
Proof. by vm_compute. Qed.

(** A cycle whose login is refused returns NOT_OK and schedules the
    next cycle 1 minute after the UTC clock reading. *)
Lemma async_update_schedules_next_witness :
  let w := cycle_world refusing_account in
  (api_assigned w ∧ result_of (_login w) = Returns false) ∧
  ∃ k : nat,
    (ticks w ≤ k < ticks (world_of (async_update w)))%nat ∧
    result_of (async_update w) = Returns SCHEDULE_NOK ∧
    List.filter is_track (trace_of (async_update w)) =
      [TrackPointInUtcTime AsyncUpdate (utc_clock k + timedelta 0 SCHEDULE_NOK 0)].
Proof.
  intros w.
  assert (api_assigned w) as Hw by (by eexists).
  assert (result_of (_login w) = Returns false) as Hlogin by reflexivity.
  split; [by split|].
  destruct (async_update_schedules_next w account_snapshots_wf Hw (or_introl Hlogin))
    as (update & k & Hres & _ & Hfalse & Hk & Htr).
  rewrite (Hfalse Hlogin) in Hres, Htr. by exists k.
Defined.

(** In one cycle the sensors of A are called with the first clock
    reading and the sensor of B with the third. *)
Lemma notify_timestamp_counterexample :
  notified (trace_of (async_update (cycle_world two_inverters))) =
    [(2%nat, VInt 3, Some (local_clock 0)); (1%nat, VInt 5, Some (local_clock 0));
     (3%nat, VInt 6, Some (local_clock 2))] ∧
  local_clock 0 ≠ local_clock 2.
Proof. by vm_compute. Qed.

(** In that cycle the calls between two fetches carry one timestamp,
    sensor 1 of A is called with the reading taken after A's fetch, and
    sensor 3 of B, called after B's fetch, with a later and different
    reading. *)
Lemma notify_timestamp_per_device_witness :
  let w := cycle_world two_inverters in
  let tr := trace_of (async_update w) in
  one_timestamp_per_fetch None tr ∧
  (1%nat, VInt 5, Some (local_clock 0)) ∈
    notified (trace_of (update_inverter SCHEDULE_NOK "A" w)) ∧
  Some (local_clock 0) = Some (local_clock (ticks w)) ∧
  (tr = take 3 tr ++ DataUpdated 1 (VInt 5) (Some (local_clock 0))
          :: take 2 (drop 4 tr) ++ DataUpdated 3 (VInt 6) (Some (local_clock 2))
          :: drop 7 tr ∧
   fetch_between (take 2 (drop 4 tr)) ∧
   ∀ i j : nat, (i < j)%nat → local_clock i < local_clock j) ∧
  Some (local_clock 0) ≠ Some (local_clock 2).
Proof.
  intros w tr.
  assert ((1%nat, VInt 5, Some (local_clock 0)) ∈
            notified (trace_of (update_inverter SCHEDULE_NOK "A" w))) as Hin.
  { change (notified _) with
      [(2%nat, VInt 3, Some (local_clock 0)); (1%nat, VInt 5, Some (local_clock 0))].
    apply list_elem_of_further, list_elem_of_here. }
  assert (tr = take 3 tr ++ DataUpdated 1 (VInt 5) (Some (local_clock 0))
                 :: take 2 (drop 4 tr) ++ DataUpdated 3 (VInt 6) (Some (local_clock 2))
                 :: drop 7 tr) as Htrace by (by vm_compute).
  assert (fetch_between (take 2 (drop 4 tr))) as Hmid.
  { exists "B"%string, (Some (snapshot_of "B" (3, VInt 6))).
    apply (list_elem_of_lookup_2 _ 1). by vm_compute. }
  assert (∀ i j : nat, (i < j)%nat → local_clock i < local_clock j) as Hclock.
  { intros i j Hlt. unfold local_clock, morning_clock, timedelta. lia. }
  destruct (notify_timestamp_per_device w) as (Hone & Hdevice & Hapart).
  split; [exact Hone|]. split; [exact Hin|].
  split; [exact (Hdevice SCHEDULE_NOK "A"%string 1%nat (VInt 5) (Some (local_clock 0)) Hin)|].
  split; [by repeat split|].
  destruct (Hapart _ _ _ _ _ _ _ _ _ Htrace Hmid) as (k1 & k2 & _ & _ & _ & Hne).
  exact (Hne Hclock).
Defined.

(** The fetch of A gives no data, the fetch of B does: the cycle
    returns OK. *)
Lemma async_update_fetch_failure_counterexample :
  let w := cycle_world a_without_reading in
  ApiFetch "A" None ∈ trace_of (async_update w) ∧
  result_of (async_update w) = Returns SCHEDULE_OK.
Proof.
  intros w. split; [|reflexivity].
  change (trace_of (async_update w)) with
    (ApiFetch "A" None :: tail (trace_of (async_update w))).
  apply list_elem_of_here.
Qed.

(** In that cycle the API is logged out, the login timestamp ends
    unset and the status is the one of B's fetch; behind a portal that
    gives no data to a closed session B's fetch fails as well and the
    status is NOT_OK. *)
Lemma async_update_fetch_failure_witness :
  let w := cycle_world a_without_reading in
  (failed_fetch (trace_of (async_update w)) ∧ api_assigned w ∧
   failed_fetch (trace_of (async_update (portal := strict_account_api) w))) ∧
  ApiLogout ∈ trace_of (async_update w) ∧
  _logintime (service (world_of (async_update w))) = None ∧
  result_of (async_update w) =
    Returns (status_of (last_fetch (trace_of (async_update w)))) ∧
  result_of (async_update (portal := strict_account_api) w) = Returns SCHEDULE_NOK.
Proof.
  intros w.
  assert (failed_fetch (trace_of (async_update w))) as Hfailed.
  { exists "A"%string.
    change (trace_of (async_update w)) with
      (ApiFetch "A" None :: tail (trace_of (async_update w))).
    apply list_elem_of_here. }
  assert (failed_fetch (trace_of (async_update (portal := strict_account_api) w)))
    as Hfailed'.
  { exists "A"%string.
    change (trace_of (async_update (portal := strict_account_api) w)) with
      (ApiFetch "A" None
       :: tail (trace_of (async_update (portal := strict_account_api) w))).
    apply list_elem_of_here. }
  assert (api_assigned w) as Hw by (by eexists).
  split; [by repeat split|].
  destruct (async_update_fetch_failure w) as [Hlogout Hstatus].
  destruct (Hlogout Hfailed) as [Hout Hnone].
  split; [exact Hout|]. split; [exact Hnone|].
  split; [exact (proj1 (Hstatus account_snapshots_wf Hw))|].
  exact (proj2 (proj2 (async_update_fetch_failure (portal := strict_account_api) w)
                  strict_account_snapshots_wf Hw)
           strict_account_silent Hfailed').
Defined.

(** ** Discovery and construction *)

(** With a callback and an empty cookie registered, a discovery that
    finds inverter A calls no callback. *)
Lemma async_discover_empty_cookie_counterexample :
  let w := discovery_world
             (open_account (Some ["A"%string]) [("A"%string, (3, VInt 5))]) [] in
  _discovery_callback (service w) = Some 7%nat ∧
  _discovery_cookie (service w) = Some [] ∧
  result_of (_do_discover w) =
    Returns {[ "A"%string := ["serial"; "state"; "energy_today"]%string ]} ∧
  ({[ "A"%string := ["serial"; "state"; "energy_today"]%string ]}
     : gmap string (list string)) ≠ ∅ ∧
  List.filter is_discovery_callback (trace_of (async_discover w)) = [].
Proof.
  intros w. split; [reflexivity|]. split; [reflexivity|]. split; [by vm_compute|].
  split; [apply insert_non_empty|by vm_compute].
Qed.

(** A discovery over an account without inverters schedules one retry
    60 seconds after a UTC clock reading and keeps callback and cookie. *)
Lemma async_discover_retry_or_callback_witness :
  let w := discovery_world no_inverters [("entry"%string, VStr "solis")] in
  api_assigned w ∧
  result_of (_do_discover w) = Returns ∅ ∧
  _discovery_callback (service (world_of (async_discover w))) = Some 7%nat ∧
  _discovery_cookie (service (world_of (async_discover w))) =
    Some [("entry"%string, VStr "solis")] ∧
  ∃ k : nat,
    (ticks w ≤ k < ticks (world_of (async_discover w)))%nat ∧
    List.filter is_track (trace_of (async_discover w)) =
      [TrackPointInUtcTime AsyncDiscover (utc_clock k + timedelta 0 0 RETRY_DELAY_SECONDS)].
Proof.
  intros w.
  assert (api_assigned w) as Hw by (by eexists).
  assert (result_of (_do_discover w) = Returns ∅) as Hnone by (by vm_compute).
  split; [exact Hw|]. split; [exact Hnone|].
  destruct (async_discover_retry_or_callback w Hw)
    as (capabilities & Hcaps & _ & Hcb & Hck & Hempty & _).
  rewrite Hnone in Hcaps. injection Hcaps as <-.
  split; [exact Hcb|]. split; [exact Hck|]. exact (proj2 (Hempty eq_refl)).
Defined.

(** A service built from a configuration of neither kind raises
    [AttributeError] wherever it needs the API. *)
Lemma unknown_config_has_no_api_witness :
  let w := unconfigured_world in
  _api (service w) = None ∧
  status w = (Raises (AttributeError "_api"), w, []) ∧
  _login w = (Raises (AttributeError "_api"), w, []) ∧
  async_update w = (Raises (AttributeError "_api"), w, []).
Proof.
  intros w.
  destruct (unknown_config_has_no_api (api_classes := account_classes)
              (Env := gmap nat value) ()) as [Hnone Hall].
  destruct (Hall w Hnone) as (Hstatus & Hlogin & _ & Hupdate & _).
  split; [exact Hnone|]. split; [exact Hstatus|]. split; [exact Hlogin|exact Hupdate].
Defined.

(** A discovery in a session opened at 08:58 makes no login call and
    leaves the clock reading it takes as the login timestamp. *)
Lemma _do_discover_overwrites_logintime_witness :
  let w := logged_in_world in
  (_api (service w) = Some two_inverters ∧
   result_of (_login w) = Returns true ∧
   is_online two_inverters = true ∧
   _logintime (service w) = Some two_minutes_before) ∧
  count_events is_api_login (trace_of (_do_discover w)) = 0%nat ∧
  _logintime (service (world_of (_do_discover w))) = Some (local_clock 5).
Proof.
  intros w. split; [by repeat split|].
  exact (proj2 (_do_discover_overwrites_logintime w two_inverters eq_refl eq_refl)
           eq_refl).
Defined.

(** ** The registry and the dispatch *)

(** Sensor 4 on the state of B and sensor 5 on the power of A can be
    registered in either order. *)
Lemma subscribe_commutes_witness :
  ¬ ("B"%string = "A"%string ∧ "state"%string = "power"%string) ∧
  world_of (subscribe 5 "A" "power" (world_of (subscribe 4 "B" "state" dispatch_world))) =
    world_of (subscribe 4 "B" "state" (world_of (subscribe 5 "A" "power" dispatch_world))).
Proof.
  assert (¬ ("B"%string = "A"%string ∧ "state"%string = "power"%string)) as Hpairs
    by (by intros [? _]).
  split; [exact Hpairs|].
  exact (subscribe_commutes 4 5 "B" "state" "A" "power" dispatch_world Hpairs).
Defined.

(** A snapshot of inverter C, which has no subscriber, is dropped. *)
Lemma update_devices_unknown_device_witness :
  data_lookup snapshot_of_C "serial" = Some (VStr "C") ∧
  _subscriptions (service dispatch_world) !! "C"%string = None ∧
  update_devices snapshot_of_C dispatch_world = (Returns (), dispatch_world, []).
Proof.
  split; [reflexivity|]. split; [reflexivity|].
  apply (update_devices_unknown_device snapshot_of_C (VStr "C") dispatch_world);
    [reflexivity|]. intros s [= <-]. reflexivity.
Defined.

(** From a snapshot of A, sensor 3 of B keeps its timestamp and every
    call carries the service's [last_updated]. *)
Lemma update_devices_calls_own_subscribers_witness :
  let r := update_devices running_snapshot dispatch_world in
  (data_lookup running_snapshot "serial" = Some (VStr "A") ∧
   _subscriptions (service dispatch_world) !! "A"%string = Some sensors_of_A) ∧
  service (world_of r) = service dispatch_world ∧
  (∀ sub v t, (sub, v, t) ∈ notified (trace_of r) →
     t = None ∧ dispatched_to running_snapshot sensors_of_A sub v) ∧
  subscribers (world_of r) !! 3%nat = subscribers dispatch_world !! 3%nat.
Proof.
  intros r.
  destruct (update_devices_calls_own_subscribers (const := example_const)
              running_snapshot "A" sensors_of_A dispatch_world
              ltac:(reflexivity) ltac:(reflexivity))
    as (Hservice & Hcalls & Hothers).
  split; [by split|]. split; [exact Hservice|]. split; [exact Hcalls|].
  apply Hothers. intros attribute.
  destruct (decide (attribute = "energy_today"%string)) as [->|Hne1]; [done|].
  destruct (decide (attribute = "state"%string)) as [->|Hne2]; [done|].
  unfold sensors_of_A. rewrite lookup_insert_ne by done.
  by rewrite lookup_singleton_ne.
Defined.

(** From a snapshot of A with state code 3, sensor 2 is called with 3. *)
Lemma update_devices_notifies_subscribers_witness :
  (snapshot_wf running_snapshot ∧
   data_lookup running_snapshot "serial" = Some (VStr "A") ∧
   _subscriptions (service dispatch_world) !! "A"%string = Some sensors_of_A ∧
   sensors_of_A !! "state"%string = Some 2%nat ∧
   data_lookup running_snapshot "state" = Some (VInt 3) ∧
   "state"%string ≠ INVERTER_ENERGY_TODAY) ∧
  result_of (update_devices running_snapshot dispatch_world) = Returns () ∧
  (2%nat, VInt 3, None) ∈ notified (trace_of (update_devices running_snapshot dispatch_world)).
Proof.
  assert (snapshot_wf running_snapshot) as Hwf by (split; [|intros _]; by eexists).
  assert ("state"%string ≠ INVERTER_ENERGY_TODAY) as Hne by done.
  split; [by repeat split|].
  exact (update_devices_notifies_subscribers (const := example_const)
           running_snapshot "A" "state" sensors_of_A 2 (VInt 3) dispatch_world Hwf
           ltac:(reflexivity) ltac:(reflexivity) ltac:(reflexivity) ltac:(reflexivity)
           Hne).
Defined.

(** Sensor 9 registers for the state of B and is called with 3 by the
    dispatch of a snapshot of B. *)
Lemma subscribe_then_update_devices_witness :
  let data := snapshot_of "B" (3, VInt 6) in
  (snapshot_wf data ∧ data_lookup data "serial" = Some (VStr "B") ∧
   data_lookup data "state" = Some (VInt 3) ∧ "state"%string ≠ INVERTER_ENERGY_TODAY) ∧
  (9%nat, VInt 3, None) ∈
    notified (trace_of (update_devices data
                          (world_of (subscribe 9 "B" "state" dispatch_world)))).
Proof.
  intros data.
  assert (snapshot_wf data) as Hwf by (split; [|intros _]; by eexists).
  assert ("state"%string ≠ INVERTER_ENERGY_TODAY) as Hne by done.
  split; [by repeat split|].
  exact (subscribe_then_update_devices (const := example_const)
           data "B" "state" 9 (VInt 3) dispatch_world Hwf
           ltac:(reflexivity) ltac:(reflexivity) Hne).
Defined.

(** A snapshot that does not name its device makes the dispatch raise
    the [AttributeError] of the serial. *)
Lemma update_devices_raises_AttributeError_only_witness :
  result_of (update_devices nameless_snapshot dispatch_world) =
    Raises (AttributeError "serial") ∧
  ∃ name, AttributeError "serial" = AttributeError name ∧
          data_lookup nameless_snapshot name = None.
Proof.
  assert (result_of (update_devices nameless_snapshot dispatch_world) =
            Raises (AttributeError "serial")) as Hraises by reflexivity.
  split; [exact Hraises|].
  exact (update_devices_raises_AttributeError_only nameless_snapshot dispatch_world
           (AttributeError "serial") Hraises).
Defined.

(** The dispatch of a snapshot of A without energy today reads no
    clock. *)
Lemma update_devices_clock_for_energy_today_only_witness :
  (data_lookup state_only_snapshot "serial" = Some (VStr "A") ∧
   _subscriptions (service dispatch_world) !! "A"%string = Some sensors_of_A ∧
   data_lookup state_only_snapshot "energy_today" = None) ∧
  ticks (world_of (update_devices state_only_snapshot dispatch_world)) = 0%nat.
Proof.
  assert (data_lookup state_only_snapshot INVERTER_ENERGY_TODAY = None) as Hnone
    by reflexivity.
  split; [by repeat split|].
  exact (update_devices_clock_for_energy_today_only (const := example_const)
           state_only_snapshot "A" sensors_of_A dispatch_world
           ltac:(reflexivity) ltac:(reflexivity) (or_intror Hnone)).
Defined.

(** ** The session *)

(** After a session check that logged in, the next one makes no call. *)
Lemma _login_twice_witness :
  let w := cycle_world closed_accepting in
  (result_of (_login w) = Returns true ∧ trace_of (_login w) = [ApiLogin true]) ∧
  _login (world_of (_login w)) = (Returns true, world_of (_login w), []).
Proof.
  intros w.
  assert (result_of (_login w) = Returns true) as Hret by reflexivity.
  split; [by split|]. exact (_login_twice w Hret).
Defined.

(** After a refused login the status is Offline. *)
Lemma status_after__login_witness :
  let w := cycle_world refusing_account in
  result_of (_login w) = Returns false ∧
  status (world_of (_login w)) = (Returns OFFLINE, world_of (_login w), []).
Proof.
  intros w.
  assert (result_of (_login w) = Returns false) as Hret by reflexivity.
  split; [exact Hret|]. exact (status_after__login w false Hret).
Defined.

(** A cycle at 09:00 in a session opened at 06:00 fetches A and B with
    success and logs out: the login is more than two hours old. *)
Lemma async_update_logout_reasons_witness :
  let w := stale_session_world in
  (api_assigned w ∧ ApiLogout ∈ trace_of (async_update w) ∧
   ¬ failed_fetch (trace_of (async_update w))) ∧
  ∃ (t : datetime) (k : nat),
    (ticks w ≤ k < ticks (world_of (async_update w)))%nat ∧
    t + HRS_BETWEEN_LOGIN < local_clock k ∧
    (_logintime (service w) = Some t ∨
     (ApiLogin true ∈ trace_of (async_update w) ∧ t = local_clock (ticks w))).
Proof.
  intros w.
  assert (api_assigned w) as Hw by (by eexists).
  assert (ApiLogout ∈ trace_of (async_update w)) as Hout.
  { apply (list_elem_of_lookup_2 _ 9). by vm_compute. }
  assert (¬ failed_fetch (trace_of (async_update w))) as Hnone.
  { intros [serial Hin]. apply list_elem_of_In in Hin. vm_compute in Hin.
    repeat (destruct Hin as [Hin|Hin]; [discriminate Hin|]). destruct Hin. }
  split; [by repeat split|].
  by destruct (async_update_logout_reasons w account_snapshots_wf Hw Hout).
Defined.

(** A cycle whose login is refused fetches nothing and calls nobody. *)
Lemma async_update_login_failed_witness :
  let w := cycle_world refusing_account in
  result_of (_login w) = Returns false ∧
  result_of (async_update w) = Returns SCHEDULE_NOK ∧
  notified (trace_of (async_update w)) = [] ∧
  _last_updated (service (world_of (async_update w))) = None.
Proof.
  intros w.
  assert (result_of (_login w) = Returns false) as Hret by reflexivity.
  destruct (async_update_login_failed w Hret) as (Hres & _ & Hcalls & Hupdated & _).
  split; [exact Hret|]. split; [exact Hres|]. split; [exact Hcalls|exact Hupdated].
Defined.

(** A cycle over an account that has no list of inverters ends after
    the session check. *)
Lemma async_update_no_inverter_list_witness :
  let w := cycle_world unlisted in
  (result_of (_login w) = Returns true ∧
   _api (service (world_of (_login w))) = Some unlisted ∧ inverters unlisted = None) ∧
  async_update w = (Returns SCHEDULE_NOK, w, []) ∧
  List.filter is_track (trace_of (async_update w)) = [].
Proof.
  intros w.
  assert (result_of (_login w) = Returns true) as Hret by reflexivity.
  assert (_api (service (world_of (_login w))) = Some unlisted) as Ha by reflexivity.
  assert (inverters unlisted = None) as Hnone by reflexivity.
  destruct (async_update_no_inverter_list w unlisted Hret Ha Hnone)
    as (Hrun & Hquiet & _).
  split; [by repeat split|]. split; [exact Hrun|exact Hquiet].
Defined.

(** A cycle over an account that lists A and B and has no reading of A
    fetches A, then B. *)
Lemma async_update_fetches_listed_inverters_witness :
  let w := cycle_world a_without_reading in
  (result_of (_login w) = Returns true ∧
   _api (service (world_of (_login w))) = Some a_without_reading ∧
   inverters a_without_reading = Some ["A"; "B"]%string) ∧
  fetched_serials (trace_of (async_update w)) = ["A"; "B"]%string.
Proof.
  intros w.
  assert (result_of (_login w) = Returns true) as Hret by reflexivity.
  assert (_api (service (world_of (_login w))) = Some a_without_reading) as Ha
    by reflexivity.
  assert (inverters a_without_reading = Some ["A"; "B"]%string) as Hlist by reflexivity.
  split; [by repeat split|].
  exact (async_update_fetches_listed_inverters w a_without_reading ["A"; "B"]%string
           account_snapshots_wf Hret Ha Hlist).
Defined.

(** ** Discovery and construction *)

(** A discovery over the account without a reading of A reports B
    with the attributes of its snapshot. *)
Lemma _do_discover_capabilities_witness :
  let w := discovery_world a_without_reading [] in
  result_of (_do_discover w) =
    Returns {[ "B"%string := ["serial"; "state"; "energy_today"]%string ]} ∧
  ∃ d, ApiFetch "B" (Some d) ∈ trace_of (_do_discover w) ∧
       ["serial"; "state"; "energy_today"]%string = keys d.
Proof.
  intros w.
  assert (result_of (_do_discover w) =
            Returns {[ "B"%string := ["serial"; "state"; "energy_today"]%string ]})
    as Hret by (by vm_compute).
  split; [exact Hret|].
  exact (proj1 (_do_discover_capabilities w _ Hret) "B"%string _ ltac:(reflexivity)).
Defined.

(** That discovery fetches A, then B, although A has no reading. *)
Lemma _do_discover_fetches_listed_inverters_witness :
  let w := discovery_world a_without_reading [] in
  (result_of (_login w) = Returns true ∧
   _api (service (world_of (_login w))) = Some a_without_reading ∧
   inverters a_without_reading = Some ["A"; "B"]%string) ∧
  fetched_serials (trace_of (_do_discover w)) = ["A"; "B"]%string.
Proof.
  intros w.
  assert (result_of (_login w) = Returns true) as Hret by reflexivity.
  assert (_api (service (world_of (_login w))) = Some a_without_reading) as Ha
    by reflexivity.
  assert (inverters a_without_reading = Some ["A"; "B"]%string) as Hlist by reflexivity.
  split; [by repeat split|].
  exact (_do_discover_fetches_listed_inverters w a_without_reading ["A"; "B"]%string
           Hret Ha Hlist).
Defined.

(** A service built from a Ginlong configuration has the API object of
    that class, and its cycle returns. *)
Lemma known_config_has_api_witness :
  (IsGinlongConfig () ≠ (OtherConfig : PortalConfig unit unit) ∧
   service fresh_world = __init__ (IsGinlongConfig ()) ()) ∧
  _api (service fresh_world) = Some (GinlongAPI ()) ∧
  (∃ update, result_of (async_update fresh_world) = Returns update) ∧
  update_devices running_snapshot fresh_world = (Returns (), fresh_world, []).
Proof.
  assert (IsGinlongConfig () ≠ (OtherConfig : PortalConfig unit unit)) as Hknown by done.
  destruct (known_config_has_api (IsGinlongConfig ()) () fresh_world Hknown eq_refl)
    as (Hginlong & _ & _ & _ & _ & _ & Hcycle & _ & Hdrop).
  split; [by split|]. split; [exact (Hginlong () eq_refl)|].
  split; [exact (Hcycle account_snapshots_wf)|].
  exact (Hdrop running_snapshot (VStr "A") eq_refl).
Defined.


(** Behind a portal that gives no data to a closed session, the cycle
    that finds no reading of A ends logged out, and the next session
    check logs in. *)
Lemma async_update_logs_in_next_time_witness :
  let w := cycle_world a_without_reading in
  let w' := world_of (async_update (portal := strict_account_api) w) in
  failed_fetch (trace_of (async_update (portal := strict_account_api) w)) ∧
  ∃ a : account,
    _api (service w') = Some a ∧
    is_online a = false ∧
    _logintime (service w') = None ∧
    trace_of (_login (portal := strict_account_api) w') = [ApiLogin (login a).1].
Proof.
  intros w w'.
  assert (failed_fetch (trace_of (async_update (portal := strict_account_api) w)))
    as Hfailed.
  { exists "A"%string.
    change (trace_of (async_update (portal := strict_account_api) w)) with
      (ApiFetch "A" None
       :: tail (trace_of (async_update (portal := strict_account_api) w))).
    apply list_elem_of_here. }
  split; [exact Hfailed|].
  exact (async_update_logs_in_next_time (portal := strict_account_api) w
           strict_account_silent Hfailed).
Defined.
